(** * FreeCore: kernel heap allocator and read-only EXT4 driver

    A shallow embedding of [kernel/src/mm/kmalloc.c] and of the EXT4 read
    path ([fs/ext4/ext4.c]) together with the properties stated about
    them.

    Machine integers are [Z] with the wrap-around of their C type written
    out.  Memory is one byte store indexed by absolute address: block
    headers, scratch buffers and payloads all live in it, as in the C
    program. *)

From Stdlib Require Import ZArith String List Lia Bool.
Import ListNotations.
Local Open Scope Z_scope.

(** ** Machine integers *)

Definition wrap8 (x : Z) : Z := x mod 2 ^ 8.
Definition wrap16 (x : Z) : Z := x mod 2 ^ 16.
Definition wrap32 (x : Z) : Z := x mod 2 ^ 32.
Definition wrap64 (x : Z) : Z := x mod 2 ^ 64.

(** Conversion of an unsigned value to a C [int] (two's complement). *)
Definition to_int (x : Z) : Z :=
  let y := wrap32 x in if y <? 2 ^ 31 then y else y - 2 ^ 32.

(** ** Byte-addressed memory *)

Definition mem := Z -> Z.

(** [in_range p n x]: address [x] is one of the [n] bytes starting at [p]
    (pointer arithmetic is modulo 2^64). *)
Definition in_range (p n x : Z) : bool := wrap64 (x - p) <? n.

Definition load8 (m : mem) (a : Z) : Z := m a mod 256.

Fixpoint load_le (n : nat) (m : mem) (a : Z) : Z :=
  match n with
  | O => 0
  | S k => load8 m a + 256 * load_le k m (a + 1)
  end.

Definition load16 := load_le 2.
Definition load32 := load_le 4.
Definition load64 := load_le 8.

(** Little-endian store of the low [n] bytes of [v] at [a]. *)
Definition store_le (n : Z) (m : mem) (a v : Z) : mem :=
  fun x => if (a <=? x) && (x <? a + n) then (v / 256 ^ (x - a)) mod 256 else m x.

Definition store8 := store_le 1.
Definition store32 := store_le 4.
Definition store64 := store_le 8.

(** [memset], [memcpy] and [memmove] of lib/minstd.c act on the byte
    store; their NULL and zero-length guards are modelled where they are
    called.  The copy reads the source as it was before the call, which is
    what [memcpy] does on disjoint regions and what its [memmove] fallback
    does on overlapping ones. *)
Definition mem_fill (m : mem) (p c n : Z) : mem :=
  fun x => if in_range p n x then wrap8 c else m x.

Definition mem_copy (m : mem) (dst src n : Z) : mem :=
  fun x => if in_range dst n x then m (wrap64 (src + wrap64 (x - dst))) else m x.

(** ** Kernel state *)

(** Arguments of a formatted message: integers and pointers, or strings. *)
Inductive log_arg : Type :=
| LInt (z : Z)
| LStr (str : string).
Coercion LInt : Z >-> log_arg.

Inductive log_entry : Type :=
| Kprintf (fmt : string) (args : list log_arg)
| Kerr (fmt : string) (args : list log_arg).

Record kstate : Type := mkState {
  memory : mem;
  heap_initialized : bool;
  heap_used : Z;
  klog : list log_entry;          (* most recent entry first *)
  dev_reads : list (Z * Z)        (* device reads issued: (offset, size) *)
}.

Definition set_memory (s : kstate) (m : mem) : kstate :=
  mkState m (heap_initialized s) (heap_used s) (klog s) (dev_reads s).
Definition set_heap_used (s : kstate) (u : Z) : kstate :=
  mkState (memory s) (heap_initialized s) u (klog s) (dev_reads s).
Definition set_heap_initialized (s : kstate) (b : bool) : kstate :=
  mkState (memory s) b (heap_used s) (klog s) (dev_reads s).
Definition kprintf (fmt : string) (args : list log_arg) (s : kstate) : kstate :=
  mkState (memory s) (heap_initialized s) (heap_used s)
          (Kprintf fmt args :: klog s) (dev_reads s).
Definition kerr (fmt : string) (args : list log_arg) (s : kstate) : kstate :=
  mkState (memory s) (heap_initialized s) (heap_used s)
          (Kerr fmt args :: klog s) (dev_reads s).
Definition note_read (off size : Z) (s : kstate) : kstate :=
  mkState (memory s) (heap_initialized s) (heap_used s) (klog s)
          ((off, size) :: dev_reads s).

(** Outcome of running a function: it returns a value and a state, or the
    machine traps (division by zero, an undefined shift, a write past the
    end of an array, a loop that exceeds its bound). *)
Inductive trap : Type :=
| DivByZero | UndefinedShift | BufferOverrun | LoopBound.

Inductive exec (A : Type) : Type :=
| Done (a : A) (s : kstate)
| Trap (t : trap).
Arguments Done {A} a s.
Arguments Trap {A} t.

Definition M (A : Type) : Type := kstate -> exec A.
Definition ret {A} (a : A) : M A := fun s => Done a s.
Definition bind {A B} (c : M A) (k : A -> M B) : M B :=
  fun s => match c s with Done a s' => k a s' | Trap t => Trap t end.
Definition lift (f : kstate -> kstate) : M unit := fun s => Done tt (f s).
Definition get {A} (f : kstate -> A) : M A := fun s => Done (f s) s.
Definition raise {A} (t : trap) : M A := fun _ => Trap t.

Declare Scope kmonad_scope.
Delimit Scope kmonad_scope with kmonad.
Notation "x <- c ;; k" := (bind c (fun x => k))
  (at level 61, c at next level, right associativity) : kmonad_scope.
Notation "c ;;; k" := (bind c (fun _ => k))
  (at level 61, right associativity) : kmonad_scope.

(** ** The allocator, kernel/src/mm/kmalloc.c *)

Definition KERNEL_HEAP_SIZE : Z := 4 * 1024 * 1024.

(** [sizeof(alloc_header_t)] on x86-64: [size_t size] at offset 0,
    [uint32_t magic] at offset 8, [bool used] at offset 12, padded to 16. *)
Definition HEADER_SIZE : Z := 16.
Definition ALLOC_MAGIC : Z := 0xABCD1234.
Definition MIN_ALLOC_SIZE : Z := HEADER_SIZE + 16.

Definition hdr_size (m : mem) (h : Z) : Z := load64 m h.
Definition hdr_magic (m : mem) (h : Z) : Z := load32 m (h + 8).
Definition hdr_used (m : mem) (h : Z) : bool := negb (load8 m (h + 12) =? 0).

Definition set_hdr_size (m : mem) (h v : Z) : mem := store64 m h v.
Definition set_hdr_magic (m : mem) (h v : Z) : mem := store32 m (h + 8) v.
Definition set_hdr_used (m : mem) (h : Z) (b : bool) : mem :=
  store8 m (h + 12) (if b then 1 else 0).

(** Iterations granted to the block walk of [find_free_block]: one per
    possible block of at least [HEADER_SIZE] bytes, plus the exit test. *)
Definition WALK_BOUND : nat := Z.to_nat (KERNEL_HEAP_SIZE / HEADER_SIZE + 1).

Inductive search_result : Type :=
| Found (block : Z)
| NotFound
| Corrupted (at_block : Z)
| Unbounded.

Section Allocator.

(** Address of the static array [kernel_heap]. *)
Variable kernel_heap : Z.

Definition heap_end : Z := kernel_heap + KERNEL_HEAP_SIZE.

Definition kmalloc_init (s : kstate) : kstate :=
  if heap_initialized s then s
  else
    let s := kprintf "MM: Initializing kernel heap\n" [] s in
    let m := mem_fill (memory s) kernel_heap 0 KERNEL_HEAP_SIZE in
    let m := set_hdr_size m kernel_heap KERNEL_HEAP_SIZE in
    let m := set_hdr_magic m kernel_heap ALLOC_MAGIC in
    let m := set_hdr_used m kernel_heap false in
    let s := set_memory s m in
    let s := set_heap_used s 0 in
    let s := set_heap_initialized s true in
    kprintf "MM: Kernel heap initialized, size: %d bytes\n" [LInt KERNEL_HEAP_SIZE] s.

Fixpoint find_free_block_from (fuel : nat) (m : mem) (size current : Z)
  : search_result :=
  match fuel with
  | O => Unbounded
  | S fuel' =>
      if current <? heap_end then
        if negb (hdr_magic m current =? ALLOC_MAGIC) then Corrupted current
        else if negb (hdr_used m current) && (size <=? hdr_size m current)
             then Found current
             else find_free_block_from fuel' m size
                    (wrap64 (current + hdr_size m current))
      else NotFound
  end.

Definition find_free_block (m : mem) (size : Z) : search_result :=
  find_free_block_from WALK_BOUND m size kernel_heap.

Definition split_block (m : mem) (block size : Z) : mem :=
  let m :=
    if wrap64 (size + MIN_ALLOC_SIZE) <=? hdr_size m block then
      let new_block := wrap64 (block + size) in
      let m := set_hdr_size m new_block (wrap64 (hdr_size m block - size)) in
      let m := set_hdr_magic m new_block ALLOC_MAGIC in
      let m := set_hdr_used m new_block false in
      set_hdr_size m block size
    else m in
  set_hdr_used m block true.

Definition kmalloc (size : Z) : M Z := fun s =>
  if size =? 0 then Done 0 s
  else
    let s := if heap_initialized s then s else kmalloc_init s in
    let size := Z.land (wrap64 (size + 15)) (Z.lnot 15) in
    let total_size := wrap64 (size + HEADER_SIZE) in
    match find_free_block (memory s) total_size with
    | Unbounded => Trap LoopBound
    | Found block =>
        let s := set_memory s (split_block (memory s) block total_size) in
        let s := set_heap_used s
                   (wrap64 (heap_used s + hdr_size (memory s) block)) in
        Done (wrap64 (block + HEADER_SIZE)) s
    | NotFound =>
        Done 0 (kerr "MM: Failed to allocate %zu bytes (out of memory)\n"
                     [LInt size] s)
    | Corrupted c =>
        let s := kerr "MM: Corrupted heap detected at 0x%p\n" [LInt c] s in
        Done 0 (kerr "MM: Failed to allocate %zu bytes (out of memory)\n"
                     [LInt size] s)
    end.

(** [memset] with its guards. *)
Definition memset (p c n : Z) (s : kstate) : kstate :=
  if p =? 0 then kerr "memset: NULL pointer detected\n" [] s
  else if n =? 0 then s
  else set_memory s (mem_fill (memory s) p c n).

(** [memcpy] with its guards; on overlapping regions it reports and falls
    back to [memmove]. *)
Definition memcpy (dst src n : Z) (s : kstate) : kstate :=
  if (dst =? 0) || (src =? 0) then kerr "memcpy: NULL pointer detected\n" [] s
  else if n =? 0 then s
  else if ((dst <=? src) && (src <? wrap64 (dst + n)))
          || ((src <=? dst) && (dst <? wrap64 (src + n)))
  then
    let s := kerr "memcpy: memory regions overlap, use memmove instead\n" [] s in
    if dst =? src then s
    else set_memory s (mem_copy (memory s) dst src n)
  else set_memory s (mem_copy (memory s) dst src n).

Definition kzalloc (size : Z) : M Z :=
  (ptr <- kmalloc size ;;
   if ptr =? 0 then ret ptr
   else (lift (memset ptr 0 size) ;;; ret ptr))%kmonad.

Definition validate_block (m : mem) (header : Z) : bool :=
  if (header <? kernel_heap) || (heap_end <=? header) then false
  else if negb (hdr_magic m header =? ALLOC_MAGIC) then false
  else if (hdr_size m header <? HEADER_SIZE)
          || (heap_end <? wrap64 (header + hdr_size m header)) then false
  else true.

Definition merge_blocks (m : mem) (block : Z) : mem :=
  let next_block := wrap64 (block + hdr_size m block) in
  if heap_end <=? next_block then m
  else if negb (validate_block m next_block) then m
  else if negb (hdr_used m next_block) then
    let m := set_hdr_size m block
               (wrap64 (hdr_size m block + hdr_size m next_block)) in
    set_hdr_magic m next_block 0
  else m.

Definition kfree (ptr : Z) (s : kstate) : kstate :=
  if (ptr =? 0) || negb (heap_initialized s) then s
  else
    let header := wrap64 (ptr - HEADER_SIZE) in
    if negb (validate_block (memory s) header) then
      kerr "MM: Attempt to free invalid memory at 0x%p\n" [LInt ptr] s
    else if negb (hdr_used (memory s) header) then
      kerr "MM: Double free detected at 0x%p\n" [LInt ptr] s
    else
      let s := set_memory s (set_hdr_used (memory s) header false) in
      let s := set_heap_used s
                 (wrap64 (heap_used s - hdr_size (memory s) header)) in
      set_memory s (merge_blocks (memory s) header).

Definition krealloc (ptr size : Z) : M Z := fun s =>
  if ptr =? 0 then kmalloc size s
  else if size =? 0 then Done 0 (kfree ptr s)
  else
    let header := wrap64 (ptr - HEADER_SIZE) in
    if negb (validate_block (memory s) header) then
      Done 0 (kerr "MM: Attempt to realloc invalid memory at 0x%p\n" [LInt ptr] s)
    else
      let curr_size := wrap64 (hdr_size (memory s) header - HEADER_SIZE) in
      if size <=? curr_size then Done ptr s
      else
        match kmalloc size s with
        | Trap t => Trap t
        | Done new_ptr s =>
            if new_ptr =? 0 then Done 0 s
            else
              let s := memcpy new_ptr ptr curr_size s in
              Done new_ptr (kfree ptr s)
        end.

(** [kmalloc_stats]: [None] stands for the -1 returned before the heap is
    initialised; otherwise total, used and free byte counts. *)
Definition kmalloc_stats (s : kstate) : option (Z * Z * Z) :=
  if heap_initialized s
  then Some (KERNEL_HEAP_SIZE, heap_used s, wrap64 (KERNEL_HEAP_SIZE - heap_used s))
  else None.

End Allocator.

Definition boot_state : kstate := mkState (fun _ => 0) false 0 [] [].


(** ** Block device, drivers/block/block.h

    The device is supplied from outside.  A read names a byte offset and
    a size and answers with a status (negative on failure) and, when it
    stored something, the bytes it put into the caller's buffer. *)

Record dev_reply : Type := mkReply {
  reply_status : Z;
  reply_data : option (Z -> Z)
}.

Record block_device : Type := mkDev {
  dev_name : string;
  dev_read : Z -> Z -> dev_reply
}.

Definition mem_write (m : mem) (buffer size : Z) (data : Z -> Z) : mem :=
  fun x => if in_range buffer size x then data (wrap64 (x - buffer)) else m x.

(** [device->ops->read(device, offset, size, buffer)]. *)
Definition device_read (d : block_device) (offset size buffer : Z) : M Z :=
  fun s =>
    let r := dev_read d offset size in
    let s := note_read offset size s in
    let s := match reply_data r with
             | Some data => set_memory s (mem_write (memory s) buffer size data)
             | None => s
             end in
    Done (reply_status r) s.

(** ** EXT4 on-disk structures, fs/ext4/ext4.h *)

Definition EXT4_SUPER_MAGIC : Z := 0xEF53.
Definition EXT4_SUPERBLOCK_OFFSET : Z := 1024.
Definition EXT4_ROOT_INO : Z := 2.
Definition EXT4_FEATURE_INCOMPAT_EXTENTS : Z := 0x0040.
Definition EXT4_EXTENTS_FL : Z := 0x80000.
Definition EXT4_EXTENT_HEADER_MAGIC : Z := 0xF30A.

Definition EXT4_FT_REG_FILE : Z := 1.
Definition EXT4_FT_DIR : Z := 2.
Definition EXT4_FT_CHRDEV : Z := 3.
Definition EXT4_FT_BLKDEV : Z := 4.
Definition EXT4_FT_FIFO : Z := 5.
Definition EXT4_FT_SOCK : Z := 6.
Definition EXT4_FT_SYMLINK : Z := 7.

(** fs/vfs.h *)
Definition VFS_FILE : Z := 0x01.
Definition VFS_DIRECTORY : Z := 0x02.
Definition VFS_CHARDEVICE : Z := 0x03.
Definition VFS_BLOCKDEVICE : Z := 0x04.
Definition VFS_PIPE : Z := 0x05.
Definition VFS_SYMLINK : Z := 0x06.
Definition VFS_SOCKET : Z := 0x09.
Definition VFS_NAME_MAX : Z := 255.

(* octal 0170000, 0140000, ... of fs/vfs.h *)
Definition S_IFMT : Z := 0xF000.
Definition S_IFSOCK : Z := 0xC000.
Definition S_IFLNK : Z := 0xA000.
Definition S_IFREG : Z := 0x8000.
Definition S_IFBLK : Z := 0x6000.
Definition S_IFDIR : Z := 0x4000.
Definition S_IFCHR : Z := 0x2000.
Definition S_IFIFO : Z := 0x1000.
Definition S_ISTYPE (ty m : Z) : bool := Z.land m S_IFMT =? ty.

(** Sizes of the C structures on x86-64. *)
Definition SIZEOF_SUPERBLOCK : Z := 1024.   (* packed *)
Definition SIZEOF_GROUP_DESC : Z := 64.     (* packed *)
Definition SIZEOF_INODE : Z := 128.         (* packed *)
Definition SIZEOF_EXTENT_NODE : Z := 60.    (* header 12 + 4 entries of 12 *)
Definition SIZEOF_FS : Z := 1080.
Definition SIZEOF_INODE_INFO : Z := 144.
Definition SIZEOF_VFS_NODE : Z := 328.

(** The superblock fields the driver reads, at their packed offsets. *)
Record ext4_superblock : Type := mkSb {
  s_blocks_count_lo : Z;      (* offset 4 *)
  s_first_data_block : Z;     (* offset 20 *)
  s_log_block_size : Z;       (* offset 24 *)
  s_blocks_per_group : Z;     (* offset 32 *)
  s_inodes_per_group : Z;     (* offset 40 *)
  s_magic : Z;                (* offset 56, 16 bits *)
  s_inode_size : Z;           (* offset 88, 16 bits *)
  s_feature_incompat : Z;     (* offset 96 *)
  s_desc_size : Z;            (* offset 254, 16 bits *)
  s_blocks_count_hi : Z       (* offset 336 *)
}.

(** The copy of the 1024 superblock bytes at [p] into [fs->sb]. *)
Definition read_superblock (m : mem) (p : Z) : ext4_superblock :=
  mkSb (load32 m (p + 4)) (load32 m (p + 20)) (load32 m (p + 24))
       (load32 m (p + 32)) (load32 m (p + 40)) (load16 m (p + 56))
       (load16 m (p + 88)) (load32 m (p + 96)) (load16 m (p + 254))
       (load32 m (p + 336)).

Definition set_feature_incompat (sb : ext4_superblock) (v : Z) : ext4_superblock :=
  mkSb (s_blocks_count_lo sb) (s_first_data_block sb) (s_log_block_size sb)
       (s_blocks_per_group sb) (s_inodes_per_group sb) (s_magic sb)
       (s_inode_size sb) v (s_desc_size sb) (s_blocks_count_hi sb).

(** An inode record is kept as its 128 packed bytes, indexed from 0. *)
Definition inode_bytes := Z -> Z.
Definition i_mode (ino : inode_bytes) : Z := load16 ino 0.
Definition i_size_lo (ino : inode_bytes) : Z := load32 ino 4.
Definition i_flags (ino : inode_bytes) : Z := load32 ino 32.
Definition I_BLOCK_OFFSET : Z := 40.
Definition i_size_high (ino : inode_bytes) : Z := load32 ino 108.

(** [lo | ((uint64_t)hi << 32)]. *)
Definition lo_hi (lo hi : Z) : Z := Z.lor lo (wrap64 (Z.shiftl hi 32)).
Definition i_size (ino : inode_bytes) : Z := lo_hi (i_size_lo ino) (i_size_high ino).

(** Extent node fields, read at address [n] of a byte store. *)
Definition eh_magic (m : mem) (n : Z) : Z := load16 m n.
Definition eh_entries (m : mem) (n : Z) : Z := load16 m (n + 2).
Definition eh_depth (m : mem) (n : Z) : Z := load16 m (n + 6).
Definition entry_at (n i : Z) : Z := n + 12 + 12 * i.
Definition ei_block (m : mem) (n i : Z) : Z := load32 m (entry_at n i).
Definition ei_leaf_lo (m : mem) (n i : Z) : Z := load32 m (entry_at n i + 4).
Definition ei_leaf_hi (m : mem) (n i : Z) : Z := load16 m (entry_at n i + 8).
Definition ee_block (m : mem) (n i : Z) : Z := load32 m (entry_at n i).
Definition ee_len (m : mem) (n i : Z) : Z := load16 m (entry_at n i + 4).
Definition ee_start_hi (m : mem) (n i : Z) : Z := load16 m (entry_at n i + 6).
Definition ee_start_lo (m : mem) (n i : Z) : Z := load32 m (entry_at n i + 8).

(** Directory entry fields, read at address [e]. *)
Definition de_inode (m : mem) (e : Z) : Z := load32 m e.
Definition de_rec_len (m : mem) (e : Z) : Z := load16 m (e + 4).
Definition de_name_len (m : mem) (e : Z) : Z := load8 m (e + 6).
Definition de_file_type (m : mem) (e : Z) : Z := load8 m (e + 7).
Definition de_name (e : Z) : Z := e + 8.

(** In-memory filesystem handle [ext4_fs_t]; [fs_addr] is the address
    [kmalloc] gave to the structure. *)
Record ext4_fs : Type := mkFs {
  fs_addr : Z;
  device : option block_device;
  sb : ext4_superblock;
  block_size : Z;
  block_count : Z;
  groups_count : Z;
  inodes_per_group : Z;
  blocks_per_group : Z;
  group_desc_table : Z;
  root_node : Z
}.

Record ext4_inode_info : Type := mkInfo {
  info_addr : Z;
  raw_inode : inode_bytes;
  inode_num : Z;
  info_fs : ext4_fs
}.

(** The fields of [struct vfs_node] the driver sets; the others are
    zeroed by its [memset]. *)
Record vfs_node : Type := mkNode {
  vn_type : Z;
  vn_size : Z;
  vn_inode : Z;
  vn_private : option ext4_inode_info
}.

(** [struct vfs_dirent]: [name] is an array of [VFS_NAME_MAX + 1] bytes,
    kept as a function of the index. *)
Record vfs_dirent : Type := mkDirent {
  d_name : Z -> Z;
  d_inode : Z;
  d_type : Z
}.

(** A C string argument: its bytes, up to the first NUL if the list has
    one. *)
Fixpoint strlen (name : list Z) : Z :=
  match name with
  | [] => 0
  | c :: rest => if c =? 0 then 0 else 1 + strlen rest
  end.

(** [strncmp(s1, s2, n)] of lib/minstd.c with [s1] in the byte store and
    [s2] a string argument; [n] is the remaining count. *)
Fixpoint strncmp (m : mem) (s1 : Z) (s2 : list Z) (n : nat) : Z :=
  match n with
  | O => 0
  | S n' =>
      let c1 := load8 m s1 in
      let c2 := match s2 with [] => 0 | c :: _ => wrap8 c end in
      match n' with
      | O => c1 - c2
      | S _ =>
          if (c1 =? 0) || (c2 =? 0) then c1 - c2
          else if negb (c1 =? c2) then c1 - c2
          else strncmp m (s1 + 1) (tl s2) n'
      end
  end.

(** Outcome of scanning one directory block. *)
Inductive dir_scan (A : Type) : Type :=
| ScanHit (a : A)
| ScanEnd
| ScanUnbounded.
Arguments ScanHit {A} a.
Arguments ScanEnd {A}.
Arguments ScanUnbounded {A}.


(** ** The EXT4 read path, fs/ext4/ext4.c *)

Section Ext4.

Variable kernel_heap : Z.

Definition kmalloc_m (size : Z) : M Z := kmalloc kernel_heap size.
Definition kfree_m (ptr : Z) : M unit := lift (kfree kernel_heap ptr).
Definition kerr_m (fmt : string) (args : list log_arg) : M unit :=
  lift (kerr fmt args).
Definition kprintf_m (fmt : string) (args : list log_arg) : M unit :=
  lift (kprintf fmt args).

Local Open Scope kmonad_scope.

Definition ext4_read_block (fs : ext4_fs) (block_num buffer : Z) : M Z :=
  match device fs with
  | None => ret (-1)
  | Some d =>
      if buffer =? 0 then ret (-1)
      else
        let offset := wrap64 (block_num * block_size fs) in
        device_read d offset (block_size fs) buffer
  end.

(** [ext4_read_inode]: [inode] is the caller's 128-byte record, given by
    its current bytes; the result carries its bytes after the call. *)
Definition ext4_read_inode (fs : ext4_fs) (inode_num : Z) (inode : inode_bytes)
  : M (Z * inode_bytes) :=
  if inode_num <? 1 then ret (-1, inode)
  else if inodes_per_group fs =? 0 then raise DivByZero
  else
    let group := (inode_num - 1) / inodes_per_group fs in
    if groups_count fs <=? group then
      kerr_m "EXT4: Invalid inode number %u (group %u >= groups_count %u)\n"
             [LInt inode_num; LInt group; LInt (groups_count fs)] ;;;
      ret (-1, inode)
    else
      m <- get memory ;;
      let gdesc := group_desc_table fs + SIZEOF_GROUP_DESC * group in
      let inode_table_block := lo_hi (load32 m (gdesc + 8)) (load32 m (gdesc + 40)) in
      let index := (inode_num - 1) mod inodes_per_group fs in
      if block_size fs =? 0 then raise DivByZero
      else
        let inode_block :=
          wrap64 (inode_table_block
                  + wrap32 (index * s_inode_size (sb fs)) / block_size fs) in
        block_buffer <- kmalloc_m (block_size fs) ;;
        if block_buffer =? 0 then
          kerr_m "EXT4: Failed to allocate memory for inode block\n" [] ;;;
          ret (-1, inode)
        else
          result <- ext4_read_block fs inode_block block_buffer ;;
          if result <? 0 then
            kerr_m "EXT4: Failed to read inode block %llu\n" [LInt inode_block] ;;;
            kfree_m block_buffer ;;;
            ret (result, inode)
          else
            let offset := wrap32 (index * s_inode_size (sb fs)) mod block_size fs in
            (* memcpy(inode, block_buffer + offset, s_inode_size) *)
            if SIZEOF_INODE <? s_inode_size (sb fs) then raise BufferOverrun
            else
              m <- get memory ;;
              let inode' := fun i =>
                if (0 <=? i) && (i <? s_inode_size (sb fs))
                then m (block_buffer + offset + i) else inode i in
              kfree_m block_buffer ;;;
              ret (0, inode').

(** The scan of an internal node: the first index [i] that is the last
    entry or whose successor starts after [block_num]. *)
Fixpoint index_scan (n : nat) (m : mem) (node entries block_num i : Z) : Z :=
  match n with
  | O => i
  | S n' =>
      if i <? entries then
        if (i <? entries - 1) && (ei_block m node (i + 1) <=? block_num)
        then index_scan n' m node entries block_num (i + 1)
        else i
      else i
  end.

(** The scan of a leaf: the physical block for the first extent that
    contains [block_num]. *)
Fixpoint leaf_scan (n : nat) (m : mem) (node entries block_num i : Z) : option Z :=
  match n with
  | O => None
  | S n' =>
      if i <? entries then
        let ee_block := ee_block m node i in
        let ee_len := ee_len m node i in
        if (ee_block <=? block_num) && (block_num <? wrap32 (ee_block + ee_len))
        then
          let extent_start := lo_hi (ee_start_lo m node i) (ee_start_hi m node i) in
          Some (wrap64 (extent_start + wrap64 (block_num - ee_block)))
        else leaf_scan n' m node entries block_num (i + 1)
      else None
  end.

(** The [while (depth > 0)] loop followed by the leaf scan. *)
Fixpoint extent_descend (depth : nat) (fs : ext4_fs) (extent_buffer block_num : Z)
  : M (Z * option Z) :=
  match depth with
  | S depth' =>
      m <- get memory ;;
      let entries := eh_entries m extent_buffer in
      let i := index_scan (Z.to_nat entries) m extent_buffer entries block_num 0 in
      if entries <=? i then
        kerr_m "EXT4: Block number %llu not found in extent tree\n" [LInt block_num] ;;;
        kfree_m extent_buffer ;;;
        ret (-1, None)
      else
        let node_block :=
          lo_hi (ei_leaf_lo m extent_buffer i) (ei_leaf_hi m extent_buffer i) in
        result <- ext4_read_block fs node_block extent_buffer ;;
        if result <? 0 then
          kerr_m "EXT4: Failed to read extent node block %llu\n" [LInt node_block] ;;;
          kfree_m extent_buffer ;;;
          ret (result, None)
        else
          m <- get memory ;;
          if negb (eh_magic m extent_buffer =? EXT4_EXTENT_HEADER_MAGIC) then
            kerr_m "EXT4: Invalid extent header magic in node: 0x%x\n"
                   [LInt (eh_magic m extent_buffer)] ;;;
            kfree_m extent_buffer ;;;
            ret (-1, None)
          else extent_descend depth' fs extent_buffer block_num
  | O =>
      m <- get memory ;;
      let entries := eh_entries m extent_buffer in
      match leaf_scan (Z.to_nat entries) m extent_buffer entries block_num 0 with
      | Some phys =>
          kfree_m extent_buffer ;;;
          ret (0, Some phys)
      | None =>
          kerr_m "EXT4: Block number %llu not found in extent leaf\n" [LInt block_num] ;;;
          kfree_m extent_buffer ;;;
          ret (-1, None)
      end
  end.

(** [ext4_read_extent_block]: the result pairs the return code with the
    value stored through [phys_block], if any. *)
Definition ext4_read_extent_block (fs : ext4_fs) (inode : inode_bytes) (block_num : Z)
  : M (Z * option Z) :=
  if Z.land (s_feature_incompat (sb fs)) EXT4_FEATURE_INCOMPAT_EXTENTS =? 0 then
    kerr_m "EXT4: This filesystem doesn't use extents\n" [] ;;;
    ret (-1, None)
  else if Z.land (i_flags inode) EXT4_EXTENTS_FL =? 0 then
    kerr_m "EXT4: Inode is not using extents\n" [] ;;;
    ret (-1, None)
  else
    (* the extent node overlaid on inode->i_block *)
    let node := fun i => inode (I_BLOCK_OFFSET + i) in
    if negb (eh_magic node 0 =? EXT4_EXTENT_HEADER_MAGIC) then
      kerr_m "EXT4: Invalid extent header magic: 0x%x\n" [LInt (eh_magic node 0)] ;;;
      ret (-1, None)
    else
      extent_buffer <- kmalloc_m (block_size fs) ;;
      if extent_buffer =? 0 then
        kerr_m "EXT4: Failed to allocate memory for extent buffer\n" [] ;;;
        ret (-1, None)
      else
        (* memcpy(extent_buffer, node, sizeof(ext4_extent_node_t)) *)
        m <- get memory ;;
        lift (fun s => set_memory s
                (mem_write m extent_buffer SIZEOF_EXTENT_NODE node)) ;;;
        m <- get memory ;;
        let depth := eh_depth m extent_buffer in
        extent_descend (Z.to_nat depth) fs extent_buffer block_num.

Definition ext4_read_file_block (fs : ext4_fs) (inode : inode_bytes)
  (block_num buffer : Z) : M Z :=
  let file_size := i_size inode in
  if block_size fs =? 0 then raise DivByZero
  else
    let max_block := wrap64 (file_size + block_size fs - 1) / block_size fs in
    if max_block <=? block_num then
      lift (memset buffer 0 (block_size fs)) ;;;
      ret 0
    else if negb (Z.land (s_feature_incompat (sb fs)) EXT4_FEATURE_INCOMPAT_EXTENTS =? 0)
    then
      r <- ext4_read_extent_block fs inode block_num ;;
      match r with
      | (result, Some phys_block) =>
          if result <? 0 then ret result
          else ext4_read_block fs phys_block buffer
      | (result, None) =>
          if result <? 0 then ret result
          else ext4_read_block fs 0 buffer
      end
    else
      kerr_m "EXT4: Traditional indirect block addressing not implemented\n" [] ;;;
      ret (-1).

(** The block loop of [ext4_read_file_data]; [n] counts the iterations
    left, [i] is the loop index. *)
Fixpoint read_file_data_loop (n : nat) (fs : ext4_fs) (inode : inode_bytes)
  (start_block start_offset size dest block_buffer i bytes_read : Z) : M Z :=
  match n with
  | O =>
      kfree_m block_buffer ;;;
      ret (to_int bytes_read)
  | S n' =>
      let current_block := wrap64 (start_block + i) in
      result <- ext4_read_file_block fs inode current_block block_buffer ;;
      if result <? 0 then
        kerr_m "EXT4: Failed to read file block %llu\n" [LInt current_block] ;;;
        kfree_m block_buffer ;;;
        ret result
      else
        let block_offset := if i =? 0 then start_offset else 0 in
        let bytes_to_copy := wrap32 (block_size fs - block_offset) in
        let bytes_to_copy :=
          if size <? wrap64 (bytes_read + bytes_to_copy)
          then wrap32 (size - bytes_read) else bytes_to_copy in
        lift (memcpy (wrap64 (dest + bytes_read))
                     (wrap64 (block_buffer + block_offset)) bytes_to_copy) ;;;
        let bytes_read := wrap64 (bytes_read + bytes_to_copy) in
        if size <=? bytes_read then
          kfree_m block_buffer ;;;
          ret (to_int bytes_read)
        else
          read_file_data_loop n' fs inode start_block start_offset size dest
                              block_buffer (i + 1) bytes_read
  end.

Definition ext4_read_file_data (fs : ext4_fs) (inode : inode_bytes)
  (offset size buffer : Z) : M Z :=
  if buffer =? 0 then ret (-1)
  else
    let file_size := i_size inode in
    if file_size <=? offset then ret 0
    else
      let size := if file_size <? wrap64 (offset + size)
                  then wrap64 (file_size - offset) else size in
      block_buffer <- kmalloc_m (block_size fs) ;;
      if block_buffer =? 0 then
        kerr_m "EXT4: Failed to allocate memory for block buffer\n" [] ;;;
        ret (-1)
      else if block_size fs =? 0 then raise DivByZero
      else
        let start_block := offset / block_size fs in
        let start_offset := wrap32 (offset mod block_size fs) in
        let end_pos := wrap64 (offset + size) in
        let end_block := wrap64 (end_pos - 1) / block_size fs in
        let num_blocks := wrap64 (end_block - start_block + 1) in
        read_file_data_loop (Z.to_nat num_blocks) fs inode start_block
                            start_offset size buffer block_buffer 0 0.

Definition node_type_of_mode (mode : Z) : Z :=
  if S_ISTYPE S_IFDIR mode then VFS_DIRECTORY
  else if S_ISTYPE S_IFREG mode then VFS_FILE
  else if S_ISTYPE S_IFLNK mode then VFS_SYMLINK
  else if S_ISTYPE S_IFCHR mode then VFS_CHARDEVICE
  else if S_ISTYPE S_IFBLK mode then VFS_BLOCKDEVICE
  else if S_ISTYPE S_IFIFO mode then VFS_PIPE
  else if S_ISTYPE S_IFSOCK mode then VFS_SOCKET
  else VFS_FILE.

(** [ext4_create_vfs_node]: [inode0] stands for the indeterminate initial
    bytes of the local [inode]; the node is returned when it was filled. *)
Definition ext4_create_vfs_node (fs : ext4_fs) (inode_num : Z) (inode0 : inode_bytes)
  : M (Z * option vfs_node) :=
  r <- ext4_read_inode fs inode_num inode0 ;;
  let '(result, inode) := r in
  if result <? 0 then ret (result, None)
  else
    info <- kmalloc_m SIZEOF_INODE_INFO ;;
    if info =? 0 then ret (-1, None)
    else
      ret (0, Some (mkNode (node_type_of_mode (i_mode inode))
                           (i_size inode) inode_num
                           (Some (mkInfo info inode inode_num fs)))).

(** The loop reading the group descriptor table, block by block. *)
Fixpoint read_gdesc_blocks (n : nat) (fs : ext4_fs) (gdesc_start_block i : Z)
  : M Z :=
  match n with
  | O => ret 0
  | S n' =>
      result <- ext4_read_block fs (wrap64 (gdesc_start_block + i))
                  (group_desc_table fs + wrap32 (i * block_size fs)) ;;
      if result <? 0 then
        kerr_m "EXT4: Failed to read group descriptor block %u\n"
               [LInt (wrap64 (gdesc_start_block + i))] ;;;
        ret result
      else read_gdesc_blocks n' fs gdesc_start_block (i + 1)
  end.

Definition with_geometry (fs : ext4_fs) (bs bc gc : Z) : ext4_fs :=
  mkFs (fs_addr fs) (device fs) (sb fs) bs bc gc
       (s_inodes_per_group (sb fs)) (s_blocks_per_group (sb fs))
       (group_desc_table fs) (root_node fs).
Definition with_group_desc_table (fs : ext4_fs) (p : Z) : ext4_fs :=
  mkFs (fs_addr fs) (device fs) (sb fs) (block_size fs) (block_count fs)
       (groups_count fs) (inodes_per_group fs) (blocks_per_group fs) p
       (root_node fs).
Definition with_root_node (fs : ext4_fs) (p : Z) : ext4_fs :=
  mkFs (fs_addr fs) (device fs) (sb fs) (block_size fs) (block_count fs)
       (groups_count fs) (inodes_per_group fs) (blocks_per_group fs)
       (group_desc_table fs) p.

(** Result of [ext4_mount]: the return code, the pointer stored through
    [root_node] (if the call got that far) and the node it describes. *)
Definition mount_result : Type := (Z * option Z * option vfs_node)%type.

(** [ext4_mount] from "Verify the superblock magic" on: [fs] is the
    zeroed handle with [device] set and the superblock copied in. *)
Definition ext4_mount_geometry (fs : ext4_fs) (inode0 : inode_bytes)
  : M mount_result :=
  if negb (s_magic (sb fs) =? EXT4_SUPER_MAGIC) then
    kerr_m "EXT4: Invalid superblock magic: 0x%x\n" [LInt (s_magic (sb fs))] ;;;
    kfree_m (fs_addr fs) ;;;
    ret (-1, None, None)
  else if 20 <? s_log_block_size (sb fs) then raise UndefinedShift
  else
    let bs := 1024 * 2 ^ s_log_block_size (sb fs) in
    let bc := lo_hi (s_blocks_count_lo (sb fs)) (s_blocks_count_hi (sb fs)) in
    if s_blocks_per_group (sb fs) =? 0 then raise DivByZero
    else
      let gc := wrap32 (wrap64 (bc + s_blocks_per_group (sb fs) - 1)
                        / s_blocks_per_group (sb fs)) in
      let fs := with_geometry fs bs bc gc in
      kprintf_m "EXT4: Filesystem info:\n" [] ;;;
      kprintf_m "      Block size: %u bytes\n" [LInt (block_size fs)] ;;;
      kprintf_m "      Block count: %llu\n" [LInt (block_count fs)] ;;;
      kprintf_m "      Inodes per group: %u\n" [LInt (inodes_per_group fs)] ;;;
      kprintf_m "      Block groups: %u\n" [LInt (groups_count fs)] ;;;
      let gdesc_size := if s_desc_size (sb fs) =? 0 then 32 else s_desc_size (sb fs) in
      let gdesc_table_size := wrap32 (groups_count fs * gdesc_size) in
      let gdesc_blocks :=
        wrap32 (gdesc_table_size + block_size fs - 1) / block_size fs in
      gdt <- kmalloc_m (wrap32 (gdesc_blocks * block_size fs)) ;;
      if gdt =? 0 then
        kerr_m "EXT4: Failed to allocate memory for group descriptor table\n" [] ;;;
        kfree_m (fs_addr fs) ;;;
        ret (-1, None, None)
      else
        let fs := with_group_desc_table fs gdt in
        let gdesc_start_block := wrap32 (s_first_data_block (sb fs) + 1) in
        result <- read_gdesc_blocks (Z.to_nat gdesc_blocks) fs gdesc_start_block 0 ;;
        if result <? 0 then
          kfree_m (group_desc_table fs) ;;;
          kfree_m (fs_addr fs) ;;;
          ret (result, None, None)
        else
          root <- kmalloc_m SIZEOF_VFS_NODE ;;
          if root =? 0 then
            kerr_m "EXT4: Failed to allocate memory for root node\n" [] ;;;
            kfree_m (group_desc_table fs) ;;;
            kfree_m (fs_addr fs) ;;;
            ret (-1, Some root, None)
          else
            r <- ext4_create_vfs_node fs EXT4_ROOT_INO inode0 ;;
            match r with
            | (result, Some (mkNode ty sz ino (Some info))) =>
                if result <? 0 then
                  kerr_m "EXT4: Failed to create root node\n" [] ;;;
                  kfree_m root ;;;
                  kfree_m (group_desc_table fs) ;;;
                  kfree_m (fs_addr fs) ;;;
                  ret (result, Some root, None)
                else
                  let fs := with_root_node fs root in
                  kprintf_m "EXT4: Filesystem mounted successfully\n" [] ;;;
                  ret (0, Some root,
                       Some (mkNode ty sz ino
                               (Some (mkInfo (info_addr info) (raw_inode info)
                                             (inode_num info) fs))))
            | (result, node) =>
                if result <? 0 then
                  kerr_m "EXT4: Failed to create root node\n" [] ;;;
                  kfree_m root ;;;
                  kfree_m (group_desc_table fs) ;;;
                  kfree_m (fs_addr fs) ;;;
                  ret (result, Some root, None)
                else
                  kprintf_m "EXT4: Filesystem mounted successfully\n" [] ;;;
                  ret (0, Some root, node)
            end.

(** [ext4_mount]; [root_node] is the address of the caller's result
    pointer. *)
Definition ext4_mount (dev : option block_device) (root_node : Z)
  (inode0 : inode_bytes) : M mount_result :=
  match dev with
  | None => ret (-1, None, None)
  | Some d =>
      if root_node =? 0 then ret (-1, None, None)
      else
        kprintf_m "EXT4: Mounting filesystem on device %s\n" [LStr (dev_name d)] ;;;
        fs <- kmalloc_m SIZEOF_FS ;;
        if fs =? 0 then
          kerr_m "EXT4: Failed to allocate memory for filesystem\n" [] ;;;
          ret (-1, None, None)
        else
          lift (memset fs 0 SIZEOF_FS) ;;;
          sb_buffer <- kmalloc_m SIZEOF_SUPERBLOCK ;;
          if sb_buffer =? 0 then
            kerr_m "EXT4: Failed to allocate memory for superblock\n" [] ;;;
            kfree_m fs ;;;
            ret (-1, None, None)
          else
            result <- device_read d EXT4_SUPERBLOCK_OFFSET SIZEOF_SUPERBLOCK sb_buffer ;;
            if result <? 0 then
              kerr_m "EXT4: Failed to read superblock\n" [] ;;;
              kfree_m sb_buffer ;;;
              kfree_m fs ;;;
              ret (result, None, None)
            else
              m <- get memory ;;
              let sb := read_superblock m sb_buffer in
              kfree_m sb_buffer ;;;
              ext4_mount_geometry (mkFs fs (Some d) sb 0 0 0 0 0 0 0) inode0
  end.

Definition name_matches (m : mem) (entry : Z) (name : list Z) : bool :=
  (de_name_len m entry =? strlen name)
  && (strncmp m (de_name entry) name (Z.to_nat (de_name_len m entry)) =? 0).

(** The [while (offset < fs->block_size)] loop of [ext4_find_dir_entry]. *)
Fixpoint find_in_block (fuel : nat) (m : mem) (dir_buffer bs : Z)
  (name : list Z) (offset : Z) : dir_scan Z :=
  match fuel with
  | O => ScanUnbounded
  | S fuel' =>
      if offset <? bs then
        let entry := dir_buffer + offset in
        if de_rec_len m entry =? 0 then ScanEnd
        else if negb (de_inode m entry =? 0) && name_matches m entry name
        then ScanHit (de_inode m entry)
        else find_in_block fuel' m dir_buffer bs name
               (wrap32 (offset + de_rec_len m entry))
      else ScanEnd
  end.

Fixpoint find_dir_blocks (n : nat) (fs : ext4_fs) (dir_inode : inode_bytes)
  (name : list Z) (dir_buffer block_idx : Z) : M (Z * option Z) :=
  match n with
  | O =>
      kfree_m dir_buffer ;;;
      ret (-1, None)
  | S n' =>
      result <- ext4_read_file_block fs dir_inode block_idx dir_buffer ;;
      if result <? 0 then
        kerr_m "EXT4: Failed to read directory block %llu\n" [LInt block_idx] ;;;
        kfree_m dir_buffer ;;;
        ret (result, None)
      else
        m <- get memory ;;
        match find_in_block (S (Z.to_nat (block_size fs))) m dir_buffer
                (block_size fs) name 0 with
        | ScanHit ino =>
            kfree_m dir_buffer ;;;
            ret (0, Some ino)
        | ScanEnd =>
            find_dir_blocks n' fs dir_inode name dir_buffer (block_idx + 1)
        | ScanUnbounded => raise LoopBound
        end
  end.

(** [ext4_find_dir_entry]: the return code and the inode number stored
    through [inode_num], if any. *)
Definition ext4_find_dir_entry (fs : ext4_fs) (dir_inode : inode_bytes)
  (name : list Z) : M (Z * option Z) :=
  dir_buffer <- kmalloc_m (block_size fs) ;;
  if dir_buffer =? 0 then
    kerr_m "EXT4: Failed to allocate memory for directory buffer\n" [] ;;;
    ret (-1, None)
  else if block_size fs =? 0 then raise DivByZero
  else
    let dir_size := i_size dir_inode in
    let num_blocks := wrap64 (dir_size + block_size fs - 1) / block_size fs in
    find_dir_blocks (Z.to_nat num_blocks) fs dir_inode name dir_buffer 0.

Definition dirent_type_of (file_type : Z) : Z :=
  if file_type =? EXT4_FT_REG_FILE then VFS_FILE
  else if file_type =? EXT4_FT_DIR then VFS_DIRECTORY
  else if file_type =? EXT4_FT_SYMLINK then VFS_SYMLINK
  else if file_type =? EXT4_FT_CHRDEV then VFS_CHARDEVICE
  else if file_type =? EXT4_FT_BLKDEV then VFS_BLOCKDEVICE
  else if file_type =? EXT4_FT_FIFO then VFS_PIPE
  else if file_type =? EXT4_FT_SOCK then VFS_SOCKET
  else VFS_FILE.

(** Stores into [dirent->name]; [None] when the index lies outside the
    array of [VFS_NAME_MAX + 1] bytes. *)
Definition name_copy (name : Z -> Z) (m : mem) (src n : Z) : option (Z -> Z) :=
  if VFS_NAME_MAX + 1 <? n then None
  else Some (fun i => if (0 <=? i) && (i <? n) then load8 m (src + i) else name i).

Definition name_set (name : Z -> Z) (i v : Z) : option (Z -> Z) :=
  if (0 <=? i) && (i <? VFS_NAME_MAX + 1)
  then Some (fun j => if j =? i then wrap8 v else name j)
  else None.

(** The body of [ext4_readdir] that copies the entry at [entry] into the
    caller's dirent. *)
Definition fill_dirent (m : mem) (entry : Z) (dirent : vfs_dirent)
  : option vfs_dirent :=
  let name_len := de_name_len m entry in
  let name_len := if VFS_NAME_MAX <? name_len then VFS_NAME_MAX else name_len in
  match name_copy (d_name dirent) m (de_name entry) name_len with
  | None => None
  | Some name =>
      match name_set name name_len 0 with
      | None => None
      | Some name =>
          Some (mkDirent name (de_inode m entry)
                         (dirent_type_of (de_file_type m entry)))
      end
  end.

(** The entry scan of [ext4_readdir] in one block: the address of the
    entry whose running index equals [index], or the running index
    reached at the end of the block. *)
Fixpoint readdir_in_block (fuel : nat) (m : mem) (dir_buffer bs index : Z)
  (offset entry_idx : Z) : dir_scan Z * Z :=
  match fuel with
  | O => (ScanUnbounded, entry_idx)
  | S fuel' =>
      if offset <? bs then
        let entry := dir_buffer + offset in
        if de_rec_len m entry =? 0 then (ScanEnd, entry_idx)
        else if negb (de_inode m entry =? 0) then
          if entry_idx =? index then (ScanHit entry, entry_idx)
          else readdir_in_block fuel' m dir_buffer bs index
                 (wrap32 (offset + de_rec_len m entry)) (wrap32 (entry_idx + 1))
        else readdir_in_block fuel' m dir_buffer bs index
               (wrap32 (offset + de_rec_len m entry)) entry_idx
      else (ScanEnd, entry_idx)
  end.

Fixpoint readdir_blocks (n : nat) (fs : ext4_fs) (dir_inode : inode_bytes)
  (index : Z) (dirent : vfs_dirent) (dir_buffer block_idx entry_idx : Z)
  : M (Z * vfs_dirent) :=
  match n with
  | O =>
      kfree_m dir_buffer ;;;
      ret (-1, dirent)
  | S n' =>
      result <- ext4_read_file_block fs dir_inode block_idx dir_buffer ;;
      if result <? 0 then
        kerr_m "EXT4: Failed to read directory block %llu\n" [LInt block_idx] ;;;
        kfree_m dir_buffer ;;;
        ret (result, dirent)
      else
        m <- get memory ;;
        match readdir_in_block (S (Z.to_nat (block_size fs))) m dir_buffer
                (block_size fs) index 0 entry_idx with
        | (ScanHit entry, _) =>
            match fill_dirent m entry dirent with
            | None => raise BufferOverrun
            | Some dirent' =>
                kfree_m dir_buffer ;;;
                ret (0, dirent')
            end
        | (ScanEnd, entry_idx') =>
            readdir_blocks n' fs dir_inode index dirent dir_buffer
                           (block_idx + 1) entry_idx'
        | (ScanUnbounded, _) => raise LoopBound
        end
  end.

(** [ext4_readdir]: the return code and the caller's dirent after the
    call. *)
Definition ext4_readdir (node : vfs_node) (index : Z) (dirent : vfs_dirent)
  : M (Z * vfs_dirent) :=
  match vn_private node with
  | None => ret (-1, dirent)
  | Some info =>
      if negb (vn_type node =? VFS_DIRECTORY) then ret (-1, dirent)
      else
        let fs := info_fs info in
        let dir_inode := raw_inode info in
        dir_buffer <- kmalloc_m (block_size fs) ;;
        if dir_buffer =? 0 then
          kerr_m "EXT4: Failed to allocate memory for directory buffer\n" [] ;;;
          ret (-1, dirent)
        else if block_size fs =? 0 then raise DivByZero
        else
          let dir_size := i_size dir_inode in
          let num_blocks := wrap64 (dir_size + block_size fs - 1) / block_size fs in
          readdir_blocks (Z.to_nat num_blocks) fs dir_inode index dirent
                         dir_buffer 0 0
  end.

End Ext4.

(** ** Shape of the arena

    [blocks m a e l]: walking from address [a] by the size field of each
    header visits exactly the headers [l], every one with a valid magic
    and room for its own header, and arrives at [e]. *)

Inductive blocks (m : mem) : Z -> Z -> list Z -> Prop :=
| blocks_nil a : blocks m a a []
| blocks_cons a e l :
    hdr_magic m a = ALLOC_MAGIC ->
    HEADER_SIZE <= hdr_size m a ->
    a + hdr_size m a <= e ->
    blocks m (a + hdr_size m a) e l ->
    blocks m a e (a :: l).

(** The sum of the size fields of the headers [l]. *)
Definition total_size (m : mem) (l : list Z) : Z :=
  fold_right (fun h acc => hdr_size m h + acc) 0 l.

(** The arena is a gapless sequence of blocks from [kernel_heap] to its
    end. *)
Definition arena (kernel_heap : Z) (m : mem) (l : list Z) : Prop :=
  blocks m kernel_heap (heap_end kernel_heap) l.

Definition heap_wf (kernel_heap : Z) (s : kstate) : Prop :=
  heap_initialized s = true /\ 0 <= heap_used s < 2 ^ 64
  /\ exists l, arena kernel_heap (memory s) l.

(** A live allocation: its header is one of the arena's blocks and is
    marked used. *)
Definition live (m : mem) (l : list Z) (ptr : Z) : Prop :=
  In (ptr - HEADER_SIZE) l /\ hdr_used m (ptr - HEADER_SIZE) = true.

(** Payload capacity of the allocation at [ptr]. *)
Definition capacity (m : mem) (ptr : Z) : Z :=
  hdr_size m (ptr - HEADER_SIZE) - HEADER_SIZE.

(** The address the block walk reaches after the block at [a]. *)
Definition walk_next (m : mem) (a : Z) : Z := wrap64 (a + hdr_size m a).

(** Some single free block of the arena covers the address range
    [lo, hi). *)
Definition one_free_block_spans (kernel_heap : Z) (m : mem) (lo hi : Z) : Prop :=
  exists l h, arena kernel_heap m l /\ In h l /\ hdr_used m h = false
              /\ h <= lo /\ hi <= h + hdr_size m h.

(** The block size [kmalloc] searches for: the request rounded up to a
    multiple of 16, plus the header (both computed in [size_t]). *)
Definition request_total (size : Z) : Z :=
  wrap64 (Z.land (wrap64 (size + 15)) (Z.lnot 15) + HEADER_SIZE).

(** Every byte of the block at [h] (header and payload) is the same in
    [m'] as in [m]. *)
Definition block_bytes_same (m m' : mem) (h : Z) : Prop :=
  forall x, h <= x < h + hdr_size m h -> m' x = m x.

(** Executable check of [blocks]. *)
Fixpoint blocksb (m : mem) (a e : Z) (l : list Z) : bool :=
  match l with
  | [] => a =? e
  | h :: l' =>
      (h =? a) && (hdr_magic m a =? ALLOC_MAGIC)
      && (HEADER_SIZE <=? hdr_size m a) && (a + hdr_size m a <=? e)
      && blocksb m (a + hdr_size m a) e l'
  end.

(** A base address for the arena used in the worked examples. *)
Definition demo_heap : Z := 0x200000.

(** State reached from boot by the given successive [kmalloc] requests
    (the trapped case does not arise in the examples). *)
Fixpoint after_allocs (kernel_heap : Z) (sizes : list Z) (s : kstate) : kstate :=
  match sizes with
  | [] => s
  | n :: rest =>
      match kmalloc kernel_heap n s with
      | Done _ s' => after_allocs kernel_heap rest s'
      | Trap _ => s
      end
  end.

(** Replacing the incompatible-feature mask of a handle, and of the
    handle a mounted node refers to. *)
Definition retag_fs (v : Z) (fs : ext4_fs) : ext4_fs :=
  mkFs (fs_addr fs) (device fs) (set_feature_incompat (sb fs) v)
       (block_size fs) (block_count fs) (groups_count fs)
       (inodes_per_group fs) (blocks_per_group fs) (group_desc_table fs)
       (root_node fs).

Definition retag_node (v : Z) (n : vfs_node) : vfs_node :=
  mkNode (vn_type n) (vn_size n) (vn_inode n)
         (option_map (fun i => mkInfo (info_addr i) (raw_inode i) (inode_num i)
                                      (retag_fs v (info_fs i)))
                     (vn_private n)).

Definition retag_mount (v : Z) (r : mount_result) : mount_result :=
  match r with
  | (rc, p, n) => (rc, p, option_map (retag_node v) n)
  end.

Definition exec_map {A B} (f : A -> B) (e : exec A) : exec B :=
  match e with
  | Done a s => Done (f a) s
  | Trap t => Trap t
  end.

Definition has_extents (fs : ext4_fs) : bool :=
  negb (Z.land (s_feature_incompat (sb fs)) EXT4_FEATURE_INCOMPAT_EXTENTS =? 0).

(** An outcome that is not a write past the end of an array. *)
Definition no_overrun {A} (e : exec A) : Prop :=
  match e with
  | Trap BufferOverrun => False
  | _ => True
  end.

(** What a successful [ext4_readdir] leaves in the caller's dirent
    [d'], relative to the entry at [entry] of the byte store [m] and to
    the dirent [d] passed in: at most [VFS_NAME_MAX] name bytes, then a
    NUL, and nothing stored at any index after the NUL. *)
Definition dirent_holds (m : mem) (entry : Z) (d d' : vfs_dirent) : Prop :=
  let n := de_name_len m entry in
  0 <= n <= VFS_NAME_MAX
  /\ d_name d' n = 0
  /\ (forall i, 0 <= i < n -> d_name d' i = load8 m (de_name entry + i))
  /\ (forall i, i < 0 \/ n < i -> d_name d' i = d_name d i)
  /\ d_inode d' = de_inode m entry
  /\ d_inode d' <> 0.

(** ** Directory blocks as lists of records

    The reading of a directory block the specification speaks of: the
    packed records in order, up to the end of the block or a record of
    length zero. *)

Record dir_record : Type := mkRec {
  rec_inode : Z;
  rec_length : Z;
  rec_name : list Z
}.

Fixpoint name_bytes (m : mem) (p : Z) (n : nat) : list Z :=
  match n with
  | O => []
  | S k => load8 m p :: name_bytes m (p + 1) k
  end.

Fixpoint parse_dir_block (fuel : nat) (m : mem) (dir_buffer bs offset : Z)
  : list dir_record :=
  match fuel with
  | O => []
  | S fuel' =>
      if offset <? bs then
        let entry := dir_buffer + offset in
        if de_rec_len m entry =? 0 then []
        else
          mkRec (de_inode m entry) (de_rec_len m entry)
                (name_bytes m (de_name entry) (Z.to_nat (de_name_len m entry)))
          :: parse_dir_block fuel' m dir_buffer bs
               (wrap32 (offset + de_rec_len m entry))
      else []
  end.

Fixpoint bytes_eqb (a b : list Z) : bool :=
  match a, b with
  | [], [] => true
  | x :: a', y :: b' => (x =? y) && bytes_eqb a' b'
  | _, _ => false
  end.

(** A record answers the lookup of [name] when its inode number is not 0
    and its name has the same length and the same bytes. *)
Definition record_matches (name : list Z) (r : dir_record) : bool :=
  negb (rec_inode r =? 0) && bytes_eqb (rec_name r) name.

(** The inode number of the first matching record. *)
Definition lookup_record (name : list Z) (recs : list dir_record) : option Z :=
  option_map rec_inode (find (record_matches name) recs).

(** The bytes of a C string: none is NUL, each fits a byte. *)
Definition c_string (name : list Z) : Prop :=
  Forall (fun c => 0 < c < 256) name.

(** The directory lookup as the specification words it: the blocks of
    the directory are read in order through [ext4_read_file_block]; in
    each the packed records are listed up to the first zero record
    length, and the first record with a non-zero inode number and exactly
    the requested name decides; no block with such a record is the
    not-found error. *)
Fixpoint spec_find_dir_blocks (kernel_heap : Z) (n : nat) (fs : ext4_fs)
  (dir_inode : inode_bytes) (name : list Z) (dir_buffer block_idx : Z)
  : M (Z * option Z) :=
  match n with
  | O =>
      (kfree_m kernel_heap dir_buffer ;;;
       ret (-1, None))%kmonad
  | S n' =>
      (result <- ext4_read_file_block kernel_heap fs dir_inode block_idx dir_buffer ;;
       if result <? 0 then
         kerr_m "EXT4: Failed to read directory block %llu\n" [LInt block_idx] ;;;
         kfree_m kernel_heap dir_buffer ;;;
         ret (result, None)
       else
         m <- get memory ;;
         match lookup_record name
                 (parse_dir_block (S (Z.to_nat (block_size fs))) m dir_buffer
                    (block_size fs) 0) with
         | Some ino =>
             kfree_m kernel_heap dir_buffer ;;;
             ret (0, Some ino)
         | None =>
             spec_find_dir_blocks kernel_heap n' fs dir_inode name dir_buffer
                                  (block_idx + 1)
         end)%kmonad
  end.

Definition spec_find_dir_entry (kernel_heap : Z) (fs : ext4_fs)
  (dir_inode : inode_bytes) (name : list Z) : M (Z * option Z) :=
  (dir_buffer <- kmalloc_m kernel_heap (block_size fs) ;;
   if dir_buffer =? 0 then
     kerr_m "EXT4: Failed to allocate memory for directory buffer\n" [] ;;;
     ret (-1, None)
   else if block_size fs =? 0 then raise DivByZero
   else
     let num_blocks :=
       wrap64 (i_size dir_inode + block_size fs - 1) / block_size fs in
     spec_find_dir_blocks kernel_heap (Z.to_nat num_blocks) fs dir_inode name
                          dir_buffer 0)%kmonad.

(** ** Allocations held on top of a baseline state *)

(** The block with header [h] is part of the arena and in use. *)
Definition allocated (kernel_heap : Z) (m : mem) (h : Z) : Prop :=
  exists l, arena kernel_heap m l /\ In h l /\ hdr_used m h = true.

Definition sum_sizes (held : list (Z * Z)) : Z :=
  fold_right (fun hs acc => snd hs + acc) 0 held.

(** [holding kernel_heap s0 s held]: [s] has a well-shaped heap whose
    used blocks are those of the baseline [s0], byte for byte, plus the
    blocks [held] (header address and size), and whose used-byte counter
    is that of [s0] plus the held sizes. *)
Definition holding (kernel_heap : Z) (s0 s : kstate) (held : list (Z * Z)) : Prop :=
  heap_wf kernel_heap s
  /\ (forall h, allocated kernel_heap (memory s) h <->
                allocated kernel_heap (memory s0) h \/ In h (map fst held))
  /\ (forall h, allocated kernel_heap (memory s0) h ->
                block_bytes_same (memory s0) (memory s) h)
  /\ (forall h sz, In (h, sz) held ->
                   hdr_size (memory s) h = sz
                   /\ ~ allocated kernel_heap (memory s0) h)
  /\ NoDup (map fst held)
  /\ heap_used s = wrap64 (heap_used s0 + sum_sizes held).

(** Nothing is held: the heap is as in the baseline. *)
Definition heap_same (kernel_heap : Z) (s0 s : kstate) : Prop :=
  holding kernel_heap s0 s [].

(** A state that differs only in the log or the device trace. *)
Definition same_heap (s s' : kstate) : Prop :=
  memory s' = memory s /\ heap_initialized s' = heap_initialized s
  /\ heap_used s' = heap_used s.

(** [wp c Q s]: run from [s], the computation [c] either returns a value
    and a state that satisfy [Q], or stops on one of the undefined
    operations of the C program; it does not run out of the bound on the
    heap walk. *)
Definition wp {A} (c : M A) (Q : A -> kstate -> Prop) (s : kstate) : Prop :=
  match c s with
  | Done a s' => Q a s'
  | Trap t => t <> LoopBound
  end.

(** What a failed mount leaves behind: nothing. *)
Definition mount_post (kernel_heap : Z) (s0 : kstate) (r : mount_result)
  (s' : kstate) : Prop :=
  fst (fst r) < 0 -> heap_same kernel_heap s0 s'.

(** The magic number a device presents in its superblock, if it answers
    the superblock read with data. *)
Definition device_magic (d : block_device) : option Z :=
  match reply_data (dev_read d EXT4_SUPERBLOCK_OFFSET SIZEOF_SUPERBLOCK) with
  | Some data => Some (load16 data 56)
  | None => None
  end.

(** ** The directory listing as the specification words it *)

(** The addresses of the packed entries of the directory block held at
    [dir_buffer], in order, up to the end of the block or an entry of
    record length zero. *)
Fixpoint block_entries (fuel : nat) (m : mem) (dir_buffer bs offset : Z)
  : list Z :=
  match fuel with
  | O => []
  | S fuel' =>
      if offset <? bs then
        let entry := dir_buffer + offset in
        if de_rec_len m entry =? 0 then []
        else entry :: block_entries fuel' m dir_buffer bs
                        (wrap32 (offset + de_rec_len m entry))
      else []
  end.

(** An entry is valid when its inode number is not 0. *)
Definition valid_entry (m : mem) (entry : Z) : bool :=
  negb (de_inode m entry =? 0).

(** The entry a listing at [index] locates: the directory blocks are
    read in order through [ext4_read_file_block]; [seen] valid entries
    lie in the blocks before [block_idx]; the entry located is the valid
    entry number [index], counted from 0 over all blocks.  The answer is
    code 0 with the bytes of the block read and the address of the entry
    in it, or a negative code. *)
Fixpoint spec_readdir_blocks (kernel_heap : Z) (n : nat) (fs : ext4_fs)
  (dir_inode : inode_bytes) (index dir_buffer block_idx seen : Z)
  : M (Z * option (mem * Z)) :=
  match n with
  | O =>
      (kfree_m kernel_heap dir_buffer ;;;
       ret (-1, None))%kmonad
  | S n' =>
      (result <- ext4_read_file_block kernel_heap fs dir_inode block_idx dir_buffer ;;
       if result <? 0 then
         kerr_m "EXT4: Failed to read directory block %llu\n" [LInt block_idx] ;;;
         kfree_m kernel_heap dir_buffer ;;;
         ret (result, None)
       else
         m <- get memory ;;
         let valid :=
           filter (valid_entry m)
                  (block_entries (S (Z.to_nat (block_size fs))) m dir_buffer
                                 (block_size fs) 0) in
         match nth_error valid (Z.to_nat (index - seen)) with
         | Some entry =>
             kfree_m kernel_heap dir_buffer ;;;
             ret (0, Some (m, entry))
         | None =>
             spec_readdir_blocks kernel_heap n' fs dir_inode index dir_buffer
                                 (block_idx + 1) (seen + Z.of_nat (length valid))
         end)%kmonad
  end.

Definition spec_readdir (kernel_heap : Z) (node : vfs_node) (index : Z)
  : M (Z * option (mem * Z)) :=
  match vn_private node with
  | None => ret (-1, None)
  | Some info =>
      if negb (vn_type node =? VFS_DIRECTORY) then ret (-1, None)
      else
        let fs := info_fs info in
        (dir_buffer <- kmalloc_m kernel_heap (block_size fs) ;;
         if dir_buffer =? 0 then
           kerr_m "EXT4: Failed to allocate memory for directory buffer\n" [] ;;;
           ret (-1, None)
         else if block_size fs =? 0 then raise DivByZero
         else
           let num_blocks :=
             wrap64 (i_size (raw_inode info) + block_size fs - 1) / block_size fs in
           spec_readdir_blocks kernel_heap (Z.to_nat num_blocks) fs (raw_inode info)
                               index dir_buffer 0 0)%kmonad
  end.

(** The dirent [d'] left by a listing that located the entry at [entry]
    of the block bytes [m]: the name, terminator and inode number of
    [dirent_holds], and the type that corresponds to the entry's file
    type. *)
Definition entry_copied (m : mem) (entry : Z) (d d' : vfs_dirent) : Prop :=
  dirent_holds m entry d d'
  /\ d_type d' = dirent_type_of (de_file_type m entry).

(** The outcome [code] of [ext4_readdir] on the dirent [d] answers the
    located entry [spec]: same return code and final state; the dirent
    holds the located entry on success and is untouched otherwise; a
    stop is the same stop on both sides and is not a write past the end
    of the name array. *)
Definition readdir_answers (d : vfs_dirent) (code : exec (Z * vfs_dirent))
  (spec : exec (Z * option (mem * Z))) : Prop :=
  match code, spec with
  | Done (rc, d') s', Done (rc0, located) s0 =>
      rc = rc0 /\ s' = s0
      /\ match located with
         | Some (m, entry) => rc = 0 /\ entry_copied m entry d d'
         | None => rc < 0 /\ d' = d
         end
  | Trap t, Trap t0 => t = t0 /\ t <> BufferOverrun
  | _, _ => False
  end.

(** ** Extent trees as the specification describes them *)

(** The entries of an internal node, [(starting logical block, child
    block)], and the extents of a leaf, [(first logical block, length,
    first physical block)], listed from the node's bytes. *)
Definition index_entry_of (nb : Z -> Z) (i : Z) : Z * Z :=
  (ei_block nb 0 i, lo_hi (ei_leaf_lo nb 0 i) (ei_leaf_hi nb 0 i)).

Definition extent_of (nb : Z -> Z) (i : Z) : Z * Z * Z :=
  (ee_block nb 0 i, ee_len nb 0 i, lo_hi (ee_start_lo nb 0 i) (ee_start_hi nb 0 i)).

Definition entry_indices (first : Z) (count : nat) : list Z :=
  map (fun k => first + Z.of_nat k) (seq 0 count).

Definition node_indexes (nb : Z -> Z) : list (Z * Z) :=
  map (index_entry_of nb) (entry_indices 0 (Z.to_nat (eh_entries nb 0))).

Definition node_extents (nb : Z -> Z) : list (Z * Z * Z) :=
  map (extent_of nb) (entry_indices 0 (Z.to_nat (eh_entries nb 0))).

(** The last entry whose starting block does not exceed [b]; the first
    entry when every entry starts after [b]. *)
Definition spec_select_index (entries : list (Z * Z)) (b : Z) : option (Z * Z) :=
  match entries with
  | [] => None
  | first :: _ => Some (last (filter (fun e => fst e <=? b) entries) first)
  end.

Definition extent_covers (b : Z) (x : Z * Z * Z) : bool :=
  let '(blk, len, _) := x in (blk <=? b) && (b <? blk + len).

(** The physical block of [b] in the extent whose range contains it. *)
Definition spec_leaf_lookup (extents : list (Z * Z * Z)) (b : Z) : option Z :=
  match find (extent_covers b) extents with
  | Some (blk, _, start) => Some (start + (b - blk))
  | None => None
  end.

(** What reading block [blk] as a tree node yields: the status of the
    read and the bytes delivered. *)
Definition spec_read_node (fs : ext4_fs) (blk : Z) : Z * option (Z -> Z) :=
  match device fs with
  | None => (-1, None)
  | Some d =>
      let r := dev_read d (wrap64 (blk * block_size fs)) (block_size fs) in
      (reply_status r, reply_data r)
  end.

(** Resolution of logical block [b] from a node [depth] levels above the
    leaves: in an internal node the selected entry's child is loaded and
    checked for the extent magic, in a leaf the covering extent gives the
    physical block. *)
Fixpoint spec_resolve (depth : nat) (fs : ext4_fs) (nb : Z -> Z) (b : Z)
  : Z * option Z :=
  match depth with
  | O =>
      match spec_leaf_lookup (node_extents nb) b with
      | Some phys => (0, Some phys)
      | None => (-1, None)
      end
  | S depth' =>
      match spec_select_index (node_indexes nb) b with
      | None => (-1, None)
      | Some (_, child_block) =>
          match spec_read_node fs child_block with
          | (status, Some child) =>
              if status <? 0 then (status, None)
              else if eh_magic child 0 =? EXT4_EXTENT_HEADER_MAGIC
                   then spec_resolve depth' fs child b
                   else (-1, None)
          | (status, None) => (if status <? 0 then status else -1, None)
          end
      end
  end.

(** The root node is the 60 bytes of [i_block]. *)
Definition root_node_of (inode : inode_bytes) : Z -> Z :=
  fun i => inode (I_BLOCK_OFFSET + i).

Definition spec_read_extent_block (fs : ext4_fs) (inode : inode_bytes) (b : Z)
  : Z * option Z :=
  let root := root_node_of inode in
  if eh_magic root 0 =? EXT4_EXTENT_HEADER_MAGIC
  then spec_resolve (Z.to_nat (eh_depth root 0)) fs root b
  else (-1, None).

(** An extent that ends inside the 32-bit logical block space. *)
Definition extent_fits (x : Z * Z * Z) : bool :=
  fst (fst x) + snd (fst x) <? 2 ^ 32.

Fixpoint ascending (l : list Z) : Prop :=
  match l with
  | x :: (y :: _) as rest => x <= y /\ ascending rest
  | _ => True
  end.

(** The nodes on the way of [b] are well formed: the entries of each node
    lie inside the bytes that hold it ([limit]: 60 for the root, one
    block for the others), index entries are in ascending order of
    starting block, a successful read delivers the block, and the extents
    of the leaf end inside the 32-bit logical block space. *)
Fixpoint tree_ok (depth : nat) (fs : ext4_fs) (limit : Z) (nb : Z -> Z) (b : Z)
  : Prop :=
  12 + 12 * eh_entries nb 0 <= limit
  /\ match depth with
     | O => forallb extent_fits (node_extents nb) = true
     | S depth' =>
         ascending (map fst (node_indexes nb))
         /\ match spec_select_index (node_indexes nb) b with
            | None => True
            | Some (_, child_block) =>
                match spec_read_node fs child_block with
                | (status, Some child) =>
                    0 <= status ->
                    eh_magic child 0 = EXT4_EXTENT_HEADER_MAGIC ->
                    tree_ok depth' fs (block_size fs) child b
                | (status, None) => status < 0
                end
            end
     end.

(** The forward scan of the code on a list: stay on [x] until the next
    entry starts at or below [b]. *)
Fixpoint scan_list (b : Z) (x : Z * Z) (rest : list (Z * Z)) : Z * Z :=
  match rest with
  | y :: r => if fst y <=? b then scan_list b y r else x
  | [] => x
  end.


(** The bytes at [buf] hold the node [nb], as far as [limit]. *)
Definition node_at (m : mem) (buf limit : Z) (nb : Z -> Z) : Prop :=
  forall x, 0 <= x < limit -> m (buf + x) = nb x.

(** [returns c Q s]: run from [s], the computation [c] returns a value
    and a state that satisfy [Q]. *)
Definition returns {A} (c : M A) (Q : A -> kstate -> Prop) (s : kstate) : Prop :=
  match c s with
  | Done a s' => Q a s'
  | Trap _ => False
  end.

(** The outcome of an extent lookup started in [s0]: the heap is as
    before, and the answer is the specification's unless the node buffer
    could not be allocated. *)
Definition extent_post (kernel_heap : Z) (fs : ext4_fs) (s0 : kstate)
  (answer : Z * option Z) (r : Z * option Z) (s' : kstate) : Prop :=
  heap_same kernel_heap s0 s'
  /\ (r = answer
      \/ (r = (-1, None)
          /\ exists s1, kmalloc kernel_heap (block_size fs) s0 = Done 0 s1)).

(** ** Mounting with another incompatible-feature mask *)

(** [ext4_mount] up to the copy of the superblock into the handle (the
    statements before "Verify the superblock magic"): the result of an
    early return, or the zeroed handle with [device] set and the
    superblock copied in. *)
Definition ext4_mount_superblock (kernel_heap : Z) (d : block_device)
  : M (mount_result + ext4_fs) :=
  (kprintf_m "EXT4: Mounting filesystem on device %s\n" [LStr (dev_name d)] ;;;
   fs <- kmalloc_m kernel_heap SIZEOF_FS ;;
   if fs =? 0 then
     kerr_m "EXT4: Failed to allocate memory for filesystem\n" [] ;;;
     ret (inl (-1, None, None))
   else
     lift (memset fs 0 SIZEOF_FS) ;;;
     sb_buffer <- kmalloc_m kernel_heap SIZEOF_SUPERBLOCK ;;
     if sb_buffer =? 0 then
       kerr_m "EXT4: Failed to allocate memory for superblock\n" [] ;;;
       kfree_m kernel_heap fs ;;;
       ret (inl (-1, None, None))
     else
       result <- device_read d EXT4_SUPERBLOCK_OFFSET SIZEOF_SUPERBLOCK sb_buffer ;;
       if result <? 0 then
         kerr_m "EXT4: Failed to read superblock\n" [] ;;;
         kfree_m kernel_heap sb_buffer ;;;
         kfree_m kernel_heap fs ;;;
         ret (inl (result, None, None))
       else
         m <- get memory ;;
         let sb := read_superblock m sb_buffer in
         kfree_m kernel_heap sb_buffer ;;;
         ret (inr (mkFs fs (Some d) sb 0 0 0 0 0 0 0)))%kmonad.

(** The mount of a device whose superblock copy has its
    incompatible-feature mask replaced by [v] before anything looks at
    the copy: what [ext4_mount] would do if the device carried the mask
    [v] (with the extents flag, without it, or any other value). *)
Definition ext4_mount_with_mask (kernel_heap v : Z) (dev : option block_device)
  (root_node : Z) (inode0 : inode_bytes) : M mount_result :=
  match dev with
  | None => ret (-1, None, None)
  | Some d =>
      if root_node =? 0 then ret (-1, None, None)
      else
        (r <- ext4_mount_superblock kernel_heap d ;;
         match r with
         | inl early => ret early
         | inr fs => ext4_mount_geometry kernel_heap (retag_fs v fs) inode0
         end)%kmonad
  end.

(** A free block of at least [r] bytes lies in the arena. *)
Definition room (kernel_heap : Z) (m : mem) (r : Z) : Prop :=
  exists l b,
    arena kernel_heap m l /\ In b l /\ hdr_used m b = false /\ r <= hdr_size m b.

(** The geometry [ext4_mount] derives from a superblock: block size,
    number of block groups, and number of blocks of the group
    descriptor table. *)
Definition sb_block_size (sbk : ext4_superblock) : Z :=
  1024 * 2 ^ s_log_block_size sbk.

Definition sb_groups (sbk : ext4_superblock) : Z :=
  let bc := lo_hi (s_blocks_count_lo sbk) (s_blocks_count_hi sbk) in
  wrap32 (wrap64 (bc + s_blocks_per_group sbk - 1) / s_blocks_per_group sbk).

Definition sb_gdesc_blocks (sbk : ext4_superblock) : Z :=
  let gdesc_size := if s_desc_size sbk =? 0 then 32 else s_desc_size sbk in
  wrap32 (wrap32 (sb_groups sbk * gdesc_size) + sb_block_size sbk - 1)
  / sb_block_size sbk.

(** A superblock the mount can work with: valid magic, a block size
    exponent the shift is defined for, non-zero group sizes, inodes
    that fit the inode record, a non-empty group descriptor table, and a
    group for the root inode.  The incompatible-feature mask is not
    looked at. *)
Definition mountable (sbk : ext4_superblock) : Prop :=
  s_magic sbk = EXT4_SUPER_MAGIC
  /\ s_log_block_size sbk <= 20
  /\ s_blocks_per_group sbk <> 0
  /\ s_inodes_per_group sbk <> 0
  /\ s_inode_size sbk <= SIZEOF_INODE
  /\ 0 < sb_gdesc_blocks sbk
  /\ (EXT4_ROOT_INO - 1) / s_inodes_per_group sbk < sb_groups sbk.

(** ** Synthetic device images for the worked examples *)

Fixpoint le_bytes (n : nat) (v : Z) : list Z :=
  match n with
  | O => []
  | S k => v mod 256 :: le_bytes k (v / 256)
  end.

Definition zeros (n : nat) : list Z := repeat 0 n.

Fixpoint ascii_bytes (str : string) : list Z :=
  match str with
  | EmptyString => []
  | String c rest => Z.of_nat (Ascii.nat_of_ascii c) :: ascii_bytes rest
  end.

(** Byte [i] of a region laid out as a list. *)
Definition byte_at (l : list Z) (i : Z) : Z :=
  if i <? 0 then 0 else nth (Z.to_nat i) l 0.

(** A device image given by regions [(start, bytes)]; bytes outside every
    region follow a fixed pattern, so that distinct offsets are told
    apart. *)
Definition pattern (x : Z) : Z := (x * 7 + x / 1024 + 3) mod 256.

Fixpoint image_byte (regions : list (Z * list Z)) (x : Z) : Z :=
  match regions with
  | [] => pattern x
  | (start, bytes) :: rest =>
      if (start <=? x) && (x <? start + Z.of_nat (length bytes))
      then byte_at bytes (x - start)
      else image_byte rest x
  end.

Definition image_device (name : string) (regions : list (Z * list Z))
  : block_device :=
  mkDev name (fun offset size =>
                mkReply 0 (Some (fun i => image_byte regions (offset + i)))).

(** An extent header followed by one leaf extent
    [{ee_block, ee_len, ee_start}] (12 + 12 bytes). *)
Definition one_extent_node (ee_block ee_len ee_start : Z) : list Z :=
  le_bytes 2 EXT4_EXTENT_HEADER_MAGIC ++ le_bytes 2 1 ++ le_bytes 2 4
  ++ le_bytes 2 0 ++ le_bytes 4 0
  ++ le_bytes 4 ee_block ++ le_bytes 2 ee_len ++ le_bytes 2 (ee_start / 2 ^ 32)
  ++ le_bytes 4 (ee_start mod 2 ^ 32).

(** The 128 bytes of an inode with the given mode, size, flags and
    [i_block] contents. *)
Definition inode_image (mode size flags : Z) (i_block : list Z) : list Z :=
  le_bytes 2 mode ++ le_bytes 2 0 ++ le_bytes 4 (size mod 2 ^ 32)
  ++ zeros 24 ++ le_bytes 4 flags ++ zeros 4
  ++ i_block ++ zeros (60 - length i_block)
  ++ zeros 8 ++ le_bytes 4 (size / 2 ^ 32) ++ zeros 16.

Definition inode_of (l : list Z) : inode_bytes := byte_at l.

(** One packed directory entry. *)
Definition dir_entry (inode rec_len file_type : Z) (name : string) : list Z :=
  let nm := ascii_bytes name in
  le_bytes 4 inode ++ le_bytes 2 rec_len ++ [Z.of_nat (length nm); file_type]
  ++ nm ++ zeros (Z.to_nat rec_len - 8 - length nm).

(** A filesystem handle with 1024-byte blocks on the given device. *)
Definition demo_sb (incompat : Z) : ext4_superblock :=
  mkSb 8192 1 0 8192 16 EXT4_SUPER_MAGIC 128 incompat 0 0.

Definition demo_fs (d : block_device) (incompat : Z) : ext4_fs :=
  mkFs 0 (Some d) (demo_sb incompat) 1024 8192 1 16 8192 0 0.

(** C6: one extent [{0, 10, 500}] on an inode of ten blocks. *)
Definition extent_inode : inode_bytes :=
  inode_of (inode_image 0x81A4 (10 * 1024) EXT4_EXTENTS_FL
                        (one_extent_node 0 10 500)).
Definition extent_fs : ext4_fs :=
  demo_fs (image_device "ramdisk" []) EXT4_FEATURE_INCOMPAT_EXTENTS.

(** A caller buffer outside the arena. *)
Definition caller_buffer : Z := 0x100000.

(** C8: a directory of one block, stored at physical block 600. *)
Definition dir_block : list Z :=
  dir_entry 2 12 EXT4_FT_DIR "." ++ dir_entry 2 12 EXT4_FT_DIR ".."
  ++ dir_entry 13 1000 EXT4_FT_REG_FILE "foo.txt".
Definition dir_inode_demo : inode_bytes :=
  inode_of (inode_image 0x41ED 1024 EXT4_EXTENTS_FL (one_extent_node 0 1 600)).
Definition dir_fs : ext4_fs :=
  demo_fs (image_device "ramdisk" [(600 * 1024, dir_block)])
          EXT4_FEATURE_INCOMPAT_EXTENTS.

(** C10: a whole image: superblock at byte 1024, group descriptors in
    block 2, inode table in block 5, root directory in block 600. *)
Definition superblock_image (incompat : Z) : list Z :=
  le_bytes 4 16 ++ le_bytes 4 8192 ++ zeros 12 ++ le_bytes 4 1 ++ le_bytes 4 0
  ++ zeros 4 ++ le_bytes 4 8192 ++ zeros 4 ++ le_bytes 4 16 ++ zeros 12
  ++ le_bytes 2 EXT4_SUPER_MAGIC ++ zeros 30 ++ le_bytes 2 128 ++ zeros 6
  ++ le_bytes 4 incompat ++ zeros 924.

Definition group_desc_image : list Z :=
  zeros 8 ++ le_bytes 4 5 ++ zeros 52.

Definition inode_table_image : list Z :=
  zeros 128
  ++ inode_image 0x41ED 1024 EXT4_EXTENTS_FL (one_extent_node 0 1 600).

Definition disk_image (incompat : Z) : block_device :=
  image_device "ramdisk"
    [(1024, superblock_image incompat); (2048, group_desc_image);
     (5120, inode_table_image); (600 * 1024, dir_block)].

(** The readdir example: the name bytes and the inode of the entry with
    index 2 of the example directory, read up to the terminator. *)
Definition empty_dirent : vfs_dirent := mkDirent (fun _ => 255) 0 0.
Definition dirent_prefix (d : vfs_dirent) (n : nat) : list Z :=
  map (fun i => d_name d (Z.of_nat i)) (seq 0 n).
Definition dir_node_demo : vfs_node :=
  mkNode VFS_DIRECTORY 1024 EXT4_ROOT_INO
         (Some (mkInfo 0 dir_inode_demo EXT4_ROOT_INO dir_fs)).

(** C5: a device without a superblock (its bytes are the background
    pattern of the images, not an EXT4 magic), an arbitrary
    uninitialised inode record, and the heap right after its
    initialisation. *)
Definition blank_device : block_device := image_device "blank" [].
Definition stale_inode : inode_bytes := fun _ => 0.
Definition fresh_heap : kstate := kmalloc_init demo_heap boot_state.

(** C6: a tree of depth 1.  The root, in the inode, indexes three leaves
    stored in blocks 700, 701 and 702, which map the logical blocks
    0..9, 100..109 and 50..69. *)
Definition index_node (depth : Z) (entries : list (Z * Z)) : list Z :=
  le_bytes 2 EXT4_EXTENT_HEADER_MAGIC ++ le_bytes 2 (Z.of_nat (length entries))
  ++ le_bytes 2 4 ++ le_bytes 2 depth ++ le_bytes 4 0
  ++ flat_map (fun e => le_bytes 4 (fst e) ++ le_bytes 4 (snd e mod 2 ^ 32)
                        ++ le_bytes 2 (snd e / 2 ^ 32) ++ le_bytes 2 0) entries.

Definition tree_device : block_device :=
  image_device "ramdisk"
    [(700 * 1024, one_extent_node 0 10 500);
     (701 * 1024, one_extent_node 100 10 1100);
     (702 * 1024, one_extent_node 50 20 900)].

Definition tree_fs : ext4_fs := demo_fs tree_device EXT4_FEATURE_INCOMPAT_EXTENTS.

Definition tree_inode (entries : list (Z * Z)) : inode_bytes :=
  inode_of (inode_image 0x81A4 (110 * 1024) EXT4_EXTENTS_FL (index_node 1 entries)).

(** The index entries in ascending order, and with the last two
    exchanged. *)
Definition sorted_inode : inode_bytes := tree_inode [(0, 700); (50, 702); (100, 701)].
Definition unsorted_inode : inode_bytes := tree_inode [(0, 700); (100, 701); (50, 702)].

(** The bytes the device holds from [offset] on, and the bytes a state
    holds from [p] on. *)
Definition device_bytes (d : block_device) (offset : Z) (n : nat) : list Z :=
  match reply_data (dev_read d offset (Z.of_nat n)) with
  | Some data => map (fun i => data (Z.of_nat i)) (seq 0 n)
  | None => []
  end.
Definition memory_bytes (s : kstate) (p : Z) (n : nat) : list Z :=
  map (fun i => memory s (p + Z.of_nat i)) (seq 0 n).

(** ** Accounting of the heap *)

(** The bytes of the blocks in use, and of the free blocks, headers
    included. *)
Definition used_sum (m : mem) (l : list Z) : Z :=
  fold_right (fun h acc => (if hdr_used m h then hdr_size m h else 0) + acc) 0 l.

Definition free_sum (m : mem) (l : list Z) : Z :=
  fold_right (fun h acc => (if hdr_used m h then 0 else hdr_size m h) + acc) 0 l.

(** The counter [heap_used] is the number of bytes in use. *)
Definition accounted (kernel_heap : Z) (s : kstate) : Prop :=
  heap_initialized s = true
  /\ exists l, arena kernel_heap (memory s) l /\ heap_used s = used_sum (memory s) l.

(** A free block large enough for a request of [total] bytes, header
    included. *)
Definition fits (m : mem) (total h : Z) : bool :=
  negb (hdr_used m h) && (total <=? hdr_size m h).

(** ** The byte loops of lib/minstd.c *)

(** [for (i = 0; i < n; i++) pdest[i] = psrc[i]]: [k] iterations are
    left, [i] is the loop index. *)
Fixpoint copy_forward (k : nat) (m : mem) (dest src i : Z) : mem :=
  match k with
  | O => m
  | S k' =>
      copy_forward k' (store8 m (dest + i) (load8 m (src + i))) dest src (i + 1)
  end.

(** [for (i = n; i > 0; i--) pdest[i-1] = psrc[i-1]]: [k] is the loop
    index. *)
Fixpoint copy_backward (k : nat) (m : mem) (dest src : Z) : mem :=
  match k with
  | O => m
  | S k' =>
      copy_backward k'
        (store8 m (dest + Z.of_nat k') (load8 m (src + Z.of_nat k'))) dest src
  end.

(** [memmove], with its loops. *)
Definition memmove (dest src n : Z) (s : kstate) : kstate :=
  if (dest =? 0) || (src =? 0) then kerr "memmove: NULL pointer detected\n" [] s
  else if n =? 0 then s
  else if dest =? src then s
  else if dest <? src
       then set_memory s (copy_forward (Z.to_nat n) (memory s) dest src 0)
       else set_memory s (copy_backward (Z.to_nat n) (memory s) dest src).

(** [memcpy], with its loop and its fallback to [memmove] (the model
    [memcpy] above gives the result of this code in one step). *)
Definition memcpy_bytewise (dest src n : Z) (s : kstate) : kstate :=
  if (dest =? 0) || (src =? 0) then kerr "memcpy: NULL pointer detected\n" [] s
  else if n =? 0 then s
  else if (dest <=? src) && (src <? wrap64 (dest + n)) then
    memmove dest src n
      (kerr "memcpy: memory regions overlap, use memmove instead\n" [] s)
  else if (src <=? dest) && (dest <? wrap64 (src + n)) then
    memmove dest src n
      (kerr "memcpy: memory regions overlap, use memmove instead\n" [] s)
  else set_memory s (copy_forward (Z.to_nat n) (memory s) dest src 0).

(** The bytes a copy of [n] bytes from [src] to [dest] should leave. *)
Definition copied (m : mem) (dest src n x : Z) : Z :=
  if (dest <=? x) && (x <? dest + n) then load8 m (src + (x - dest)) else load8 m x.

(** ** Outcomes of the EXT4 calls *)


(** ** The remaining entry points of fs/ext4/ext4.c *)

Definition clear_private (node : vfs_node) : vfs_node :=
  mkNode (vn_type node) (vn_size node) (vn_inode node) None.

(** [ext4_unmount]: the node after the call ([None] stands for a NULL
    [root_node]). *)
Definition ext4_unmount (kernel_heap : Z) (root_node : option vfs_node)
  : M (option vfs_node) :=
  match root_node with
  | None => ret None
  | Some node =>
      match vn_private node with
      | None => ret (Some node)
      | Some info =>
          let fs := info_fs info in
          ((if fs_addr fs =? 0 then ret tt
            else
              kprintf_m "EXT4: Unmounting filesystem\n" [] ;;;
              (if group_desc_table fs =? 0 then ret tt
               else kfree_m kernel_heap (group_desc_table fs)) ;;;
              kfree_m kernel_heap (fs_addr fs)) ;;;
           kfree_m kernel_heap (info_addr info) ;;;
           ret (Some (clear_private node)))%kmonad
      end
  end.



(** What [ext4_mount] leaves behind: nothing when it fails; when it
    succeeds, the handle at [fsp], the group descriptor table, the root
    node and the inode info of the root, all referenced from the node
    returned. *)
Definition mounted (kernel_heap : Z) (s0 : kstate) (fsp : Z) (r : mount_result)
  (s' : kstate) : Prop :=
  (fst (fst r) < 0 -> heap_same kernel_heap s0 s')
  /\ (0 <= fst (fst r) ->
      exists rp nd info szi szr szg szf,
        snd (fst r) = Some rp /\ snd r = Some nd
        /\ vn_private nd = Some info
        /\ fs_addr (info_fs info) = fsp /\ fsp <> 0
        /\ group_desc_table (info_fs info) <> 0
        /\ holding kernel_heap s0 s'
             [(info_addr info - HEADER_SIZE, szi); (rp - HEADER_SIZE, szr);
              (group_desc_table (info_fs info) - HEADER_SIZE, szg);
              (fsp - HEADER_SIZE, szf)]).


(** ** States and handles for the worked examples *)

(** A state whose memory holds the background pattern of the images, so
    that neighbouring bytes differ. *)
Definition patterned_state : kstate := mkState pattern false 0 [] [].

(** ** Byte store lemmas *)

Lemma load_le_ext (n : nat) (m m' : mem) (a : Z) :
  (forall x, a <= x < a + Z.of_nat n -> m x = m' x) ->
  load_le n m a = load_le n m' a.
Proof.
  revert a; induction n as [|n IH]; intros a H; [reflexivity|].
  cbn [load_le]. unfold load8. rewrite (H a) by lia.
  rewrite (IH (a + 1)); [reflexivity|]. intros x Hx; apply H; lia.
Qed.

Lemma load_le_range (n : nat) (m : mem) (a : Z) :
  0 <= load_le n m a < 256 ^ Z.of_nat n.
Proof.
  revert a; induction n as [|n IH]; intros a.
  - cbn; lia.
  - cbn [load_le]. unfold load8. specialize (IH (a + 1)).
    rewrite Nat2Z.inj_succ, Z.pow_succ_r by lia.
    pose proof (Z.mod_pos_bound (m a) 256 ltac:(lia)). lia.
Qed.

Lemma store_le_out (n : Z) (m : mem) (a v x : Z) :
  x < a \/ a + n <= x -> store_le n m a v x = m x.
Proof.
  intros H. unfold store_le.
  destruct (a <=? x) eqn:E1; destruct (x <? a + n) eqn:E2; cbn; try reflexivity.
  apply Z.leb_le in E1. apply Z.ltb_lt in E2. lia.
Qed.

Lemma load_store_disjoint (n : nat) (k : Z) (m : mem) (a b v : Z) :
  b + Z.of_nat n <= a \/ a + k <= b ->
  load_le n (store_le k m a v) b = load_le n m b.
Proof.
  intros H. apply load_le_ext. intros x Hx. apply store_le_out. lia.
Qed.

Lemma load_store_aux (n : Z) (m : mem) (a v : Z) (k : nat) :
  forall j, 0 <= j -> j + Z.of_nat k <= n ->
  load_le k (store_le n m a v) (a + j) = (v / 256 ^ j) mod 256 ^ Z.of_nat k.
Proof.
  induction k as [|k IH]; intros j Hj Hn.
  - cbn. now rewrite Z.mod_1_r.
  - cbn [load_le]. rewrite <- Z.add_assoc, IH by lia.
    unfold load8, store_le.
    replace ((a <=? a + j) && (a + j <? a + n)) with true
      by (symmetry; apply andb_true_iff; split;
          [apply Z.leb_le | apply Z.ltb_lt]; lia).
    replace (a + j - a) with j by lia.
    rewrite Z.mod_mod by lia.
    rewrite Nat2Z.inj_succ, !Z.pow_succ_r by lia.
    rewrite Z.rem_mul_r by (try apply Z.pow_pos_nonneg; lia).
    rewrite Z.div_div by (try apply Z.pow_pos_nonneg; lia).
    now rewrite Z.pow_add_r, Z.pow_1_r by lia.
Qed.

Lemma load_store_same (n : nat) (m : mem) (a v : Z) :
  load_le n (store_le (Z.of_nat n) m a v) a = v mod 256 ^ Z.of_nat n.
Proof.
  pose proof (load_store_aux (Z.of_nat n) m a v n 0 ltac:(lia) ltac:(lia)) as H.
  now rewrite Z.add_0_r, Z.pow_0_r, Z.div_1_r in H.
Qed.

(** Header fields after a header store at the same address. *)

Lemma size_set_size m h v : hdr_size (set_hdr_size m h v) h = wrap64 v.
Proof. apply (load_store_same 8). Qed.

Lemma magic_set_magic m h v : hdr_magic (set_hdr_magic m h v) h = wrap32 v.
Proof. apply (load_store_same 4). Qed.

Lemma used_set_used m h b : hdr_used (set_hdr_used m h b) h = b.
Proof.
  unfold hdr_used, set_hdr_used, store8, load8, store_le.
  replace ((h + 12 <=? h + 12) && (h + 12 <? h + 12 + 1)) with true
    by (symmetry; apply andb_true_iff; split;
        [apply Z.leb_le | apply Z.ltb_lt]; lia).
  rewrite Z.sub_diag. now destruct b.
Qed.

Lemma magic_set_size m h v : hdr_magic (set_hdr_size m h v) h = hdr_magic m h.
Proof. apply load_store_disjoint; lia. Qed.

Lemma used_set_size m h v : hdr_used (set_hdr_size m h v) h = hdr_used m h.
Proof.
  unfold hdr_used, load8, set_hdr_size, store64.
  now rewrite store_le_out by lia.
Qed.

Lemma size_set_magic m h v : hdr_size (set_hdr_magic m h v) h = hdr_size m h.
Proof. apply load_store_disjoint; lia. Qed.

Lemma used_set_magic m h v : hdr_used (set_hdr_magic m h v) h = hdr_used m h.
Proof.
  unfold hdr_used, load8, set_hdr_magic, store32.
  now rewrite store_le_out by lia.
Qed.

Lemma size_set_used m h b : hdr_size (set_hdr_used m h b) h = hdr_size m h.
Proof. apply load_store_disjoint; lia. Qed.

Lemma magic_set_used m h b : hdr_magic (set_hdr_used m h b) h = hdr_magic m h.
Proof. apply load_store_disjoint; lia. Qed.

(** Two byte stores agree on the header at [h]. *)
Definition hdr_agree (m m' : mem) (h : Z) : Prop :=
  forall x, h <= x < h + HEADER_SIZE -> m x = m' x.

Lemma hdr_agree_fields m m' h :
  hdr_agree m m' h ->
  hdr_size m' h = hdr_size m h /\ hdr_magic m' h = hdr_magic m h
  /\ hdr_used m' h = hdr_used m h.
Proof.
  unfold hdr_agree, HEADER_SIZE. intros H. repeat split.
  - symmetry. apply load_le_ext. intros x Hx. apply H. lia.
  - symmetry. apply load_le_ext. intros x Hx. apply H. lia.
  - unfold hdr_used, load8. rewrite (H (h + 12)) by lia. reflexivity.
Qed.

Lemma set_hdr_size_out m h v x :
  x < h \/ h + HEADER_SIZE <= x -> set_hdr_size m h v x = m x.
Proof. unfold HEADER_SIZE. intros; apply store_le_out; lia. Qed.

Lemma set_hdr_magic_out m h v x :
  x < h \/ h + HEADER_SIZE <= x -> set_hdr_magic m h v x = m x.
Proof. unfold HEADER_SIZE. intros; apply store_le_out; lia. Qed.

Lemma set_hdr_used_out m h b x :
  x < h \/ h + HEADER_SIZE <= x -> set_hdr_used m h b x = m x.
Proof. unfold HEADER_SIZE. intros; apply store_le_out; lia. Qed.

Lemma hdr_size_range m h : 0 <= hdr_size m h < 2 ^ 64.
Proof. apply (load_le_range 8). Qed.

Lemma wrap64_small x : 0 <= x < 2 ^ 64 -> wrap64 x = x.
Proof. intros; unfold wrap64; now apply Z.mod_small. Qed.

Lemma wrap64_range x : 0 <= wrap64 x < 2 ^ 64.
Proof. unfold wrap64; apply Z.mod_pos_bound; lia. Qed.

(** ** Lemmas on the block walk *)

Lemma blocks_le m a e l : blocks m a e l -> a <= e.
Proof.
  induction 1; [lia|]. unfold HEADER_SIZE in *. lia.
Qed.

Lemma blocks_in m a e l h :
  blocks m a e l -> In h l ->
  a <= h /\ hdr_magic m h = ALLOC_MAGIC /\ HEADER_SIZE <= hdr_size m h
  /\ h + hdr_size m h <= e.
Proof.
  induction 1 as [|a e l Hm Hs He Hb IH]; intros Hin; [destruct Hin|].
  destruct Hin as [->|Hin]; [repeat split; auto; lia|].
  specialize (IH Hin). unfold HEADER_SIZE in *. lia.
Qed.

Lemma blocks_app m a e l1 l2 :
  blocks m a e (l1 ++ l2) <->
  exists b, blocks m a b l1 /\ blocks m b e l2.
Proof.
  split.
  - revert a. induction l1 as [|h l1 IH]; intros a H.
    + exists a. split; [constructor | exact H].
    + cbn in H. inversion H as [|? ? ? Hm Hs He Hb]; subst.
      destruct (IH _ Hb) as (b & H1 & H2).
      exists b. split; [|exact H2].
      constructor; auto. apply blocks_le in H2. apply blocks_le in H1. lia.
  - intros (b & H1 & H2). induction H1 as [|a b l1 Hm Hs He Hb IH]; [exact H2|].
    cbn. constructor; auto.
    specialize (IH H2). apply blocks_le in H2. lia.
Qed.

Lemma blocks_total m a e l : blocks m a e l -> total_size m l = e - a.
Proof.
  induction 1; unfold total_size in *; cbn [fold_right]; lia.
Qed.

Lemma blocks_length m a e l :
  blocks m a e l -> HEADER_SIZE * Z.of_nat (length l) <= e - a.
Proof.
  induction 1; cbn [length]; [lia|].
  rewrite Nat2Z.inj_succ. unfold HEADER_SIZE in *. lia.
Qed.

(** The headers of a walk are separated: those before a block end at or
    before it, those after start at or after its end. *)
Lemma blocks_before m a e l h :
  blocks m a e l -> In h l -> h + HEADER_SIZE <= e.
Proof.
  intros H Hin. destruct (blocks_in _ _ _ _ _ H Hin) as (_ & _ & ? & ?). lia.
Qed.

Lemma blocks_fields m m' a e l :
  blocks m a e l ->
  (forall h, In h l ->
     hdr_size m' h = hdr_size m h /\ hdr_magic m' h = hdr_magic m h) ->
  blocks m' a e l.
Proof.
  induction 1 as [|a e l Hm Hs He Hb IH]; intros Hag; [constructor|].
  destruct (Hag a (or_introl eq_refl)) as (Es & Em).
  constructor; try congruence; rewrite Es; auto.
  apply IH. intros h Hh. apply Hag. now right.
Qed.

Lemma blocks_frame m m' a e l :
  blocks m a e l ->
  (forall h, In h l -> hdr_agree m m' h) ->
  blocks m' a e l.
Proof.
  intros H Hag. apply (blocks_fields m); [exact H|].
  intros h Hh. destruct (hdr_agree_fields _ _ _ (Hag h Hh)) as (? & ? & _).
  now split.
Qed.

Lemma blocks_frame_mem m m' a e l :
  blocks m a e l ->
  (forall x, a <= x < e -> m x = m' x) ->
  blocks m' a e l.
Proof.
  intros H Hag. apply (blocks_frame m); [exact H|].
  intros h Hh x Hx. apply Hag.
  destruct (blocks_in _ _ _ _ _ H Hh) as (? & _ & ? & ?). lia.
Qed.

Lemma blocks_split m a e l h :
  blocks m a e l -> In h l ->
  exists l1 l2, l = l1 ++ h :: l2 /\ blocks m a h l1
                /\ blocks m (h + hdr_size m h) e l2.
Proof.
  induction 1 as [|a e l Hm Hs He Hb IH]; intros Hin; [destruct Hin|].
  destruct Hin as [->|Hin].
  - exists [], l. repeat split; [constructor | exact Hb].
  - destruct (IH Hin) as (l1 & l2 & -> & H1 & H2).
    exists (a :: l1), l2. repeat split; [|exact H2].
    constructor; auto. apply blocks_le in H1. lia.
Qed.

Lemma blocks_mid m a e l1 h l2 :
  blocks m a e (l1 ++ h :: l2) ->
  blocks m a h l1 /\ a <= h /\ hdr_magic m h = ALLOC_MAGIC
  /\ HEADER_SIZE <= hdr_size m h /\ h + hdr_size m h <= e
  /\ blocks m (h + hdr_size m h) e l2.
Proof.
  intros H. apply blocks_app in H. destruct H as (b & H1 & H2).
  inversion H2 as [|? ? ? Hm Hs He Hb]; subst.
  pose proof (blocks_le _ _ _ _ H1). auto 7.
Qed.

Lemma blocks_end_unique m a e e' l :
  blocks m a e l -> blocks m a e' l -> e = e'.
Proof.
  intros H; revert e'.
  induction H as [|a e l Hm Hs He Hb IH]; intros e' H';
    inversion H' as [|? ? ? Hm' Hs' He' Hb']; subst; auto.
Qed.

Lemma blocks_head m a e l :
  blocks m a e l ->
  a = e \/ (HEADER_SIZE <= hdr_size m a /\ a + hdr_size m a <= e).
Proof. intros H. destruct H; [now left | now right]. Qed.

(** ** Header stores seen from another header *)

Definition far (h h' : Z) : Prop :=
  h' + HEADER_SIZE <= h \/ h + HEADER_SIZE <= h'.

Lemma far_agree_size m h v h' :
  far h h' -> hdr_agree m (set_hdr_size m h v) h'.
Proof.
  intros F x Hx. symmetry. apply set_hdr_size_out. unfold far in F. lia.
Qed.

Lemma far_agree_magic m h v h' :
  far h h' -> hdr_agree m (set_hdr_magic m h v) h'.
Proof.
  intros F x Hx. symmetry. apply set_hdr_magic_out. unfold far in F. lia.
Qed.

Lemma far_agree_used m h b h' :
  far h h' -> hdr_agree m (set_hdr_used m h b) h'.
Proof.
  intros F x Hx. symmetry. apply set_hdr_used_out. unfold far in F. lia.
Qed.

Lemma size_far_size m h v h' :
  far h h' -> hdr_size (set_hdr_size m h v) h' = hdr_size m h'.
Proof. intros F. apply (hdr_agree_fields _ _ _ (far_agree_size m h v h' F)). Qed.
Lemma magic_far_size m h v h' :
  far h h' -> hdr_magic (set_hdr_size m h v) h' = hdr_magic m h'.
Proof. intros F. apply (hdr_agree_fields _ _ _ (far_agree_size m h v h' F)). Qed.
Lemma used_far_size m h v h' :
  far h h' -> hdr_used (set_hdr_size m h v) h' = hdr_used m h'.
Proof. intros F. apply (hdr_agree_fields _ _ _ (far_agree_size m h v h' F)). Qed.

Lemma size_far_magic m h v h' :
  far h h' -> hdr_size (set_hdr_magic m h v) h' = hdr_size m h'.
Proof. intros F. apply (hdr_agree_fields _ _ _ (far_agree_magic m h v h' F)). Qed.
Lemma magic_far_magic m h v h' :
  far h h' -> hdr_magic (set_hdr_magic m h v) h' = hdr_magic m h'.
Proof. intros F. apply (hdr_agree_fields _ _ _ (far_agree_magic m h v h' F)). Qed.
Lemma used_far_magic m h v h' :
  far h h' -> hdr_used (set_hdr_magic m h v) h' = hdr_used m h'.
Proof. intros F. apply (hdr_agree_fields _ _ _ (far_agree_magic m h v h' F)). Qed.

Lemma size_far_used m h b h' :
  far h h' -> hdr_size (set_hdr_used m h b) h' = hdr_size m h'.
Proof. intros F. apply (hdr_agree_fields _ _ _ (far_agree_used m h b h' F)). Qed.
Lemma magic_far_used m h b h' :
  far h h' -> hdr_magic (set_hdr_used m h b) h' = hdr_magic m h'.
Proof. intros F. apply (hdr_agree_fields _ _ _ (far_agree_used m h b h' F)). Qed.
Lemma used_far_used m h b h' :
  far h h' -> hdr_used (set_hdr_used m h b) h' = hdr_used m h'.
Proof. intros F. apply (hdr_agree_fields _ _ _ (far_agree_used m h b h' F)). Qed.

Ltac arith :=
  unfold far, heap_end, MIN_ALLOC_SIZE, HEADER_SIZE, KERNEL_HEAP_SIZE in *; lia.
Ltac far_side := arith.

(** Normalise header reads through header stores, at the same header or
    at a header known to be at least one header away. *)
Ltac hdr_simp :=
  repeat first
    [ rewrite size_set_size | rewrite magic_set_magic | rewrite used_set_used
    | rewrite magic_set_size | rewrite used_set_size
    | rewrite size_set_magic | rewrite used_set_magic
    | rewrite size_set_used | rewrite magic_set_used
    | rewrite size_far_size by far_side
    | rewrite magic_far_size by far_side
    | rewrite used_far_size by far_side
    | rewrite size_far_magic by far_side
    | rewrite magic_far_magic by far_side
    | rewrite used_far_magic by far_side
    | rewrite size_far_used by far_side
    | rewrite magic_far_used by far_side
    | rewrite used_far_used by far_side ].

Lemma set_hdr_out_all m h x :
  x < h \/ h + HEADER_SIZE <= x ->
  (forall v, set_hdr_size m h v x = m x)
  /\ (forall v, set_hdr_magic m h v x = m x)
  /\ (forall b, set_hdr_used m h b x = m x).
Proof.
  intros H. repeat split; intros.
  - now apply set_hdr_size_out.
  - now apply set_hdr_magic_out.
  - now apply set_hdr_used_out.
Qed.

(** ** The first-fit search on a well-shaped arena *)

Section AllocatorFacts.

Variable kernel_heap : Z.
Hypothesis heap_lo : 0 <= kernel_heap.
Hypothesis heap_hi : kernel_heap + KERNEL_HEAP_SIZE < 2 ^ 64.

Lemma find_from_spec m total :
  forall cur e l, blocks m cur e l -> e = heap_end kernel_heap -> 0 <= cur ->
  forall fuel, (length l < fuel)%nat ->
  match find_free_block_from kernel_heap fuel m total cur with
  | Found b => In b l /\ hdr_used m b = false /\ total <= hdr_size m b
  | NotFound => forall h, In h l -> negb (hdr_used m h) && (total <=? hdr_size m h) = false
  | Corrupted _ => False
  | Unbounded => False
  end.
Proof.
  induction 1 as [|a e l Hm Hs He Hb IH]; intros -> Hlo fuel Hf.
  - destruct fuel as [|fuel]; [cbn in Hf; lia|]. cbn [find_free_block_from].
    rewrite Z.ltb_irrefl. intros h [].
  - destruct fuel as [|fuel]; [cbn in Hf; lia|]. cbn [find_free_block_from].
    replace (a <? heap_end kernel_heap) with true
      by (symmetry; apply Z.ltb_lt; arith).
    rewrite Hm, Z.eqb_refl. cbn [negb].
    destruct (negb (hdr_used m a) && (total <=? hdr_size m a)) eqn:E.
    + apply andb_true_iff in E. destruct E as [E1 E2].
      apply negb_true_iff in E1. apply Z.leb_le in E2.
      repeat split; auto. now left.
    + rewrite wrap64_small
        by arith.
      specialize (IH eq_refl ltac:(arith) fuel
                     ltac:(cbn in Hf; lia)).
      destruct (find_free_block_from kernel_heap fuel m total (a + hdr_size m a));
        auto.
      * destruct IH as (? & ? & ?). repeat split; auto. now right.
      * intros h [<-|Hh]; auto.
  Qed.

Lemma arena_length m l : arena kernel_heap m l -> (length l < WALK_BOUND)%nat.
Proof.
  intros H. unfold arena in H. apply blocks_length in H. unfold WALK_BOUND.
  unfold heap_end in H.
  assert (KERNEL_HEAP_SIZE / HEADER_SIZE + 1 = 262145) as -> by reflexivity.
  unfold HEADER_SIZE, KERNEL_HEAP_SIZE in H. lia.
Qed.

Lemma find_free_block_spec m total l :
  arena kernel_heap m l ->
  match find_free_block kernel_heap m total with
  | Found b => In b l /\ hdr_used m b = false /\ total <= hdr_size m b
  | NotFound => forall h, In h l -> negb (hdr_used m h) && (total <=? hdr_size m h) = false
  | Corrupted _ => False
  | Unbounded => False
  end.
Proof.
  intros H. unfold find_free_block.
  apply (find_from_spec m total _ _ l H eq_refl heap_lo).
  exact (arena_length m l H).
Qed.

(** ** Marking, validating and merging blocks of a well-shaped arena *)

Lemma blocks_sep m a e l b h :
  blocks m a e l -> In b l -> In h l ->
  h = b \/ h + hdr_size m h <= b \/ b + hdr_size m b <= h.
Proof.
  intros H Hb Hh.
  destruct (blocks_split _ _ _ _ _ H Hb) as (l1 & l2 & -> & H1 & H2).
  apply in_app_or in Hh. destruct Hh as [Hh|[Hh|Hh]]; auto.
  - right; left. now apply (blocks_in _ _ _ _ _ H1 Hh).
  - right; right. now apply (blocks_in _ _ _ _ _ H2 Hh).
Qed.

Lemma blocks_far m a e l b h :
  blocks m a e l -> In b l -> In h l -> h <> b -> far b h.
Proof.
  intros H Hb Hh Hne.
  destruct (blocks_in _ _ _ _ _ H Hb) as (_ & _ & ? & _).
  destruct (blocks_in _ _ _ _ _ H Hh) as (_ & _ & ? & _).
  destruct (blocks_sep _ _ _ _ _ _ H Hb Hh) as [->|F]; [easy|].
  arith.
Qed.

Lemma arena_block m l b :
  arena kernel_heap m l -> In b l ->
  kernel_heap <= b /\ hdr_magic m b = ALLOC_MAGIC
  /\ HEADER_SIZE <= hdr_size m b /\ b + hdr_size m b <= heap_end kernel_heap.
Proof. intros H Hb. exact (blocks_in _ _ _ _ _ H Hb). Qed.

Lemma set_used_blocks m a e l b u :
  blocks m a e l -> In b l -> blocks (set_hdr_used m b u) a e l.
Proof.
  intros H Hb. apply (blocks_fields m); [exact H|]. intros h Hh.
  destruct (Z.eq_dec h b) as [->|Hne].
  - now hdr_simp.
  - pose proof (blocks_far _ _ _ _ _ _ H Hb Hh Hne). now hdr_simp.
Qed.

Lemma validate_block_arena m l b :
  arena kernel_heap m l -> In b l -> validate_block kernel_heap m b = true.
Proof.
  intros H Hb. destruct (arena_block _ _ _ H Hb) as (Hlo & Hm & Hs & He).
  pose proof (hdr_size_range m b) as Hr.
  unfold validate_block.
  rewrite Hm, Z.eqb_refl. cbn [negb].
  rewrite wrap64_small by arith.
  replace (b <? kernel_heap) with false by (symmetry; apply Z.ltb_ge; arith).
  replace (heap_end kernel_heap <=? b) with false
    by (symmetry; apply Z.leb_gt; arith).
  replace (hdr_size m b <? HEADER_SIZE) with false
    by (symmetry; apply Z.ltb_ge; arith).
  replace (heap_end kernel_heap <? b + hdr_size m b) with false
    by (symmetry; apply Z.ltb_ge; arith).
  reflexivity.
Qed.

(** The last block of the arena has no right neighbour to merge with. *)
Lemma merge_blocks_last m l1 b :
  arena kernel_heap m (l1 ++ [b]) -> merge_blocks kernel_heap m b = m.
Proof.
  intros H. destruct (blocks_mid _ _ _ _ _ _ H) as (_ & Hlo & _ & Hs & He & Hn).
  assert (b + hdr_size m b = heap_end kernel_heap) as Ha
    by (inversion Hn; congruence).
  unfold merge_blocks. rewrite Ha.
  rewrite wrap64_small by arith.
  now rewrite Z.leb_refl.
Qed.

(** A used right neighbour is left alone. *)
Lemma merge_blocks_used m l1 b n l2 :
  arena kernel_heap m (l1 ++ b :: n :: l2) -> hdr_used m n = true ->
  merge_blocks kernel_heap m b = m.
Proof.
  intros H Hu. destruct (blocks_mid _ _ _ _ _ _ H) as (_ & Hlo & _ & Hs & He & Hn).
  inversion Hn as [|? ? ? Hm' Hs' He' Hb']; subst.
  assert (In (b + hdr_size m b) (l1 ++ b :: b + hdr_size m b :: l2)) as Hin
    by (apply in_or_app; right; right; now left).
  unfold merge_blocks.
  rewrite wrap64_small by arith.
  replace (heap_end kernel_heap <=? b + hdr_size m b) with false
    by (symmetry; apply Z.leb_gt; arith).
  rewrite (validate_block_arena _ _ _ H Hin). cbn [negb].
  now rewrite Hu.
Qed.

(** A free right neighbour is absorbed and its magic invalidated. *)
Lemma merge_blocks_free m l1 b n l2 :
  arena kernel_heap m (l1 ++ b :: n :: l2) -> hdr_used m n = false ->
  let m' := set_hdr_magic (set_hdr_size m b (hdr_size m b + hdr_size m n)) n 0 in
  merge_blocks kernel_heap m b = m'
  /\ n = b + hdr_size m b
  /\ hdr_size m' b = hdr_size m b + hdr_size m n
  /\ hdr_magic m' n = 0
  /\ hdr_used m' b = hdr_used m b
  /\ arena kernel_heap m' (l1 ++ b :: l2).
Proof.
  intros H Hu m'.
  destruct (blocks_mid _ _ _ _ _ _ H) as (H1 & Hlo & Hm & Hs & He & Hn).
  inversion Hn as [|? ? ? Hm' Hs' He' Hb']; subst.
  set (n := b + hdr_size m b) in *.
  assert (In n (l1 ++ b :: n :: l2)) as Hin
    by (apply in_or_app; right; right; now left).
  pose proof (hdr_size_range m b) as Hr. pose proof (hdr_size_range m n) as Hr'.
  assert (far b n) as Fbn by arith.
  assert (far n b) as Fnb by arith.
  assert (heap_end kernel_heap < 2 ^ 64) as Hend by arith.
  assert (Hsz : hdr_size m' b = hdr_size m b + hdr_size m n).
  { unfold m'. hdr_simp. apply wrap64_small. unfold n in *. lia. }
  split; [|split; [reflexivity|split; [exact Hsz|split; [|split]]]].
  - unfold merge_blocks. fold n.
    rewrite wrap64_small by arith. fold n.
    replace (heap_end kernel_heap <=? n) with false
      by (symmetry; apply Z.leb_gt; arith).
    rewrite (validate_block_arena _ _ _ H Hin). cbn [negb].
    rewrite Hu. cbn [negb]. unfold m'.
    rewrite (wrap64_small (hdr_size m b + hdr_size m n)) by arith.
    reflexivity.
  - unfold m'. now hdr_simp.
  - unfold m'. now hdr_simp.
  - unfold arena. apply blocks_app. exists b. split.
    + apply (blocks_fields m); [exact H1|]. intros h Hh.
      destruct (blocks_in _ _ _ _ _ H1 Hh) as (_ & _ & ? & ?).
      assert (far b h) by arith.
      assert (far n h) by arith.
      unfold m'. now hdr_simp.
    + constructor.
      * unfold m'. now hdr_simp.
      * rewrite Hsz. arith.
      * rewrite Hsz. unfold n in *. lia.
      * rewrite Hsz. replace (b + (hdr_size m b + hdr_size m n))
          with (n + hdr_size m n) by arith.
        apply (blocks_fields m); [exact Hb'|]. intros h Hh.
        destruct (blocks_in _ _ _ _ _ Hb' Hh) as (? & _ & ? & ?).
        assert (far b h) by arith.
        assert (far n h) by arith.
        unfold m'. now hdr_simp.
Qed.

Lemma kfree_unfold s l b :
  heap_initialized s = true -> arena kernel_heap (memory s) l -> In b l ->
  hdr_used (memory s) b = true ->
  kfree kernel_heap (b + HEADER_SIZE) s =
    let m1 := set_hdr_used (memory s) b false in
    mkState (merge_blocks kernel_heap m1 b) true
            (wrap64 (heap_used s - hdr_size (memory s) b))
            (klog s) (dev_reads s).
Proof.
  intros Hi H Hb Hu. destruct (arena_block _ _ _ H Hb) as (Hlo & _).
  unfold kfree. rewrite Hi. cbn [negb].
  replace (b + HEADER_SIZE =? 0) with false by (symmetry; apply Z.eqb_neq; arith).
  cbn [orb]. replace (b + HEADER_SIZE - HEADER_SIZE) with b by lia.
  rewrite wrap64_small by (destruct (arena_block _ _ _ H Hb); arith).
  rewrite (validate_block_arena _ _ _ H Hb), Hu. cbn [negb].
  unfold set_memory, set_heap_used. cbn [memory heap_initialized heap_used klog dev_reads].
  rewrite Hi. now rewrite size_set_used.
Qed.

(** Freeing a used block of a well-shaped arena: the block becomes free,
    absorbs its right neighbour when that one is free, and nothing else
    changes. *)
Lemma kfree_live s l1 b l2 :
  heap_initialized s = true ->
  arena kernel_heap (memory s) (l1 ++ b :: l2) ->
  hdr_used (memory s) b = true ->
  let s' := kfree kernel_heap (b + HEADER_SIZE) s in
  exists l2',
    arena kernel_heap (memory s') (l1 ++ b :: l2')
    /\ heap_initialized s' = true /\ klog s' = klog s
    /\ dev_reads s' = dev_reads s
    /\ heap_used s' = wrap64 (heap_used s - hdr_size (memory s) b)
    /\ hdr_used (memory s') b = false
    /\ ((l2' = l2
         /\ hdr_size (memory s') b = hdr_size (memory s) b
         /\ (forall x, x < b \/ b + HEADER_SIZE <= x ->
                       memory s' x = memory s x)
         /\ match l2 with
            | n :: _ => hdr_used (memory s) n = true
            | [] => True
            end)
        \/ (exists n, l2 = n :: l2'
            /\ n = b + hdr_size (memory s) b
            /\ hdr_used (memory s) n = false
            /\ hdr_size (memory s') b
               = hdr_size (memory s) b + hdr_size (memory s) n
            /\ hdr_magic (memory s') n = 0
            /\ (forall x, x < b \/ b + HEADER_SIZE <= x ->
                          x < n \/ n + HEADER_SIZE <= x ->
                          memory s' x = memory s x))).
Proof.
  intros Hi H Hu s'.
  assert (In b (l1 ++ b :: l2)) as Hb by (apply in_or_app; right; now left).
  assert (Es : s' = _) by (exact (kfree_unfold _ _ _ Hi H Hb Hu)).
  cbv zeta in Es.
  set (m := memory s) in *. set (m1 := set_hdr_used m b false) in *.
  assert (H1 : arena kernel_heap m1 (l1 ++ b :: l2))
    by (now apply set_used_blocks).
  assert (Hu1 : hdr_used m1 b = false) by (unfold m1; now hdr_simp).
  assert (Hs1 : hdr_size m1 b = hdr_size m b) by (unfold m1; now hdr_simp).
  assert (Hf1 : forall x, x < b \/ b + HEADER_SIZE <= x -> m1 x = m x)
    by (intros; now apply set_hdr_used_out).
  destruct l2 as [|n l2'].
  - exists []. rewrite Es. cbn [memory heap_initialized heap_used klog dev_reads].
    rewrite (merge_blocks_last _ _ _ H1).
    repeat split; auto; left; repeat split; auto.
  - assert (In n (l1 ++ b :: n :: l2')) as Hn
      by (apply in_or_app; right; right; now left).
    assert (n = b + hdr_size m b) as En.
    { destruct (blocks_mid _ _ _ _ _ _ H) as (_ & _ & _ & _ & _ & Hrest).
      now inversion Hrest. }
    assert (far b n) as Fbn by (destruct (arena_block _ _ _ H Hb); arith).
    assert (Hun : hdr_used m1 n = hdr_used m n) by (unfold m1; now hdr_simp).
    assert (Hsn : hdr_size m1 n = hdr_size m n) by (unfold m1; now hdr_simp).
    destruct (hdr_used m n) eqn:Eu.
    + exists (n :: l2'). rewrite Es.
      cbn [memory heap_initialized heap_used klog dev_reads].
      rewrite (merge_blocks_used _ _ _ _ _ H1 Hun).
      repeat split; auto; left; repeat split; auto.
    + exists l2'. rewrite Es.
      cbn [memory heap_initialized heap_used klog dev_reads].
      destruct (merge_blocks_free _ _ _ _ _ H1 Hun)
        as (Em & _ & Hsz & Hmg & Hus & Har).
      rewrite Em. repeat split; auto; try congruence;
      right; exists n; repeat split; auto; try congruence.
      intros x Hx1 Hx2.
      rewrite set_hdr_magic_out, set_hdr_size_out by assumption.
      now apply Hf1.
Qed.

(** ** Allocation on a well-shaped arena *)

Lemma land_lnot15 x : Z.land x (Z.lnot 15) = 16 * (x / 16).
Proof.
  rewrite <- Z.ldiff_land. change 15 with (Z.ones 4).
  rewrite Z.ldiff_ones_r by lia.
  rewrite Z.shiftl_mul_pow2, Z.shiftr_div_pow2 by lia.
  change (2 ^ 4) with 16. lia.
Qed.

Lemma request_total_shape size :
  0 <= request_total size < 2 ^ 64
  /\ (request_total size = 0 \/ HEADER_SIZE <= request_total size).
Proof.
  unfold request_total. rewrite land_lnot15.
  set (k := wrap64 (size + 15) / 16). unfold wrap64, HEADER_SIZE.
  pose proof (Z.mod_pos_bound (16 * k + 16) (2 ^ 64) ltac:(lia)) as Hb.
  split; [exact Hb|].
  pose proof (Z.div_mod (16 * k + 16) (2 ^ 64) ltac:(lia)) as Hd.
  change (2 ^ 64) with (16 * 2 ^ 60) in Hd at 1.
  set (t := (16 * k + 16) mod 2 ^ 64) in *.
  set (q := (16 * k + 16) / 2 ^ 64) in *.
  assert (t = 16 * (k + 1 - 2 ^ 60 * q)) as Et by lia.
  destruct (Z.eq_dec (k + 1 - 2 ^ 60 * q) 0); lia.
Qed.

Lemma request_total_exact size :
  0 < size -> size + 31 < 2 ^ 64 ->
  size + HEADER_SIZE <= request_total size <= size + 31
  /\ request_total size mod 16 = 0.
Proof.
  intros H0 H1. unfold request_total. rewrite land_lnot15.
  rewrite (wrap64_small (size + 15)) by lia.
  pose proof (Z.div_mod (size + 15) 16 ltac:(lia)) as Hd.
  pose proof (Z.mod_pos_bound (size + 15) 16 ltac:(lia)) as Hm.
  unfold HEADER_SIZE. rewrite wrap64_small by lia.
  split; [lia|].
  replace (16 * ((size + 15) / 16) + 16) with (((size + 15) / 16 + 1) * 16) by lia.
  apply Z.mod_mul. lia.
Qed.

Lemma kmalloc_init_spec s :
  heap_initialized s = false ->
  let s' := kmalloc_init kernel_heap s in
  heap_initialized s' = true /\ heap_used s' = 0
  /\ arena kernel_heap (memory s') [kernel_heap]
  /\ hdr_used (memory s') kernel_heap = false
  /\ hdr_size (memory s') kernel_heap = KERNEL_HEAP_SIZE
  /\ dev_reads s' = dev_reads s.
Proof.
  intros Hi s'. unfold s', kmalloc_init. rewrite Hi.
  cbn [memory heap_initialized heap_used klog dev_reads kprintf set_memory
       set_heap_used set_heap_initialized].
  set (m0 := mem_fill (memory s) kernel_heap 0 KERNEL_HEAP_SIZE).
  assert (Hs : hdr_size (set_hdr_used (set_hdr_magic
                 (set_hdr_size m0 kernel_heap KERNEL_HEAP_SIZE)
                 kernel_heap ALLOC_MAGIC) kernel_heap false) kernel_heap
               = KERNEL_HEAP_SIZE).
  { hdr_simp. now apply wrap64_small. }
  repeat split; auto.
  - unfold arena. constructor.
    + hdr_simp. reflexivity.
    + rewrite Hs. arith.
    + rewrite Hs. arith.
    + rewrite Hs. constructor.
  - now hdr_simp.
Qed.

(** Carving a request of [total] bytes out of the arena block [b]. *)
Lemma split_block_spec m l1 b l2 total :
  arena kernel_heap m (l1 ++ b :: l2) ->
  0 <= total <= hdr_size m b ->
  HEADER_SIZE <= total \/ hdr_size m b < total + MIN_ALLOC_SIZE ->
  let m' := split_block m b total in
  hdr_used m' b = true
  /\ total <= hdr_size m' b <= hdr_size m b
  /\ (forall x, x < b \/ b + hdr_size m b <= x -> m' x = m x)
  /\ (forall x, b + HEADER_SIZE <= x < b + hdr_size m' b -> m' x = m x)
  /\ exists mid,
       arena kernel_heap m' (l1 ++ b :: mid ++ l2)
       /\ ((mid = [] /\ hdr_size m' b = hdr_size m b)
           \/ (mid = [b + total] /\ hdr_size m' b = total
               /\ hdr_used m' (b + total) = false
               /\ total + MIN_ALLOC_SIZE <= hdr_size m b)).
Proof.
  intros H Ht Hc. cbv zeta.
  destruct (blocks_mid _ _ _ _ _ _ H) as (H1 & Hlo & Hm & Hs & He & H2).
  pose proof (hdr_size_range m b) as Hr.
  assert (Hw : wrap64 (total + MIN_ALLOC_SIZE) = total + MIN_ALLOC_SIZE)
    by (apply wrap64_small; arith).
  unfold split_block. rewrite Hw.
  destruct (total + MIN_ALLOC_SIZE <=? hdr_size m b) eqn:E.
  - apply Z.leb_le in E. destruct Hc as [Hc|Hc]; [|lia].
    rewrite (wrap64_small (b + total)) by arith.
    rewrite (wrap64_small (hdr_size m b - total)) by arith.
    set (nb := b + total) in *.
    match goal with |- hdr_used ?M b = true /\ _ => set (m' := M) end.
    assert (far b nb) as F1 by (unfold nb; arith).
    assert (far nb b) as F2 by (unfold nb; arith).
    assert (Esb : hdr_size m' b = total)
      by (unfold m'; hdr_simp; apply wrap64_small; arith).
    assert (Esn : hdr_size m' nb = hdr_size m b - total)
      by (unfold m'; hdr_simp; apply wrap64_small; arith).
    assert (Emb : hdr_magic m' b = ALLOC_MAGIC) by (unfold m'; now hdr_simp).
    assert (Emn : hdr_magic m' nb = ALLOC_MAGIC)
      by (unfold m'; hdr_simp; reflexivity).
    assert (Hout : forall x, (x < b \/ b + HEADER_SIZE <= x) ->
                             (x < nb \/ nb + HEADER_SIZE <= x) -> m' x = m x).
    { intros x Hx1 Hx2. unfold m'.
      rewrite set_hdr_used_out, set_hdr_size_out, set_hdr_used_out,
        set_hdr_magic_out, set_hdr_size_out by assumption. reflexivity. }
    assert (Hfr : forall x, x < b \/ b + hdr_size m b <= x -> m' x = m x)
      by (intros x Hx; apply Hout; unfold nb; arith).
    split; [unfold m'; now hdr_simp|]. split; [lia|]. split; [exact Hfr|].
    split; [intros x Hx; apply Hout; unfold nb; arith|].
    exists [nb]. split.
    + unfold arena. apply blocks_app. exists b. split.
      * apply (blocks_frame_mem m); [exact H1|].
        intros x Hx. symmetry. apply Hfr. lia.
      * cbn [app]. constructor; try congruence; rewrite Esb; try arith.
        fold nb. constructor; try congruence; rewrite Esn; try (unfold nb; arith).
        replace (nb + (hdr_size m b - total)) with (b + hdr_size m b)
          by (unfold nb; lia).
        apply (blocks_frame_mem m); [exact H2|].
        intros x Hx. symmetry. apply Hfr. lia.
    + right. repeat split; auto. unfold m'. now hdr_simp.
  - apply Z.leb_gt in E.
    match goal with |- hdr_used ?M b = true /\ _ => set (m' := M) end.
    assert (Esb : hdr_size m' b = hdr_size m b) by (unfold m'; now hdr_simp).
    assert (Hout : forall x, x < b \/ b + HEADER_SIZE <= x -> m' x = m x)
      by (intros; now apply set_hdr_used_out).
    split; [unfold m'; now hdr_simp|]. split; [lia|].
    split; [intros x Hx; apply Hout; arith|].
    split; [intros x Hx; apply Hout; arith|].
    exists []. split; [|left; now split].
    apply set_used_blocks; [exact H|]. apply in_or_app; right; now left.
Qed.

Definition oom_entry (size : Z) : log_entry :=
  Kerr "MM: Failed to allocate %zu bytes (out of memory)\n"
       [LInt (Z.land (wrap64 (size + 15)) (Z.lnot 15))].

(** [kmalloc] on an initialised, well-shaped arena: it returns NULL and
    only reports, or it returns the payload of a block that was free and
    large enough, after [split_block]. *)
Lemma kmalloc_live s l size :
  heap_initialized s = true -> arena kernel_heap (memory s) l -> size <> 0 ->
  exists p s',
    kmalloc kernel_heap size s = Done p s'
    /\ heap_initialized s' = true /\ dev_reads s' = dev_reads s
    /\ ((p = 0 /\ memory s' = memory s /\ heap_used s' = heap_used s
         /\ klog s' = oom_entry size :: klog s)
        \/ (exists l1 b l2,
              p = b + HEADER_SIZE /\ l = l1 ++ b :: l2
              /\ hdr_used (memory s) b = false
              /\ request_total size <= hdr_size (memory s) b
              /\ memory s' = split_block (memory s) b (request_total size)
              /\ heap_used s' = wrap64 (heap_used s + hdr_size (memory s') b)
              /\ klog s' = klog s)).
Proof.
  intros Hi H Hne. unfold kmalloc.
  replace (size =? 0) with false by (symmetry; now apply Z.eqb_neq).
  rewrite Hi. fold (request_total size).
  pose proof (find_free_block_spec (memory s) (request_total size) l H) as Hf.
  destruct (find_free_block kernel_heap (memory s) (request_total size))
    as [b| | |]; try contradiction.
  - destruct Hf as (Hb & Hu & Ht).
    destruct (arena_block _ _ _ H Hb) as (Hlo & _ & Hs & He).
    destruct (in_split _ _ Hb) as (l1 & l2 & El).
    rewrite wrap64_small by arith.
    eexists _, _. split; [reflexivity|]. cbn. rewrite Hi.
    repeat split; auto. right. exists l1, b, l2. repeat split; auto.
  - eexists _, _. split; [reflexivity|]. cbn. rewrite Hi.
    repeat split; auto.
Qed.

(** The same for a request whose rounded size does not wrap around: the
    arena stays well shaped and the new block is at least as large as the
    request. *)
Lemma kmalloc_ok s l size :
  heap_initialized s = true -> arena kernel_heap (memory s) l ->
  0 < size -> size + 31 < 2 ^ 64 ->
  exists p s',
    kmalloc kernel_heap size s = Done p s'
    /\ heap_initialized s' = true /\ dev_reads s' = dev_reads s
    /\ ((p = 0 /\ memory s' = memory s /\ heap_used s' = heap_used s
         /\ klog s' = oom_entry size :: klog s)
        \/ (exists l1 b mid l2,
              p = b + HEADER_SIZE /\ l = l1 ++ b :: l2
              /\ hdr_used (memory s) b = false
              /\ arena kernel_heap (memory s') (l1 ++ b :: mid ++ l2)
              /\ hdr_used (memory s') b = true
              /\ size + HEADER_SIZE <= hdr_size (memory s') b <= hdr_size (memory s) b
              /\ (forall x, x < b \/ b + hdr_size (memory s) b <= x ->
                            memory s' x = memory s x)
              /\ (forall x, b + HEADER_SIZE <= x < b + hdr_size (memory s') b ->
                            memory s' x = memory s x)
              /\ (forall h, In h mid ->
                    hdr_used (memory s') h = false
                    /\ b + hdr_size (memory s') b <= h
                    /\ h + HEADER_SIZE <= b + hdr_size (memory s) b)
              /\ heap_used s' = wrap64 (heap_used s + hdr_size (memory s') b)
              /\ klog s' = klog s)).
Proof.
  intros Hi H H0 H1.
  destruct (kmalloc_live s l size Hi H ltac:(lia))
    as (p & s' & E & Hi' & Hd & [Hnull|(l1 & b & l2 & Ep & El & Hu & Ht & Em & Ehu & Elog)]).
  - exists p, s'. repeat split; auto.
  - exists p, s'. repeat split; auto. right.
    destruct (request_total_exact size H0 H1) as (Hrt & _).
    subst l.
    destruct (split_block_spec (memory s) l1 b l2 (request_total size) H
                ltac:(arith) ltac:(left; arith))
      as (Hused & Hsz & Hfr & Hpay & mid & Har & Hmid).
    rewrite <- Em in *.
    assert (Hmidp : forall h, In h mid ->
              hdr_used (memory s') h = false
              /\ b + hdr_size (memory s') b <= h
              /\ h + HEADER_SIZE <= b + hdr_size (memory s) b).
    { intros h Hh.
      destruct Hmid as [(-> & _)|(-> & Es & Hf & Hle)]; [destruct Hh|].
      destruct Hh as [<-|[]]. repeat split; auto; arith. }
    exists l1, b, mid, l2.
    split; [exact Ep|]. split; [reflexivity|]. split; [exact Hu|].
    split; [exact Har|]. split; [exact Hused|]. split; [lia|].
    split; [exact Hfr|]. split; [exact Hpay|]. split; [exact Hmidp|].
    split; [exact Ehu|exact Elog].
Qed.

(** ** What allocation and release leave untouched *)

Lemma block_bytes_same_fields m m' h :
  HEADER_SIZE <= hdr_size m h -> block_bytes_same m m' h ->
  hdr_size m' h = hdr_size m h /\ hdr_magic m' h = hdr_magic m h
  /\ hdr_used m' h = hdr_used m h.
Proof.
  intros Hs Hb. apply hdr_agree_fields. intros x Hx. symmetry. apply Hb. lia.
Qed.

Lemma block_bytes_same_trans m1 m2 m3 h :
  HEADER_SIZE <= hdr_size m1 h ->
  block_bytes_same m1 m2 h -> block_bytes_same m2 m3 h ->
  block_bytes_same m1 m3 h.
Proof.
  intros Hs H12 H23 x Hx.
  destruct (block_bytes_same_fields _ _ _ Hs H12) as (Es & _).
  rewrite H23 by (rewrite Es; exact Hx). now apply H12.
Qed.

(** [kmalloc] for a request that does not wrap: used blocks keep all
    their bytes, and the used blocks afterwards are the former ones plus
    the new one. *)
Lemma kmalloc_frame s l size :
  heap_initialized s = true -> arena kernel_heap (memory s) l ->
  0 < size -> size + 31 < 2 ^ 64 ->
  exists p s',
    kmalloc kernel_heap size s = Done p s'
    /\ heap_initialized s' = true /\ dev_reads s' = dev_reads s
    /\ ((p = 0 /\ memory s' = memory s /\ heap_used s' = heap_used s)
        \/ (exists l' b,
              p = b + HEADER_SIZE
              /\ arena kernel_heap (memory s') l'
              /\ In b l /\ In b l'
              /\ hdr_used (memory s) b = false
              /\ hdr_used (memory s') b = true
              /\ size + HEADER_SIZE <= hdr_size (memory s') b
              /\ heap_used s' = wrap64 (heap_used s + hdr_size (memory s') b)
              /\ klog s' = klog s
              /\ (forall x, b + HEADER_SIZE <= x < b + hdr_size (memory s') b ->
                            memory s' x = memory s x)
              /\ (forall h, In h l -> hdr_used (memory s) h = true ->
                    In h l' /\ block_bytes_same (memory s) (memory s') h)
              /\ (forall h, In h l' -> hdr_used (memory s') h = true ->
                    h = b \/ (In h l /\ hdr_used (memory s) h = true)))).
Proof.
  intros Hi H H0 H1.
  destruct (kmalloc_ok s l size Hi H H0 H1)
    as (p & s' & E & Hi' & Hd & [(-> & Em & Eu & _)|Hcase]).
  - exists 0, s'. repeat split; auto.
  - destruct Hcase as (l1 & b & mid & l2 & -> & -> & Hu & Har & Hus & Hsz
                       & Hfr & Hpay & Hmid & Ehu & Elog).
    exists (b + HEADER_SIZE), s'. repeat split; auto. right.
    exists (l1 ++ b :: mid ++ l2), b.
    assert (Hb : In b (l1 ++ b :: l2)) by (apply in_or_app; right; now left).
    destruct (blocks_mid _ _ _ _ _ _ H) as (B1 & _ & _ & _ & _ & B2).
    assert (Hold : forall h, In h (l1 ++ b :: l2) ->
              hdr_used (memory s) h = true ->
              In h (l1 ++ b :: mid ++ l2)
              /\ block_bytes_same (memory s) (memory s') h).
    { intros h Hh Huh. split.
      - apply in_app_or in Hh. apply in_or_app.
        destruct Hh as [?|[->|?]]; [now left|congruence|].
        right; right. apply in_or_app. now right.
      - intros x Hx. apply Hfr.
        destruct (blocks_sep _ _ _ _ _ _ H Hb Hh) as [->|F]; [congruence|].
        destruct (arena_block _ _ _ H Hh) as (_ & _ & ? & _). arith. }
    assert (Hnew : forall h, In h (l1 ++ b :: mid ++ l2) ->
              hdr_used (memory s') h = true ->
              h = b \/ (In h (l1 ++ b :: l2) /\ hdr_used (memory s) h = true)).
    { intros h Hh Huh.
      destruct (Z.eq_dec h b) as [->|Hne]; [now left|right].
      apply in_app_or in Hh. destruct Hh as [Hin|[->|Hin]]; try congruence.
      - split; [apply in_or_app; now left|].
        destruct (blocks_in _ _ _ _ _ B1 Hin) as (_ & _ & ? & ?).
        destruct (hdr_agree_fields (memory s) (memory s') h) as (_ & _ & <-); auto.
        intros x Hx. symmetry. apply Hfr. arith.
      - apply in_app_or in Hin. destruct Hin as [Hin|Hin].
        + destruct (Hmid _ Hin). congruence.
        + split; [apply in_or_app; right; now right|].
          destruct (blocks_in _ _ _ _ _ B2 Hin) as (? & _ & ? & ?).
          destruct (hdr_agree_fields (memory s) (memory s') h) as (_ & _ & <-); auto.
          intros x Hx. symmetry. apply Hfr. arith. }
    split; [reflexivity|]. split; [exact Har|]. split; [exact Hb|].
    split; [apply in_or_app; right; now left|].
    split; [exact Hu|]. split; [exact Hus|]. split; [lia|].
    split; [exact Ehu|]. split; [exact Elog|]. split; [exact Hpay|].
    split; [exact Hold|exact Hnew].
Qed.

(** [kfree] of a used arena block: the other used blocks keep all their
    bytes, and the used blocks afterwards are the former ones minus the
    freed one. *)
Lemma kfree_frame s l a :
  heap_initialized s = true -> arena kernel_heap (memory s) l ->
  In a l -> hdr_used (memory s) a = true ->
  let s' := kfree kernel_heap (a + HEADER_SIZE) s in
  exists l',
    arena kernel_heap (memory s') l'
    /\ heap_initialized s' = true /\ klog s' = klog s
    /\ dev_reads s' = dev_reads s
    /\ heap_used s' = wrap64 (heap_used s - hdr_size (memory s) a)
    /\ In a l' /\ hdr_used (memory s') a = false
    /\ (forall h, In h l -> hdr_used (memory s) h = true -> h <> a ->
          In h l' /\ block_bytes_same (memory s) (memory s') h)
    /\ (forall h, In h l' -> hdr_used (memory s') h = true ->
          In h l /\ hdr_used (memory s) h = true /\ h <> a).
Proof.
  intros Hi H Ha Hu s'.
  destruct (blocks_split _ _ _ _ _ H Ha) as (l1 & l2 & -> & B1 & B2).
  destruct (kfree_live s l1 a l2 Hi H Hu)
    as (l2' & Har & Hi' & Hlog & Hdev & Ehu & Hfree & Hcase).
  fold s' in Har, Hi', Hlog, Hdev, Ehu, Hfree, Hcase.
  exists (l1 ++ a :: l2').
  assert (Ha' : In a (l1 ++ a :: l2')) by (apply in_or_app; right; now left).
  destruct (arena_block _ _ _ H Ha) as (_ & _ & Hsa & Hea).
  split; [exact Har|]. split; [exact Hi'|]. split; [exact Hlog|].
  split; [exact Hdev|]. split; [exact Ehu|]. split; [exact Ha'|].
  split; [exact Hfree|].
  destruct Hcase as [(-> & Hsz & Hfr & _)|(n & -> & En & Hun & Hsz & Hmg & Hfr)].
  - split.
    + intros h Hh Huh Hne. split; [exact Hh|].
      intros x Hx. apply Hfr.
      destruct (blocks_sep _ _ _ _ _ _ H Ha Hh) as [->|F]; [congruence|].
      destruct (arena_block _ _ _ H Hh) as (_ & _ & ? & _). arith.
    + intros h Hh Huh.
      assert (h <> a) as Hne by (intros ->; congruence).
      split; [exact Hh|]. split; [|exact Hne].
      destruct (hdr_agree_fields (memory s) (memory s') h) as (_ & _ & <-); auto.
      intros x Hx. symmetry. apply Hfr.
      pose proof (blocks_far _ _ _ _ _ _ H Ha Hh Hne). arith.
  - assert (Hn : In n (l1 ++ a :: n :: l2'))
      by (apply in_or_app; right; right; now left).
    destruct (arena_block _ _ _ H Hn) as (_ & _ & Hsn & Hen).
    split.
    + intros h Hh Huh Hne.
      assert (h <> n) as Hnn by (intros ->; congruence).
      split.
      * apply in_app_or in Hh. apply in_or_app.
        destruct Hh as [?|[?|[?|?]]]; try congruence; [now left|now right; right].
      * intros x Hx. destruct (arena_block _ _ _ H Hh) as (_ & _ & ? & _).
        apply Hfr.
        -- destruct (blocks_sep _ _ _ _ _ _ H Ha Hh) as [->|F]; [congruence|]. arith.
        -- destruct (blocks_sep _ _ _ _ _ _ H Hn Hh) as [->|F]; [congruence|]. arith.
    + intros h Hh Huh.
      assert (h <> a) as Hne by (intros ->; congruence).
      assert (In h (l1 ++ a :: n :: l2')) as Hh0.
      { apply in_app_or in Hh. apply in_or_app.
        destruct Hh as [?|[?|?]]; [now left|congruence|now right; right; right]. }
      assert (h <> n) as Hnn.
      { intros ->. destruct (arena_block _ _ _ Har Hh) as (_ & Hmh & _).
        rewrite Hmg in Hmh. discriminate. }
      split; [exact Hh0|]. split; [|exact Hne].
      destruct (hdr_agree_fields (memory s) (memory s') h) as (_ & _ & <-); auto.
      intros x Hx. symmetry.
      pose proof (blocks_far _ _ _ _ _ _ H Ha Hh0 Hne).
      pose proof (blocks_far _ _ _ _ _ _ H Hn Hh0 Hnn).
      apply Hfr; arith.
Qed.

(** Writing only into the payload of one block leaves the arena, and
    every other block, as they were. *)
Lemma payload_write_frame m m' l b :
  arena kernel_heap m l -> In b l ->
  (forall x, kernel_heap <= x < heap_end kernel_heap ->
             x < b + HEADER_SIZE \/ b + hdr_size m b <= x -> m' x = m x) ->
  arena kernel_heap m' l
  /\ (forall h, In h l -> hdr_agree m m' h)
  /\ (forall h, In h l -> h <> b -> block_bytes_same m m' h).
Proof.
  intros H Hb Hfr.
  assert (Hag : forall h, In h l -> hdr_agree m m' h).
  { intros h Hh x Hx. symmetry.
    destruct (arena_block _ _ _ H Hh) as (? & _ & ? & ?).
    apply Hfr; [arith|].
    destruct (blocks_sep _ _ _ _ _ _ H Hb Hh) as [->|F]; arith. }
  split; [apply (blocks_frame m); assumption|]. split; [exact Hag|].
  intros h Hh Hne x Hx.
  destruct (arena_block _ _ _ H Hh) as (? & _ & ? & ?).
  apply Hfr; [arith|].
  destruct (blocks_sep _ _ _ _ _ _ H Hb Hh) as [->|F]; [congruence|]. arith.
Qed.

Lemma in_range_inside p n x :
  p <= x < p + n -> n <= 2 ^ 64 -> in_range p n x = true.
Proof.
  intros Hx Hn. unfold in_range. apply Z.ltb_lt.
  rewrite wrap64_small; lia.
Qed.

Lemma in_range_outside p n x :
  0 <= p -> 0 <= n -> 0 <= x < 2 ^ 64 -> p + n <= 2 ^ 64 ->
  x < p \/ p + n <= x -> in_range p n x = false.
Proof.
  intros Hp Hn0 Hx Hn Ho. unfold in_range. apply Z.ltb_ge.
  destruct (Z.lt_ge_cases x p).
  - unfold wrap64. rewrite <- (Z.mod_add (x - p) 1 (2 ^ 64)) by lia.
    rewrite Z.mod_small; lia.
  - rewrite wrap64_small; lia.
Qed.

(** [memcpy] between two disjoint, non-null regions. *)
Lemma memcpy_disjoint dst src n s :
  0 < dst -> 0 < src -> 0 <= n -> dst + n < 2 ^ 64 -> src + n < 2 ^ 64 ->
  dst + n <= src \/ src + n <= dst ->
  let s' := memcpy dst src n s in
  heap_initialized s' = heap_initialized s /\ heap_used s' = heap_used s
  /\ klog s' = klog s /\ dev_reads s' = dev_reads s
  /\ (forall i, 0 <= i < n -> memory s' (dst + i) = memory s (src + i))
  /\ (forall x, 0 <= x < 2 ^ 64 -> x < dst \/ dst + n <= x ->
                memory s' x = memory s x).
Proof.
  intros Hd Hs Hn Hdn Hsn Hdis. unfold memcpy.
  replace ((dst =? 0) || (src =? 0)) with false
    by (symmetry; apply orb_false_iff; split; apply Z.eqb_neq; lia).
  destruct (n =? 0) eqn:E0.
  - apply Z.eqb_eq in E0. cbv zeta. repeat split; auto. intros; lia.
  - apply Z.eqb_neq in E0.
    rewrite !wrap64_small by lia.
    replace ((dst <=? src) && (src <? dst + n) || (src <=? dst) && (dst <? src + n))
      with false.
    2:{ symmetry. apply orb_false_iff. split; apply andb_false_iff.
        - destruct Hdis; [right; apply Z.ltb_ge|left; apply Z.leb_gt]; lia.
        - destruct Hdis; [left; apply Z.leb_gt|right; apply Z.ltb_ge]; lia. }
    cbv zeta. cbn [set_memory memory heap_initialized heap_used klog dev_reads].
    repeat split; auto.
    + intros i Hi. unfold mem_copy.
      rewrite in_range_inside by lia.
      replace (dst + i - dst) with i by lia.
      rewrite (wrap64_small i) by lia. now rewrite wrap64_small by lia.
    + intros x Hx Ho. unfold mem_copy.
      now rewrite in_range_outside by lia.
Qed.

(** ** Freeing two adjacent allocations *)

(** C1 (as amended).  Two adjacent live blocks [a] and [b] (with [b] the
    right neighbour of [a]) are freed.  When [b] is freed first and [a]
    second, [a] becomes one free block that starts at [a], covers both
    original extents (and the free block that followed [b], if any, which
    [b] absorbed), and [b]'s header is invalidated.  When [a] is freed
    first and [b] second, no merge of the two happens: [a] and [b] remain
    two separate free blocks, because [kfree] merges with the right
    neighbour only. *)
Theorem kfree_adjacent_pair s l1 a b l2 :
  heap_initialized s = true ->
  arena kernel_heap (memory s) (l1 ++ a :: b :: l2) ->
  hdr_used (memory s) a = true ->
  hdr_used (memory s) b = true ->
  (let s2 := kfree kernel_heap (a + HEADER_SIZE)
               (kfree kernel_heap (b + HEADER_SIZE) s) in
   one_free_block_spans kernel_heap (memory s2) a (b + hdr_size (memory s) b)
   /\ hdr_used (memory s2) a = false
   /\ hdr_magic (memory s2) b = 0
   /\ hdr_size (memory s) a + hdr_size (memory s) b <= hdr_size (memory s2) a
   /\ exists l2', arena kernel_heap (memory s2) (l1 ++ a :: l2')
                  /\ (l2' = l2 \/ exists n, l2 = n :: l2'))
  /\
  (let s2 := kfree kernel_heap (b + HEADER_SIZE)
               (kfree kernel_heap (a + HEADER_SIZE) s) in
   hdr_used (memory s2) a = false /\ hdr_used (memory s2) b = false
   /\ hdr_size (memory s2) a = hdr_size (memory s) a
   /\ hdr_magic (memory s2) b = ALLOC_MAGIC
   /\ exists l2', arena kernel_heap (memory s2) (l1 ++ a :: b :: l2')).
Proof.
  intros Hi H Hua Hub.
  destruct (blocks_mid _ _ _ _ _ _ H) as (_ & Hlo & Hma & Hsa & Hea & Hrest).
  assert (Eb : b = a + hdr_size (memory s) a) by (now inversion Hrest).
  assert (Hsb : HEADER_SIZE <= hdr_size (memory s) b)
    by (inversion Hrest; subst; assumption).
  assert (Fa : forall m', (forall x, x < b -> m' x = memory s x) ->
                          hdr_agree (memory s) m' a).
  { intros m' Hm' x Hx. symmetry. apply Hm'. arith. }
  split.
  - (* right block first *)
    assert (H' : arena kernel_heap (memory s) ((l1 ++ [a]) ++ b :: l2))
      by (now rewrite <- app_assoc).
    destruct (kfree_live s _ _ _ Hi H' Hub)
      as (l2' & Har1 & Hi1 & _ & _ & _ & Hfb & Hcase).
    set (s1 := kfree kernel_heap (b + HEADER_SIZE) s) in *.
    rewrite <- app_assoc in Har1. cbn [app] in Har1.
    assert (Hag : hdr_agree (memory s) (memory s1) a).
    { apply Fa. intros x Hx.
      destruct Hcase as [(_ & _ & Hf & _)|(n & _ & En & _ & _ & _ & Hf)];
        apply Hf; arith. }
    destruct (hdr_agree_fields _ _ _ Hag) as (Esa & _ & Eua).
    assert (Hsb1 : hdr_size (memory s) b <= hdr_size (memory s1) b).
    { destruct Hcase as [(_ & -> & _)|(n & -> & _ & _ & -> & _)]; [lia|].
      pose proof (hdr_size_range (memory s) n). lia. }
    destruct (kfree_live s1 _ _ _ Hi1 Har1 ltac:(congruence))
      as (l3 & Har2 & _ & _ & _ & _ & Hfa & Hcase2).
    destruct Hcase2 as [(_ & _ & _ & Hc)|(n & En & _ & _ & Hsz & Hmg & _)];
      [congruence|].
    injection En as <- <-.
    repeat split; auto.
    + exists (l1 ++ a :: l2'), a. repeat split; auto.
      * apply in_or_app; right; now left.
      * lia.
      * rewrite Hsz, Esa. lia.
    + rewrite Hsz, Esa. lia.
    + exists l2'. split; [exact Har2|].
      destruct Hcase as [(-> & _)|(n & -> & _)]; [now left|right; now exists n].
  - (* left block first *)
    destruct (kfree_live s _ _ _ Hi H Hua)
      as (l2' & Har1 & Hi1 & _ & _ & _ & Hfa & Hcase).
    set (s1 := kfree kernel_heap (a + HEADER_SIZE) s) in *.
    destruct Hcase as [(-> & Hsz1 & Hf1 & _)|(n & En & _ & Hc & _)];
      [|injection En as <- <-; congruence].
    assert (Hagb : hdr_agree (memory s) (memory s1) b).
    { intros x Hx. symmetry. apply Hf1. arith. }
    destruct (hdr_agree_fields _ _ _ Hagb) as (Esb & Emb & Eub).
    assert (H1' : arena kernel_heap (memory s1) ((l1 ++ [a]) ++ b :: l2))
      by (now rewrite <- app_assoc).
    destruct (kfree_live s1 _ _ _ Hi1 H1' ltac:(congruence))
      as (l3 & Har2 & _ & _ & _ & _ & Hfb & Hcase2).
    set (s2 := kfree kernel_heap (b + HEADER_SIZE) s1) in *.
    rewrite <- app_assoc in Har2. cbn [app] in Har2.
    assert (Hag : hdr_agree (memory s1) (memory s2) a).
    { intros x Hx. symmetry.
      destruct Hcase2 as [(_ & _ & Hf & _)|(n & _ & En & _ & _ & _ & Hf)];
        apply Hf; arith. }
    destruct (hdr_agree_fields _ _ _ Hag) as (Esa & _ & Eua).
    destruct (blocks_mid _ _ _ _ _ _ Har2) as (_ & _ & _ & _ & _ & Hr2).
    repeat split; try congruence.
    + now inversion Hr2.
    + now exists l3.
Qed.

(** ** Double free *)

Definition double_free_entry (ptr : Z) : log_entry :=
  Kerr "MM: Double free detected at 0x%p\n" [LInt ptr].
Definition invalid_free_entry (ptr : Z) : log_entry :=
  Kerr "MM: Attempt to free invalid memory at 0x%p\n" [LInt ptr].

Lemma kfree_double s l b :
  heap_initialized s = true -> arena kernel_heap (memory s) l -> In b l ->
  hdr_used (memory s) b = false ->
  kfree kernel_heap (b + HEADER_SIZE) s
  = kerr "MM: Double free detected at 0x%p\n" [LInt (b + HEADER_SIZE)] s.
Proof.
  intros Hi H Hb Hu. destruct (arena_block _ _ _ H Hb) as (Hlo & _ & Hs & He).
  unfold kfree. rewrite Hi. cbn [negb].
  replace (b + HEADER_SIZE =? 0) with false by (symmetry; apply Z.eqb_neq; arith).
  cbn [orb]. replace (b + HEADER_SIZE - HEADER_SIZE) with b by lia.
  rewrite wrap64_small by arith.
  now rewrite (validate_block_arena _ _ _ H Hb), Hu.
Qed.

Lemma kfree_invalid s b :
  heap_initialized s = true -> 0 <= b -> b + HEADER_SIZE < 2 ^ 64 ->
  validate_block kernel_heap (memory s) b = false ->
  kfree kernel_heap (b + HEADER_SIZE) s
  = kerr "MM: Attempt to free invalid memory at 0x%p\n" [LInt (b + HEADER_SIZE)] s.
Proof.
  intros Hi Hlo Hhi Hv. unfold kfree. rewrite Hi. cbn [negb].
  replace (b + HEADER_SIZE =? 0) with false by (symmetry; apply Z.eqb_neq; arith).
  cbn [orb]. replace (b + HEADER_SIZE - HEADER_SIZE) with b by lia.
  rewrite wrap64_small by arith. now rewrite Hv.
Qed.

Lemma kmalloc_after_init s size :
  heap_initialized s = false -> size <> 0 ->
  kmalloc kernel_heap size s
  = kmalloc kernel_heap size (kmalloc_init kernel_heap s).
Proof.
  intros Hi Hne. unfold kmalloc.
  replace (size =? 0) with false by (symmetry; now apply Z.eqb_neq).
  rewrite Hi.
  destruct (kmalloc_init_spec s Hi) as (-> & _). reflexivity.
Qed.

(** A request whose total wraps to zero, served by a block large enough
    to be split, leaves that block with a zero size field. *)
Lemma split_block_zero m b :
  MIN_ALLOC_SIZE <= hdr_size m b -> 0 <= b < 2 ^ 64 ->
  hdr_size (split_block m b 0) b = 0.
Proof.
  intros Hs Hb. unfold split_block.
  rewrite (wrap64_small (0 + MIN_ALLOC_SIZE)) by arith.
  replace (0 + MIN_ALLOC_SIZE <=? hdr_size m b) with true
    by (symmetry; apply Z.leb_le; lia).
  rewrite Z.add_0_r, (wrap64_small b) by lia.
  hdr_simp. reflexivity.
Qed.

Lemma log_grows (e : log_entry) (l : list log_entry) : e :: l <> l.
Proof.
  intros H. apply (f_equal (@length _)) in H. cbn in H. lia.
Qed.

(** C4.  On a heap that is uninitialised or well shaped, let [kmalloc]
    return a non-null [p] for a request of [size] > 0 bytes and let the
    first [kfree p] be accepted (it reports nothing).  Then a second
    [kfree p] takes the double-free exit: it only appends the report
    "Double free detected" and changes neither the byte store (so no size,
    used flag or magic of any block) nor the used-byte counter. *)
Theorem double_free_detected s size p s1 :
  heap_initialized s = false \/ heap_wf kernel_heap s ->
  0 < size < 2 ^ 64 ->
  kmalloc kernel_heap size s = Done p s1 ->
  p <> 0 ->
  klog (kfree kernel_heap p s1) = klog s1 ->
  let s2 := kfree kernel_heap p s1 in
  kfree kernel_heap p s2 = kerr "MM: Double free detected at 0x%p\n" [LInt p] s2
  /\ memory (kfree kernel_heap p s2) = memory s2
  /\ heap_used (kfree kernel_heap p s2) = heap_used s2
  /\ klog (kfree kernel_heap p s2) = double_free_entry p :: klog s2.
Proof.
  intros Hpre Hsz Hk Hp Hacc s2.
  assert (Hgoal : kfree kernel_heap p s2
                  = kerr "MM: Double free detected at 0x%p\n" [LInt p] s2);
    [|rewrite Hgoal; repeat split; reflexivity].
  assert (exists s0 l, heap_initialized s0 = true
            /\ arena kernel_heap (memory s0) l
            /\ kmalloc kernel_heap size s0 = Done p s1) as (s0 & l & Hi & H & Hk0).
  { destruct Hpre as [Hi|(Hi & _ & l & H)].
    - destruct (kmalloc_init_spec s Hi) as (Hi' & _ & H & _).
      exists (kmalloc_init kernel_heap s), [kernel_heap].
      repeat split; auto. rewrite <- kmalloc_after_init; auto; lia.
    - exists s, l. auto. }
  destruct (kmalloc_live s0 l size Hi H ltac:(lia))
    as (p' & s1' & E & Hi1 & _ & Hcase).
  rewrite Hk0 in E. injection E as <- <-.
  destruct Hcase as [(-> & _)|(l1 & b & l2 & -> & -> & Hu & Ht & Em & _ & _)];
    [contradiction|].
  destruct (blocks_mid _ _ _ _ _ _ H) as (_ & Hlo & _ & Hs & He & _).
  pose proof (hdr_size_range (memory s0) b) as Hr.
  destruct (request_total_shape size) as (Hrt & Hshape).
  assert (HEADER_SIZE <= request_total size
          \/ hdr_size (memory s0) b < request_total size + MIN_ALLOC_SIZE
          \/ (request_total size = 0 /\ MIN_ALLOC_SIZE <= hdr_size (memory s0) b))
    as [Hc|[Hc|(Hz & Hbig)]] by lia.
  3:{ (* the wrapped request: the first free is rejected *)
      exfalso. assert (Hv : validate_block kernel_heap (memory s1) b = false).
      { unfold validate_block. rewrite Em, Hz, split_block_zero by arith.
        replace (0 <? HEADER_SIZE) with true by reflexivity.
        cbn [orb].
        repeat match goal with
               | |- context [if ?c then _ else _] => destruct c
               end; reflexivity. }
      rewrite (kfree_invalid s1 b Hi1 ltac:(lia) ltac:(arith) Hv) in Hacc.
      exact (log_grows _ _ Hacc). }
  all: destruct (split_block_spec (memory s0) l1 b l2 (request_total size) H
                   ltac:(lia) ltac:(tauto))
         as (Hused & _ & _ & _ & mid & Har & _);
       rewrite <- Em in *;
       destruct (kfree_live s1 l1 b (mid ++ l2) Hi1 Har Hused)
         as (l2' & Har2 & Hi2 & _ & _ & _ & Hfree & _);
       fold s2 in Har2, Hi2, Hfree;
       apply (kfree_double s2 _ b Hi2 Har2); [|exact Hfree];
       apply in_or_app; right; now left.
Qed.

(** ** Resizing an allocation *)

Lemma krealloc_live_unfold s l p n :
  heap_initialized s = true -> arena kernel_heap (memory s) l ->
  live (memory s) l p -> n <> 0 ->
  krealloc kernel_heap p n s =
    if n <=? capacity (memory s) p then Done p s
    else match kmalloc kernel_heap n s with
         | Trap t => Trap t
         | Done q s1 =>
             if q =? 0 then Done 0 s1
             else Done q (kfree kernel_heap p
                            (memcpy q p (capacity (memory s) p) s1))
         end.
Proof.
  intros Hi H (Ha & Hu) Hn.
  destruct (arena_block _ _ _ H Ha) as (Hlo & _ & Hs & He).
  pose proof (hdr_size_range (memory s) (p - HEADER_SIZE)).
  unfold krealloc, capacity.
  replace (p =? 0) with false by (symmetry; apply Z.eqb_neq; arith).
  replace (n =? 0) with false by (symmetry; now apply Z.eqb_neq).
  rewrite (wrap64_small (p - HEADER_SIZE)) by arith.
  rewrite (validate_block_arena _ _ _ H Ha). cbn [negb].
  rewrite wrap64_small by arith. reflexivity.
Qed.

(** C3 (as amended).  For a live allocation [p] of payload capacity [c]:
    [krealloc NULL n] is [kmalloc n]; [krealloc p 0] frees [p] and
    returns NULL; [krealloc p n] with [0 < n <= c] returns [p] and leaves
    the whole state unchanged; and [krealloc p n] with [n > c] (for a
    request whose rounded size does not wrap) calls [kmalloc n]: when that
    fails it returns NULL and the old block stays allocated and untouched;
    when it succeeds with [q] it copies the [c] payload bytes of [p] to
    [q], frees [p] and returns [q], a live allocation of capacity at
    least [n] in an arena that is still well shaped. *)
Theorem krealloc_cases s l p :
  heap_initialized s = true ->
  arena kernel_heap (memory s) l ->
  live (memory s) l p ->
  let c := capacity (memory s) p in
  (forall s0 n, krealloc kernel_heap 0 n s0 = kmalloc kernel_heap n s0)
  /\ krealloc kernel_heap p 0 s = Done 0 (kfree kernel_heap p s)
  /\ (forall n, 0 < n <= c -> krealloc kernel_heap p n s = Done p s)
  /\ (forall n, c < n -> n + 31 < 2 ^ 64 ->
        exists q s1,
          kmalloc kernel_heap n s = Done q s1
          /\ ((q = 0 /\ krealloc kernel_heap p n s = Done 0 s1
               /\ memory s1 = memory s /\ heap_used s1 = heap_used s)
              \/ (q <> 0
                  /\ krealloc kernel_heap p n s
                     = Done q (kfree kernel_heap p (memcpy q p c s1))
                  /\ let s' := kfree kernel_heap p (memcpy q p c s1) in
                     (forall i, 0 <= i < c ->
                                memory s' (q + i) = memory s (p + i))
                     /\ hdr_used (memory s') (p - HEADER_SIZE) = false
                     /\ exists l', arena kernel_heap (memory s') l'
                                   /\ live (memory s') l' q
                                   /\ n <= capacity (memory s') q
                                   /\ In (p - HEADER_SIZE) l'))).
Proof.
  intros Hi H Hlive c.
  pose proof Hlive as (Ha & Hu).
  destruct (arena_block _ _ _ H Ha) as (Hlo & _ & Hs & He).
  pose proof (hdr_size_range (memory s) (p - HEADER_SIZE)) as Hr.
  set (a := p - HEADER_SIZE) in *.
  assert (Ep : p = a + HEADER_SIZE) by (unfold a; lia).
  assert (Ec : c = hdr_size (memory s) a - HEADER_SIZE) by reflexivity.
  split; [reflexivity|]. split; [|split].
  - unfold krealloc.
    replace (p =? 0) with false by (symmetry; apply Z.eqb_neq; arith).
    reflexivity.
  - intros n Hn. rewrite (krealloc_live_unfold s l p n Hi H Hlive) by lia.
    fold c. replace (n <=? c) with true by (symmetry; apply Z.leb_le; lia).
    reflexivity.
  - intros n Hn Hnw.
    rewrite (krealloc_live_unfold s l p n Hi H Hlive) by lia. fold c.
    replace (n <=? c) with false by (symmetry; apply Z.leb_gt; lia).
    destruct (kmalloc_frame s l n Hi H ltac:(lia) Hnw)
      as (q & s1 & E & Hi1 & _ & Hcase).
    exists q, s1. rewrite E. split; [reflexivity|].
    destruct Hcase as [(-> & Em & Eu)|(l1 & b & -> & Har1 & Hb & Hb1 & Hfb & Hub
                                        & Hsz & _ & _ & Hpay & Hold & _)].
    + left. auto.
    + right.
      destruct (arena_block _ _ _ Har1 Hb1) as (Hlob & _ & Hsb & Heb).
      replace (b + HEADER_SIZE =? 0) with false
        by (symmetry; apply Z.eqb_neq; arith).
      split; [arith|]. split; [reflexivity|]. cbv zeta.
      set (q := b + HEADER_SIZE) in *.
      (* the old block is untouched by the allocation *)
      destruct (Hold a Ha Hu) as (Ha1 & Hsame1).
      destruct (block_bytes_same_fields _ _ _ Hs Hsame1) as (Es1 & _ & Eu1).
      assert (Hab : a <> b) by (intros ->; congruence).
      assert (Hdis : a + hdr_size (memory s) a <= b
                     \/ b + hdr_size (memory s1) b <= a).
      { destruct (blocks_sep _ _ _ _ _ _ Har1 Hb1 Ha1) as [?|[?|?]];
          [congruence|left; lia|now right]. }
      (* the copy *)
      destruct (memcpy_disjoint q p c s1)
        as (Hi2 & _ & _ & _ & Hcopy & Hout); try (unfold q; arith).
      set (s2 := memcpy q p c s1) in *.
      destruct (payload_write_frame (memory s1) (memory s2) l1 b Har1 Hb1)
        as (Har2 & Hag2 & Hoth2).
      { intros x Hx Ho. apply Hout; unfold q; arith. }
      destruct (hdr_agree_fields _ _ _ (Hag2 a Ha1)) as (Es2 & _ & Eu2).
      destruct (hdr_agree_fields _ _ _ (Hag2 b Hb1)) as (Esb2 & _ & Eub2).
      (* the release of the old block *)
      rewrite Ep.
      destruct (kfree_frame s2 l1 a ltac:(congruence) Har2 Ha1 ltac:(congruence))
        as (l3 & Har3 & _ & _ & _ & _ & Ha3 & Hfree3 & Hkeep & _).
      set (s3 := kfree kernel_heap (a + HEADER_SIZE) s2) in *.
      destruct (Hkeep b Hb1 ltac:(congruence) ltac:(congruence)) as (Hb3 & Hsame3).
      destruct (block_bytes_same_fields (memory s2) (memory s3) b ltac:(arith) Hsame3)
        as (Esb3 & _ & Eub3).
      split; [|split; [exact Hfree3|]].
      * intros i Hi'. rewrite Hsame3 by (unfold q; arith).
        rewrite Hcopy by lia. rewrite Ep. apply Hsame1. arith.
      * exists l3. unfold live, capacity.
        replace (q - HEADER_SIZE) with b by (unfold q; lia).
        repeat split; auto; try congruence. lia.
Qed.

(** ** The arena invariant across the allocator's operations *)

Lemma heap_wf_init s :
  heap_initialized s = false -> heap_wf kernel_heap (kmalloc_init kernel_heap s).
Proof.
  intros Hi. destruct (kmalloc_init_spec s Hi) as (Hi' & Hu & Har & _).
  split; [exact Hi'|]. split; [rewrite Hu; lia|]. now exists [kernel_heap].
Qed.

Lemma heap_wf_kmalloc s size :
  heap_wf kernel_heap s -> 0 < size -> size + 31 < 2 ^ 64 ->
  exists p s', kmalloc kernel_heap size s = Done p s' /\ heap_wf kernel_heap s'.
Proof.
  intros (Hi & Hu & l & H) H0 H1.
  destruct (kmalloc_frame s l size Hi H H0 H1)
    as (p & s' & E & Hi' & _ & [(_ & Em & Eu)|(l' & b & _ & Har & _ & _ & _ & _ & _ & Ehu & _)]).
  - exists p, s'. split; [exact E|]. split; [exact Hi'|]. split; [congruence|].
    exists l. now rewrite Em.
  - exists p, s'. split; [exact E|]. split; [exact Hi'|].
    split; [rewrite Ehu; apply wrap64_range|]. now exists l'.
Qed.

Lemma heap_wf_kfree s l p :
  heap_wf kernel_heap s -> arena kernel_heap (memory s) l ->
  live (memory s) l p -> heap_wf kernel_heap (kfree kernel_heap p s).
Proof.
  intros (Hi & Hu & _) H (Ha & Hused).
  replace p with (p - HEADER_SIZE + HEADER_SIZE) by lia.
  destruct (kfree_frame s l _ Hi H Ha Hused)
    as (l' & Har & Hi' & _ & _ & Ehu & _).
  split; [exact Hi'|]. split; [rewrite Ehu; apply wrap64_range|]. now exists l'.
Qed.

End AllocatorFacts.

Lemma blocksb_sound m a e l : blocksb m a e l = true -> blocks m a e l.
Proof.
  revert a. induction l as [|h l IH]; intros a H; cbn [blocksb] in H.
  - apply Z.eqb_eq in H. subst. constructor.
  - repeat (apply andb_true_iff in H; destruct H as [H ?]).
    apply Z.eqb_eq in H. subst h.
    constructor; auto; try (now apply Z.eqb_eq); now apply Z.leb_le.
Qed.

(** ** Worked examples on a concrete arena *)

Definition two_blocks : kstate := after_allocs demo_heap [16; 16] boot_state.

(** C1, counterexample to the claim as stated.  From boot, two 16-byte
    allocations occupy the adjacent blocks at [demo_heap] and
    [demo_heap + 32].  Freeing the left one first and the right one second
    leaves no free block that spans both: the left block keeps its 32
    bytes. *)
Lemma kfree_left_then_right_not_merged :
  let a := demo_heap in
  let b := demo_heap + 32 in
  arena demo_heap (memory two_blocks) [a; b; b + 32]
  /\ hdr_used (memory two_blocks) a = true
  /\ hdr_used (memory two_blocks) b = true
  /\ ~ one_free_block_spans demo_heap
         (memory (kfree demo_heap (b + HEADER_SIZE)
                    (kfree demo_heap (a + HEADER_SIZE) two_blocks)))
         a (b + hdr_size (memory two_blocks) b).
Proof.
  cbv zeta. split; [apply blocksb_sound; vm_compute; reflexivity|].
  split; [vm_compute; reflexivity|]. split; [vm_compute; reflexivity|].
  intros (l & h & Har & Hh & _ & Hlo & Hhi).
  destruct (blocks_in _ _ _ _ _ Har Hh) as (Hge & _).
  assert (h = demo_heap) as -> by lia.
  revert Hhi. vm_compute. intros Hhi. apply Hhi. reflexivity.
Qed.

Lemma kfree_adjacent_pair_witness :
  let a := demo_heap in
  let b := demo_heap + 32 in
  one_free_block_spans demo_heap
    (memory (kfree demo_heap (a + HEADER_SIZE)
               (kfree demo_heap (b + HEADER_SIZE) two_blocks)))
    a (b + hdr_size (memory two_blocks) b).
Proof.
  cbv zeta.
  apply (kfree_adjacent_pair demo_heap ltac:(vm_compute; discriminate)
           ltac:(vm_compute; reflexivity) two_blocks []
           demo_heap (demo_heap + 32) [demo_heap + 64]).
  - vm_compute; reflexivity.
  - apply blocksb_sound; vm_compute; reflexivity.
  - vm_compute; reflexivity.
  - vm_compute; reflexivity.
Defined.

Definition one_block : kstate := after_allocs demo_heap [16] boot_state.

(** C3, counterexample to the claim as stated.  The allocation [p] made
    by [kmalloc 16] on a fresh heap has capacity 16.  [krealloc p n] with
    [n] = 4 MiB > 16 does not allocate, copy, free and return a new
    pointer: no block is large enough, so it returns NULL and [p] stays
    allocated. *)
Lemma krealloc_grow_can_fail :
  let p := demo_heap + HEADER_SIZE in
  live (memory one_block) [demo_heap; demo_heap + 32] p
  /\ capacity (memory one_block) p = 16
  /\ match krealloc demo_heap p KERNEL_HEAP_SIZE one_block with
     | Done q s' =>
         q = 0 /\ hdr_used (memory s') (p - HEADER_SIZE) = true
         /\ heap_used s' = heap_used one_block
     | Trap _ => False
     end.
Proof.
  cbv zeta. split; [|split].
  - split; [left|]; vm_compute; reflexivity.
  - vm_compute. reflexivity.
  - vm_compute. repeat split; reflexivity.
Qed.

Lemma krealloc_cases_witness :
  let p := demo_heap + HEADER_SIZE in
  krealloc demo_heap p 0 one_block = Done 0 (kfree demo_heap p one_block)
  /\ krealloc demo_heap p 16 one_block = Done p one_block
  /\ exists q s1, kmalloc demo_heap 100 one_block = Done q s1.
Proof.
  cbv zeta.
  destruct (krealloc_cases demo_heap ltac:(vm_compute; discriminate)
              ltac:(vm_compute; reflexivity) one_block
              [demo_heap; demo_heap + 32] (demo_heap + HEADER_SIZE))
    as (_ & H2 & H3 & H4).
  - vm_compute; reflexivity.
  - apply blocksb_sound; vm_compute; reflexivity.
  - split; [left; vm_compute; reflexivity | vm_compute; reflexivity].
  - split; [exact H2|]. split.
    + apply H3. vm_compute. split; [reflexivity | discriminate].
    + destruct (H4 100) as (q & s1 & E & _).
      * vm_compute; reflexivity.
      * vm_compute; reflexivity.
      * exists q, s1. exact E.
Defined.

Lemma double_free_detected_witness :
  let p := demo_heap + HEADER_SIZE in
  let s2 := kfree demo_heap p one_block in
  klog (kfree demo_heap p s2) = double_free_entry p :: klog s2.
Proof.
  cbv zeta.
  assert (F : match kmalloc demo_heap 16 boot_state with
              | Done q s => q = demo_heap + HEADER_SIZE
                            /\ klog (kfree demo_heap q s) = klog s
              | Trap _ => False
              end) by (vm_compute; split; reflexivity).
  unfold one_block, after_allocs.
  destruct (kmalloc demo_heap 16 boot_state) as [q s1|t] eqn:E; [|contradiction].
  destruct F as (-> & Hlog).
  apply (double_free_detected demo_heap ltac:(vm_compute; discriminate)
           ltac:(vm_compute; reflexivity) boot_state 16
           (demo_heap + HEADER_SIZE) s1).
  - left. reflexivity.
  - vm_compute. split; reflexivity.
  - exact E.
  - vm_compute. discriminate.
  - exact Hlog.
Defined.

(** Once the block at [a] is used and has size 0, the first-fit search
    started there is still running after any number of iterations. *)
Lemma find_free_block_stuck kernel_heap m total a :
  0 <= a < heap_end kernel_heap -> heap_end kernel_heap <= 2 ^ 64 ->
  hdr_magic m a = ALLOC_MAGIC -> hdr_used m a = true -> hdr_size m a = 0 ->
  forall fuel, find_free_block_from kernel_heap fuel m total a = Unbounded.
Proof.
  intros Ha He Hm Hu Hs fuel. induction fuel as [|fuel IH]; [reflexivity|].
  cbn [find_free_block_from].
  replace (a <? heap_end kernel_heap) with true by (symmetry; apply Z.ltb_lt; lia).
  rewrite Hm, Z.eqb_refl, Hu, Hs. cbn [negb andb].
  rewrite Z.add_0_r, wrap64_small by lia. exact IH.
Qed.

Definition wrapped_alloc : kstate :=
  after_allocs demo_heap [2 ^ 64 - 17] boot_state.

(** C2, the code at the failing input.  On a fresh heap the request
    [kmalloc (2^64 - 17)] is rounded to [2^64 - 16]; adding the header
    wraps the total to 0; [find_free_block 0] returns the initial block
    and [split_block] places the "remainder" header on the block itself
    and then sets its size to 0.  The block at the arena base is then
    used with size 0: the walk from the base never leaves it, no block
    sequence sums to the arena size, and the search of the next
    allocation never ends. *)
Theorem kmalloc_wrapped_request_breaks_walk :
  match kmalloc demo_heap (2 ^ 64 - 17) boot_state with
  | Done p _ => p = demo_heap + HEADER_SIZE
  | Trap _ => False
  end
  /\ hdr_size (memory wrapped_alloc) demo_heap = 0
  /\ hdr_used (memory wrapped_alloc) demo_heap = true
  /\ walk_next (memory wrapped_alloc) demo_heap = demo_heap
  /\ (forall l, ~ arena demo_heap (memory wrapped_alloc) l)
  /\ ~ heap_wf demo_heap wrapped_alloc
  /\ (forall total fuel,
        find_free_block_from demo_heap fuel (memory wrapped_alloc) total demo_heap
        = Unbounded).
Proof.
  split; [vm_compute; reflexivity|].
  split; [vm_compute; reflexivity|].
  split; [vm_compute; reflexivity|]. split; [vm_compute; reflexivity|].
  assert (Hno : forall l, ~ arena demo_heap (memory wrapped_alloc) l).
  { intros l H. unfold arena in H.
    destruct (blocks_head _ _ _ _ H) as [Ha|(Hs & _)].
    - vm_compute in Ha. discriminate.
    - revert Hs. vm_compute. intros Hs. apply Hs. reflexivity. }
  split; [exact Hno|]. split.
  - intros (_ & _ & l & H). exact (Hno l H).
  - intros total fuel. apply find_free_block_stuck.
    + vm_compute. split; [discriminate | reflexivity].
    + vm_compute. discriminate.
    + vm_compute. reflexivity.
    + vm_compute. reflexivity.
    + vm_compute. reflexivity.
Qed.

(** ** EXT4: reads past the end of a file, and filesystems without extents *)

Lemma lo_hi_nonneg lo hi : 0 <= lo -> 0 <= lo_hi lo hi.
Proof.
  intros H. unfold lo_hi. apply Z.lor_nonneg. split; [exact H|].
  apply wrap64_range.
Qed.

Lemma i_size_nonneg ino : 0 <= i_size ino.
Proof. apply lo_hi_nonneg. apply (load_le_range 4). Qed.

Lemma wrap64_le x : 0 <= x -> wrap64 x <= x.
Proof. intros H. unfold wrap64. apply Z.mod_le; lia. Qed.

Lemma memset_fills p c n s :
  0 < p -> p + n <= 2 ^ 64 ->
  forall i, 0 <= i < n -> memory (memset p c n s) (p + i) = wrap8 c.
Proof.
  intros Hp Hn i Hi. unfold memset.
  replace (p =? 0) with false by (symmetry; apply Z.eqb_neq; lia).
  replace (n =? 0) with false by (symmetry; apply Z.eqb_neq; lia).
  cbn [set_memory memory]. unfold mem_fill.
  now rewrite in_range_inside by lia.
Qed.

Lemma memset_dev_reads p c n s : dev_reads (memset p c n s) = dev_reads s.
Proof.
  unfold memset. destruct (p =? 0); [reflexivity|]. now destruct (n =? 0).
Qed.

(** C7.  For a filesystem handle with a non-zero block size and an inode
    of 64-bit size [i_size], a request for a logical block at or beyond
    [ceil(i_size / block_size)] returns 0, issues no device read, and
    leaves [block_size] zero bytes in the (non-null) output buffer. *)
Theorem read_file_block_past_eof kernel_heap fs inode block_num buffer s :
  0 < block_size fs ->
  (i_size inode + block_size fs - 1) / block_size fs <= block_num ->
  0 < buffer -> buffer + block_size fs <= 2 ^ 64 ->
  exists s',
    ext4_read_file_block kernel_heap fs inode block_num buffer s = Done 0 s'
    /\ s' = memset buffer 0 (block_size fs) s
    /\ dev_reads s' = dev_reads s
    /\ forall i, 0 <= i < block_size fs -> memory s' (buffer + i) = 0.
Proof.
  intros Hbs Hblk Hb Hbe. eexists. split; [|split; [reflexivity|split]].
  - unfold ext4_read_file_block.
    replace (block_size fs =? 0) with false by (symmetry; apply Z.eqb_neq; lia).
    replace (_ <=? block_num) with true; [reflexivity|].
    symmetry. apply Z.leb_le. etransitivity; [|exact Hblk].
    apply Z.div_le_mono; [lia|]. apply wrap64_le.
    pose proof (i_size_nonneg inode). lia.
  - apply memset_dev_reads.
  - intros i Hi. now rewrite memset_fills by lia.
Qed.

Lemma read_file_block_past_eof_witness :
  exists s',
    ext4_read_file_block demo_heap extent_fs extent_inode 10 caller_buffer
                         boot_state = Done 0 s'
    /\ dev_reads s' = [].
Proof.
  destruct (read_file_block_past_eof demo_heap extent_fs extent_inode 10
              caller_buffer boot_state) as (s' & E & _ & Hd & _).
  - vm_compute. reflexivity.
  - vm_compute. discriminate.
  - vm_compute. reflexivity.
  - vm_compute. discriminate.
  - exists s'. split; [exact E | exact Hd].
Defined.

Section MountIgnoresFeatures.

Variable kernel_heap : Z.
Variable v : Z.

Lemma read_block_retag fs b buf s :
  ext4_read_block (retag_fs v fs) b buf s = ext4_read_block fs b buf s.
Proof. reflexivity. Qed.

Lemma read_gdesc_blocks_retag n fs start i s :
  read_gdesc_blocks n (retag_fs v fs) start i s = read_gdesc_blocks n fs start i s.
Proof.
  revert i s. induction n as [|n IH]; intros i s; [reflexivity|].
  cbn [read_gdesc_blocks]. unfold bind.
  change (ext4_read_block (retag_fs v fs)) with (ext4_read_block fs).
  change (group_desc_table (retag_fs v fs)) with (group_desc_table fs).
  change (block_size (retag_fs v fs)) with (block_size fs).
  destruct (ext4_read_block fs _ _ s) as [r s1|t]; [|reflexivity].
  destruct (r <? 0); [reflexivity|]. apply IH.
Qed.

Lemma read_inode_retag fs n ino s :
  ext4_read_inode kernel_heap (retag_fs v fs) n ino s
  = ext4_read_inode kernel_heap fs n ino s.
Proof. reflexivity. Qed.

Lemma create_vfs_node_retag fs n ino s :
  ext4_create_vfs_node kernel_heap (retag_fs v fs) n ino s
  = exec_map (fun r => (fst r, option_map (retag_node v) (snd r)))
             (ext4_create_vfs_node kernel_heap fs n ino s).
Proof.
  unfold ext4_create_vfs_node, bind. rewrite read_inode_retag.
  destruct (ext4_read_inode kernel_heap fs n ino s) as [[rc ino'] s1|t];
    [|reflexivity].
  destruct (rc <? 0); [reflexivity|].
  unfold kmalloc_m. destruct (kmalloc kernel_heap SIZEOF_INODE_INFO s1) as [p s2|t];
    [|reflexivity].
  destruct (p =? 0); reflexivity.
Qed.

Ltac retag_norm :=
  repeat first
    [ progress change (block_size (retag_fs v ?f)) with (block_size f)
    | progress change (block_count (retag_fs v ?f)) with (block_count f)
    | progress change (groups_count (retag_fs v ?f)) with (groups_count f)
    | progress change (inodes_per_group (retag_fs v ?f)) with (inodes_per_group f)
    | progress change (group_desc_table (retag_fs v ?f)) with (group_desc_table f)
    | progress change (fs_addr (retag_fs v ?f)) with (fs_addr f)
    | progress change (s_desc_size (sb (retag_fs v ?f))) with (s_desc_size (sb f))
    | progress change (s_first_data_block (sb (retag_fs v ?f)))
        with (s_first_data_block (sb f)) ].

Lemma mount_geometry_retag fs ino s :
  ext4_mount_geometry kernel_heap (retag_fs v fs) ino s
  = exec_map (retag_mount v) (ext4_mount_geometry kernel_heap fs ino s).
Proof.
  unfold ext4_mount_geometry.
  change (sb (retag_fs v fs)) with (set_feature_incompat (sb fs) v).
  change (fs_addr (retag_fs v fs)) with (fs_addr fs).
  cbn [set_feature_incompat s_magic s_log_block_size s_blocks_count_lo
       s_blocks_count_hi s_blocks_per_group].
  destruct (negb (s_magic (sb fs) =? EXT4_SUPER_MAGIC)); [reflexivity|].
  destruct (20 <? s_log_block_size (sb fs)); [reflexivity|].
  destruct (s_blocks_per_group (sb fs) =? 0); [reflexivity|].
  match goal with
  | |- context [with_geometry fs ?a ?b ?c] =>
      change (with_geometry (retag_fs v fs) a b c)
        with (retag_fs v (with_geometry fs a b c));
      generalize (with_geometry fs a b c)
  end.
  intros fsg. retag_norm.
  unfold bind, kprintf_m, kerr_m, kfree_m, kmalloc_m, lift, ret.
  match goal with
  | |- context [kmalloc kernel_heap ?n ?st] =>
      destruct (kmalloc kernel_heap n st) as [gdt s1|t]; [|reflexivity]
  end.
  destruct (gdt =? 0); [reflexivity|].
  change (with_group_desc_table (retag_fs v fsg) gdt)
    with (retag_fs v (with_group_desc_table fsg gdt)).
  generalize (with_group_desc_table fsg gdt). intros fsd. retag_norm.
  rewrite read_gdesc_blocks_retag.
  match goal with
  | |- context [read_gdesc_blocks ?n fsd ?a ?b ?st] =>
      destruct (read_gdesc_blocks n fsd a b st) as [r s2|t]; [|reflexivity]
  end.
  destruct (r <? 0); [reflexivity|].
  destruct (kmalloc kernel_heap SIZEOF_VFS_NODE s2) as [root s3|t]; [|reflexivity].
  destruct (root =? 0); [reflexivity|].
  rewrite create_vfs_node_retag.
  destruct (ext4_create_vfs_node kernel_heap fsd EXT4_ROOT_INO ino s3)
    as [[rc node] s4|t]; [|reflexivity].
  cbn [exec_map fst snd].
  destruct node as [[ty sz inum [info|]]|]; cbn [option_map retag_node vn_private];
    destruct (rc <? 0); reflexivity.
Qed.

End MountIgnoresFeatures.

(** The whole mount, on any device and from any state: replacing the
    mask of the superblock copy changes nothing but the mask kept in the
    mounted handle. *)
Lemma mount_with_mask_same kernel_heap v dev root ino s :
  ext4_mount_with_mask kernel_heap v dev root ino s
  = exec_map (retag_mount v) (ext4_mount kernel_heap dev root ino s).
Proof.
  unfold ext4_mount_with_mask, ext4_mount, ext4_mount_superblock.
  destruct dev as [d|]; [|reflexivity].
  destruct (root =? 0); [reflexivity|].
  unfold bind, kprintf_m, kerr_m, kfree_m, kmalloc_m, lift, ret, get.
  match goal with
  | |- context [kmalloc kernel_heap SIZEOF_FS ?st] =>
      destruct (kmalloc kernel_heap SIZEOF_FS st) as [fs s1|t]; [|reflexivity]
  end.
  destruct (fs =? 0); [reflexivity|].
  match goal with
  | |- context [kmalloc kernel_heap SIZEOF_SUPERBLOCK ?st] =>
      destruct (kmalloc kernel_heap SIZEOF_SUPERBLOCK st) as [sbuf s2|t];
        [|reflexivity]
  end.
  destruct (sbuf =? 0); [reflexivity|].
  match goal with
  | |- context [device_read d ?a ?b ?c ?st] =>
      destruct (device_read d a b c st) as [r s3|t]; [|reflexivity]
  end.
  destruct (r <? 0); [reflexivity|].
  apply mount_geometry_retag.
Qed.


Lemma read_extent_block_without_feature kernel_heap fs inode block_num s :
  has_extents fs = false ->
  ext4_read_extent_block kernel_heap fs inode block_num s
  = Done (-1, None) (kerr "EXT4: This filesystem doesn't use extents\n" [] s).
Proof.
  unfold has_extents, ext4_read_extent_block. intros H.
  apply negb_false_iff in H. now rewrite H.
Qed.

Lemma read_file_block_without_feature kernel_heap fs inode block_num buffer s :
  has_extents fs = false -> 0 < block_size fs ->
  block_num < wrap64 (i_size inode + block_size fs - 1) / block_size fs ->
  ext4_read_file_block kernel_heap fs inode block_num buffer s
  = Done (-1)
      (kerr "EXT4: Traditional indirect block addressing not implemented\n" [] s).
Proof.
  unfold has_extents, ext4_read_file_block. intros H Hbs Hb.
  replace (block_size fs =? 0) with false by (symmetry; apply Z.eqb_neq; lia).
  replace (_ <=? block_num) with false by (symmetry; apply Z.leb_gt; lia).
  now rewrite H.
Qed.

(** ** EXT4: the name stored by readdir *)

Lemma no_overrun_bind {A B} (c : M A) (k : A -> M B) s :
  no_overrun (c s) ->
  (forall a s', c s = Done a s' -> no_overrun (k a s')) ->
  no_overrun (bind c k s).
Proof.
  unfold bind. intros Hc Hk. destruct (c s) as [a s'|t]; [now apply Hk|exact Hc].
Qed.

Lemma kmalloc_no_overrun kernel_heap n s : no_overrun (kmalloc kernel_heap n s).
Proof.
  unfold kmalloc. destruct (n =? 0); [exact I|].
  destruct (find_free_block _ _ _); exact I.
Qed.

Lemma read_block_no_overrun fs b buf s : no_overrun (ext4_read_block fs b buf s).
Proof.
  unfold ext4_read_block. destruct (device fs); [|exact I].
  destruct (buf =? 0); exact I.
Qed.

Ltac no_overrun_step :=
  first
    [ exact I
    | apply kmalloc_no_overrun
    | apply read_block_no_overrun
    | apply no_overrun_bind; [|intros ? ? ?]
    | match goal with
      | |- no_overrun (match ?x with _ => _ end _) => destruct x
      | |- no_overrun ((if ?c then _ else _) _) => destruct c
      | |- no_overrun ((let (_, _) := ?x in _) _) => destruct x
      end ].

Lemma extent_descend_no_overrun kernel_heap depth fs buf b s :
  no_overrun (extent_descend kernel_heap depth fs buf b s).
Proof.
  revert s. induction depth as [|d IH]; intros s; cbn [extent_descend].
  - unfold kfree_m, kerr_m, kmalloc_m. repeat no_overrun_step.
  - unfold kfree_m, kerr_m, kmalloc_m.
    do 12 (try no_overrun_step). all: try apply IH. all: repeat no_overrun_step.
Qed.

Lemma read_extent_block_no_overrun kernel_heap fs inode b s :
  no_overrun (ext4_read_extent_block kernel_heap fs inode b s).
Proof.
  unfold ext4_read_extent_block, kfree_m, kerr_m, kmalloc_m.
  do 12 (try no_overrun_step). all: try apply extent_descend_no_overrun.
  all: repeat no_overrun_step.
Qed.

Lemma read_file_block_no_overrun kernel_heap fs inode b buf s :
  no_overrun (ext4_read_file_block kernel_heap fs inode b buf s).
Proof.
  unfold ext4_read_file_block, kfree_m, kerr_m, kmalloc_m.
  do 8 (try no_overrun_step). all: try apply read_extent_block_no_overrun.
  all: repeat no_overrun_step.
Qed.

Lemma de_name_len_range m e : 0 <= de_name_len m e < 256.
Proof. unfold de_name_len, load8. apply Z.mod_pos_bound. lia. Qed.

(** The copy into the dirent never leaves the name array. *)
Lemma fill_dirent_spec m entry d :
  exists d', fill_dirent m entry d = Some d'
             /\ (de_inode m entry <> 0 -> dirent_holds m entry d d').
Proof.
  pose proof (de_name_len_range m entry) as Hr.
  unfold fill_dirent, name_copy, name_set, VFS_NAME_MAX.
  replace (255 <? de_name_len m entry) with false by (symmetry; apply Z.ltb_ge; lia).
  replace (255 + 1 <? de_name_len m entry) with false
    by (symmetry; apply Z.ltb_ge; lia).
  replace ((0 <=? de_name_len m entry) && (de_name_len m entry <? 255 + 1))
    with true
    by (symmetry; apply andb_true_iff; split; [apply Z.leb_le|apply Z.ltb_lt]; lia).
  eexists. split; [reflexivity|]. intros Hino.
  unfold dirent_holds, VFS_NAME_MAX. cbn [d_name d_inode].
  split; [lia|]. split; [now rewrite Z.eqb_refl|]. split; [|split; [|now split]].
  - intros i Hi.
    replace (i =? de_name_len m entry) with false by (symmetry; apply Z.eqb_neq; lia).
    replace ((0 <=? i) && (i <? de_name_len m entry)) with true; [reflexivity|].
    symmetry; apply andb_true_iff; split; [apply Z.leb_le|apply Z.ltb_lt]; lia.
  - intros i Hi.
    replace (i =? de_name_len m entry) with false by (symmetry; apply Z.eqb_neq; lia).
    replace ((0 <=? i) && (i <? de_name_len m entry)) with false; [reflexivity|].
    symmetry; apply andb_false_iff.
    destruct Hi; [left; apply Z.leb_gt|right; apply Z.ltb_ge]; lia.
Qed.

(** The entry scan returns only entries with a non-zero inode number. *)
Lemma readdir_in_block_hit fuel m buf bs index off idx e idx' :
  readdir_in_block fuel m buf bs index off idx = (ScanHit e, idx') ->
  de_inode m e <> 0.
Proof.
  revert off idx. induction fuel as [|fuel IH]; intros off idx;
    cbn [readdir_in_block]; [discriminate|].
  destruct (off <? bs); [|discriminate].
  destruct (de_rec_len m (buf + off) =? 0); [discriminate|].
  destruct (de_inode m (buf + off) =? 0) eqn:E; cbn [negb].
  - apply IH.
  - destruct (idx =? index); [|apply IH].
    intros H. injection H as <- _. now apply Z.eqb_neq.
Qed.

Definition readdir_post (dirent : vfs_dirent) (e : exec (Z * vfs_dirent)) : Prop :=
  match e with
  | Trap t => t <> BufferOverrun
  | Done (rc, d') _ =>
      rc = 0 -> exists m entry, dirent_holds m entry dirent d'
  end.

Lemma readdir_blocks_post kernel_heap n fs ino index dirent buf :
  forall blk idx s,
    readdir_post dirent
      (readdir_blocks kernel_heap n fs ino index dirent buf blk idx s).
Proof.
  induction n as [|n IH]; intros blk idx s; cbn [readdir_blocks];
    unfold bind, kfree_m, kerr_m, lift, ret, get, raise.
  - cbn. discriminate.
  - pose proof (read_file_block_no_overrun kernel_heap fs ino blk buf s) as Hs.
    destruct (ext4_read_file_block kernel_heap fs ino blk buf s) as [r s1|t].
    2:{ cbn. destruct t; cbn in Hs; try discriminate. contradiction. }
    destruct (r <? 0) eqn:Er.
    { cbn. intros ->. discriminate. }
    destruct (readdir_in_block _ (memory s1) buf (block_size fs) index 0 idx)
      as [[e| |] idx'] eqn:Escan.
    + destruct (fill_dirent_spec (memory s1) e dirent) as (d' & -> & Hd).
      cbn. intros _. exists (memory s1), e. apply Hd.
      exact (readdir_in_block_hit _ _ _ _ _ _ _ _ _ Escan).
    + apply IH.
    + cbn. discriminate.
Qed.

(** ** EXT4: scanning a directory block *)

Lemma bytes_eqb_eq a b : bytes_eqb a b = true <-> a = b.
Proof.
  revert b. induction a as [|x a IH]; intros [|y b]; cbn; try easy.
  rewrite andb_true_iff, Z.eqb_eq, IH. split.
  - now intros [-> ->].
  - intros H. injection H as -> ->. now split.
Qed.

Lemma name_bytes_length m p n : length (name_bytes m p n) = n.
Proof. revert p. induction n; intros p; cbn; [reflexivity|now rewrite IHn]. Qed.

Lemma strlen_c_string name : c_string name -> strlen name = Z.of_nat (length name).
Proof.
  induction 1 as [|c name Hc _ IH]; [reflexivity|].
  cbn [strlen length]. replace (c =? 0) with false by (symmetry; apply Z.eqb_neq; lia).
  rewrite IH. lia.
Qed.

Lemma load8_range m a : 0 <= load8 m a < 256.
Proof. unfold load8. apply Z.mod_pos_bound. lia. Qed.

(** [strncmp] against a C string of at least [n] bytes is 0 exactly when
    the [n] stored bytes are the first [n] bytes of the string. *)
Lemma strncmp_zero m n :
  forall p name, c_string name -> (n <= length name)%nat ->
  (strncmp m p name n =? 0) = bytes_eqb (name_bytes m p n) (firstn n name).
Proof.
  induction n as [|n IH]; intros p name Hc Hn; [reflexivity|].
  destruct name as [|c rest]; [cbn in Hn; lia|].
  inversion Hc as [|? ? Hc1 Hc2]; subst.
  pose proof (load8_range m p) as Hr.
  cbn [strncmp name_bytes firstn bytes_eqb tl].
  unfold wrap8. rewrite (Z.mod_small c) by lia.
  destruct n as [|n'].
  - cbn [name_bytes firstn bytes_eqb]. rewrite andb_true_r.
    destruct (Z.eqb_spec (load8 m p) c) as [->|Hne].
    + now rewrite Z.sub_diag.
    + apply Z.eqb_neq. lia.
  - replace (c =? 0) with false by (symmetry; apply Z.eqb_neq; lia).
    rewrite orb_false_r.
    destruct (Z.eqb_spec (load8 m p) 0) as [E0|N0].
    { rewrite E0. replace (0 =? c) with false by (symmetry; apply Z.eqb_neq; lia).
      cbn [andb]. apply Z.eqb_neq. lia. }
    destruct (Z.eqb_spec (load8 m p) c) as [->|Hne]; cbn [negb andb].
    + apply IH; [exact Hc2|cbn in Hn; lia].
    + apply Z.eqb_neq. lia.
Qed.

Lemma bytes_eqb_length a b : bytes_eqb a b = true -> length a = length b.
Proof. intros H. apply bytes_eqb_eq in H. now subst. Qed.

(** The test of the code (equal lengths, then [strncmp]) is equality of
    the stored name with the requested one. *)
Lemma name_matches_spec m entry name :
  c_string name ->
  name_matches m entry name
  = bytes_eqb (name_bytes m (de_name entry) (Z.to_nat (de_name_len m entry))) name.
Proof.
  intros Hc. unfold name_matches. rewrite strlen_c_string by exact Hc.
  pose proof (de_name_len_range m entry) as Hr.
  destruct (Z.eqb_spec (de_name_len m entry) (Z.of_nat (length name))) as [E|N].
  - cbn [andb]. rewrite strncmp_zero by (auto; lia).
    rewrite E, Nat2Z.id, firstn_all. reflexivity.
  - cbn [andb]. symmetry. apply not_true_iff_false. intros H.
    apply bytes_eqb_length in H. rewrite name_bytes_length in H. lia.
Qed.

(** The loop of the code over one block returns the first matching
    record of the block, or reaches the end when there is none. *)
Lemma find_in_block_spec m buf bs name :
  c_string name ->
  forall fuel off,
    find_in_block fuel m buf bs name off <> ScanUnbounded ->
    find_in_block fuel m buf bs name off
    = match lookup_record name (parse_dir_block fuel m buf bs off) with
      | Some ino => ScanHit ino
      | None => ScanEnd
      end.
Proof.
  intros Hc. induction fuel as [|fuel IH]; intros off Hb;
    cbn [find_in_block parse_dir_block] in *; [contradiction|].
  destruct (off <? bs); [|reflexivity].
  destruct (de_rec_len m (buf + off) =? 0); [reflexivity|].
  unfold lookup_record. cbn [find]. unfold record_matches at 1. cbn [rec_inode rec_name].
  rewrite <- name_matches_spec by exact Hc.
  destruct (negb (de_inode m (buf + off) =? 0) && name_matches m (buf + off) name).
  - reflexivity.
  - apply IH. exact Hb.
Qed.

Lemma de_rec_len_range m e : 0 <= de_rec_len m e < 65536.
Proof. apply (load_le_range 2). Qed.

(** With the iteration bound the code model grants (one more than the
    block size), the scan of a block always ends. *)
Lemma find_in_block_ends m buf bs name :
  bs <= 2 ^ 32 - 65536 ->
  forall fuel off, 0 <= off -> (0 < fuel)%nat -> bs - off < Z.of_nat fuel ->
    find_in_block fuel m buf bs name off <> ScanUnbounded.
Proof.
  intros Hbs. induction fuel as [|fuel IH]; intros off Hoff Hpos Hf;
    cbn [find_in_block]; [lia|].
  destruct (Z.ltb_spec off bs) as [Hlt|Hge]; [|discriminate].
  pose proof (de_rec_len_range m (buf + off)) as Hr.
  destruct (Z.eqb_spec (de_rec_len m (buf + off)) 0); [discriminate|].
  destruct (_ && _); [discriminate|].
  assert (wrap32 (off + de_rec_len m (buf + off)) = off + de_rec_len m (buf + off))
    as -> by (unfold wrap32; apply Z.mod_small; lia).
  apply IH; lia.
Qed.

Lemma find_in_block_lookup m buf bs name :
  c_string name -> bs <= 2 ^ 32 - 65536 ->
  find_in_block (S (Z.to_nat bs)) m buf bs name 0
  = match lookup_record name (parse_dir_block (S (Z.to_nat bs)) m buf bs 0) with
    | Some ino => ScanHit ino
    | None => ScanEnd
    end.
Proof.
  intros Hc Hbs. apply find_in_block_spec; [exact Hc|].
  apply find_in_block_ends; lia.
Qed.

Lemma bind_unfold {A B} (c : M A) (k : A -> M B) s :
  bind c k s = match c s with Done a s' => k a s' | Trap t => Trap t end.
Proof. reflexivity. Qed.

Lemma find_dir_blocks_refines kernel_heap fs dir_inode name buf :
  c_string name -> block_size fs <= 2 ^ 32 - 65536 ->
  forall n idx s,
    find_dir_blocks kernel_heap n fs dir_inode name buf idx s
    = spec_find_dir_blocks kernel_heap n fs dir_inode name buf idx s.
Proof.
  intros Hc Hbs. induction n as [|n IH]; intros idx s; [reflexivity|].
  cbn [find_dir_blocks spec_find_dir_blocks]. rewrite !bind_unfold.
  destruct (ext4_read_file_block kernel_heap fs dir_inode idx buf s)
    as [result s1|t]; [|reflexivity].
  destruct (result <? 0); [reflexivity|].
  unfold bind, get. rewrite (find_in_block_lookup _ _ _ _ Hc Hbs).
  destruct (lookup_record _ _); [reflexivity|]. apply IH.
Qed.

(** The answers of a lookup: a hit carries return code 0, everything
    else a negative one and no inode number. *)
Lemma spec_find_dir_blocks_result kernel_heap fs dir_inode name buf :
  forall n idx s rc r s',
    spec_find_dir_blocks kernel_heap n fs dir_inode name buf idx s = Done (rc, r) s' ->
    (rc = 0 /\ exists ino, r = Some ino) \/ (rc < 0 /\ r = None).
Proof.
  induction n as [|n IH]; intros idx s rc r s' E.
  - cbn in E. injection E as <- <- _. right. split; [lia|reflexivity].
  - cbn [spec_find_dir_blocks] in E. rewrite bind_unfold in E.
    destruct (ext4_read_file_block kernel_heap fs dir_inode idx buf s)
      as [result s1|t]; [|discriminate].
    destruct (Z.ltb_spec result 0) as [Hneg|Hpos].
    + cbn in E. injection E as <- <- _. right. now split.
    + unfold bind, get in E. destruct (lookup_record _ _) as [ino|].
      * cbn in E. injection E as <- <- _. left. split; [reflexivity|now exists ino].
      * exact (IH _ _ _ _ _ E).
Qed.

(** C8. [ext4_find_dir_entry] is the lookup the specification describes:
    for every directory inode and every name (a C string), on a
    filesystem whose block size is at most 2^32 - 65536, the call behaves
    as [spec_find_dir_entry]: the directory blocks are read in order, the
    records of a block are scanned up to the first zero record length,
    records with inode number 0 are skipped, and the inode number of the
    first record whose name has the requested length and bytes is
    returned with code 0; when no block has such a record the result is
    the error code -1 and no inode number, and every completed call
    either returns code 0 with an inode number or a negative code without
    one.  On the example block with entries (2, "."), (2, ".."),
    (13, "foo.txt") the name "foo.txt" yields inode 13 and the name
    "missing" yields -1. *)
Theorem find_dir_entry_first_match kernel_heap fs dir_inode name s :
  c_string name -> block_size fs <= 2 ^ 32 - 65536 ->
  ext4_find_dir_entry kernel_heap fs dir_inode name s
  = spec_find_dir_entry kernel_heap fs dir_inode name s
  /\ (forall rc r s',
        ext4_find_dir_entry kernel_heap fs dir_inode name s = Done (rc, r) s' ->
        (rc = 0 /\ exists ino, r = Some ino) \/ (rc < 0 /\ r = None))
  /\ match ext4_find_dir_entry demo_heap dir_fs dir_inode_demo
             (ascii_bytes "foo.txt") boot_state with
     | Done (rc, r) s' => rc = 0 /\ r = Some 13 /\ heap_used s' = 0
     | Trap _ => False
     end
  /\ match ext4_find_dir_entry demo_heap dir_fs dir_inode_demo
             (ascii_bytes "missing") boot_state with
     | Done (rc, r) s' => rc = -1 /\ r = None /\ heap_used s' = 0
     | Trap _ => False
     end.
Proof.
  intros Hc Hbs.
  assert (E : ext4_find_dir_entry kernel_heap fs dir_inode name s
              = spec_find_dir_entry kernel_heap fs dir_inode name s).
  { unfold ext4_find_dir_entry, spec_find_dir_entry, bind.
    destruct (kmalloc_m kernel_heap (block_size fs) s) as [p s1|t]; [|reflexivity].
    destruct (p =? 0); [reflexivity|].
    destruct (block_size fs =? 0); [reflexivity|].
    now apply find_dir_blocks_refines. }
  split; [exact E|]. split.
  - intros rc r s' E'. rewrite E in E'.
    unfold spec_find_dir_entry, bind in E'.
    destruct (kmalloc_m kernel_heap (block_size fs) s) as [p s1|t]; [|discriminate].
    destruct (p =? 0).
    + cbn in E'. injection E' as <- <- _. right. split; [lia|reflexivity].
    + destruct (block_size fs =? 0); [discriminate|].
      exact (spec_find_dir_blocks_result _ _ _ _ _ _ _ _ _ _ _ E').
  - split; vm_compute; repeat split; reflexivity.
Qed.

Lemma find_dir_entry_first_match_witness :
  c_string (ascii_bytes "foo.txt") /\ block_size dir_fs <= 2 ^ 32 - 65536
  /\ ext4_find_dir_entry demo_heap dir_fs dir_inode_demo
       (ascii_bytes "foo.txt") boot_state
     = spec_find_dir_entry demo_heap dir_fs dir_inode_demo
         (ascii_bytes "foo.txt") boot_state.
Proof.
  assert (Hc : c_string (ascii_bytes "foo.txt")).
  { unfold c_string. cbn. repeat constructor. }
  assert (Hbs : block_size dir_fs <= 2 ^ 32 - 65536) by (cbn; lia).
  split; [exact Hc|]. split; [exact Hbs|].
  exact (proj1 (find_dir_entry_first_match demo_heap dir_fs dir_inode_demo
                  (ascii_bytes "foo.txt") boot_state Hc Hbs)).
Defined.

(** ** EXT4: the entry a directory listing locates *)

Lemma fill_dirent_type m entry d d' :
  fill_dirent m entry d = Some d' ->
  d_type d' = dirent_type_of (de_file_type m entry).
Proof.
  unfold fill_dirent. destruct (name_copy _ _ _ _); [|discriminate].
  destruct (name_set _ _ _); [|discriminate].
  intros H. injection H as <-. reflexivity.
Qed.

(** The loop of the code over one block stops at the valid entry whose
    running index is [index], or reaches the end of the block having
    counted its valid entries. *)
Lemma readdir_in_block_spec m buf bs index :
  bs <= 2 ^ 32 - 65536 -> index < 2 ^ 32 ->
  forall fuel off idx,
    0 <= off -> Z.max 0 (bs - off) < Z.of_nat fuel -> 0 <= idx <= index ->
    readdir_in_block fuel m buf bs index off idx
    = let valid := filter (valid_entry m) (block_entries fuel m buf bs off) in
      match nth_error valid (Z.to_nat (index - idx)) with
      | Some entry => (ScanHit entry, index)
      | None => (ScanEnd, idx + Z.of_nat (length valid))
      end.
Proof.
  intros Hbs Hindex. induction fuel as [|fuel IH]; intros off idx Hoff Hf Hidx;
    [lia|].
  cbn [readdir_in_block block_entries]. cbv zeta.
  destruct (Z.ltb_spec off bs) as [Hlt|Hge].
  2:{ cbn [filter length]. rewrite Z.add_0_r.
      now destruct (Z.to_nat (index - idx)). }
  pose proof (de_rec_len_range m (buf + off)) as Hr.
  destruct (Z.eqb_spec (de_rec_len m (buf + off)) 0) as [E0|N0].
  { cbn [filter length]. rewrite Z.add_0_r.
    now destruct (Z.to_nat (index - idx)). }
  assert (wrap32 (off + de_rec_len m (buf + off)) = off + de_rec_len m (buf + off))
    as -> by (unfold wrap32; apply Z.mod_small; lia).
  cbn [filter].
  change (valid_entry m (buf + off)) with (negb (de_inode m (buf + off) =? 0)).
  destruct (negb (de_inode m (buf + off) =? 0)).
  - destruct (Z.eqb_spec idx index) as [->|Hne].
    + now rewrite Z.sub_diag.
    + assert (wrap32 (idx + 1) = idx + 1)
        as -> by (unfold wrap32; apply Z.mod_small; lia).
      rewrite IH by lia. cbv zeta.
      replace (Z.to_nat (index - idx)) with (S (Z.to_nat (index - (idx + 1)))) by lia.
      cbn [nth_error length].
      destruct (nth_error _ _); [reflexivity|]. f_equal. cbn [length]. lia.
  - rewrite IH by lia. reflexivity.
Qed.

Lemma readdir_in_block_locates m buf bs index idx :
  bs <= 2 ^ 32 - 65536 -> 0 <= idx <= index -> index < 2 ^ 32 ->
  readdir_in_block (S (Z.to_nat bs)) m buf bs index 0 idx
  = let valid :=
      filter (valid_entry m) (block_entries (S (Z.to_nat bs)) m buf bs 0) in
    match nth_error valid (Z.to_nat (index - idx)) with
    | Some entry => (ScanHit entry, index)
    | None => (ScanEnd, idx + Z.of_nat (length valid))
    end.
Proof. intros Hbs Hidx Hindex. apply readdir_in_block_spec; lia. Qed.

(** The listing of the code answers the located entry, block after
    block. *)
Lemma readdir_blocks_answers kernel_heap fs ino index dirent buf :
  block_size fs <= 2 ^ 32 - 65536 -> index < 2 ^ 32 ->
  forall n blk idx s,
    0 <= idx <= index ->
    readdir_answers dirent
      (readdir_blocks kernel_heap n fs ino index dirent buf blk idx s)
      (spec_readdir_blocks kernel_heap n fs ino index buf blk idx s).
Proof.
  intros Hbs Hindex. induction n as [|n IH]; intros blk idx s Hidx;
    cbn [readdir_blocks spec_readdir_blocks];
    unfold bind, kfree_m, kerr_m, lift, ret, get, raise.
  - cbn. repeat split; lia.
  - pose proof (read_file_block_no_overrun kernel_heap fs ino blk buf s) as Hs.
    destruct (ext4_read_file_block kernel_heap fs ino blk buf s) as [r s1|t].
    2:{ cbn. split; [reflexivity|]. intros ->. exact Hs. }
    destruct (Z.ltb_spec r 0) as [Hneg|Hpos].
    { cbn. repeat split; auto. }
    rewrite readdir_in_block_locates by lia. cbv zeta.
    destruct (nth_error _ _) as [e|] eqn:Enth.
    + assert (Hvalid : de_inode (memory s1) e <> 0).
      { apply nth_error_In, filter_In in Enth. destruct Enth as (_ & Hv).
        unfold valid_entry in Hv. apply negb_true_iff in Hv.
        now apply Z.eqb_neq. }
      destruct (fill_dirent_spec (memory s1) e dirent) as (d' & Efill & Hd).
      rewrite Efill. cbn. split; [reflexivity|]. split; [reflexivity|].
      split; [reflexivity|]. split; [now apply Hd|].
      exact (fill_dirent_type _ _ _ _ Efill).
    + apply IH. apply nth_error_None in Enth. lia.
Qed.

(** The whole call. *)
Lemma readdir_answers_located kernel_heap node index dirent s :
  0 <= index < 2 ^ 32 ->
  (forall info, vn_private node = Some info ->
                block_size (info_fs info) <= 2 ^ 32 - 65536) ->
  readdir_answers dirent (ext4_readdir kernel_heap node index dirent s)
                  (spec_readdir kernel_heap node index s).
Proof.
  intros Hindex Hbs. unfold ext4_readdir, spec_readdir.
  destruct (vn_private node) as [info|]; [|cbn; repeat split; lia].
  specialize (Hbs info eq_refl).
  destruct (negb (vn_type node =? VFS_DIRECTORY)); [cbn; repeat split; lia|].
  unfold bind, kmalloc_m, kerr_m, lift, ret, raise. cbv zeta.
  pose proof (kmalloc_no_overrun kernel_heap (block_size (info_fs info)) s) as Hs.
  destruct (kmalloc kernel_heap (block_size (info_fs info)) s) as [p s1|t].
  2:{ cbn. split; [reflexivity|]. intros ->. exact Hs. }
  destruct (p =? 0); [cbn; repeat split; lia|].
  destruct (block_size (info_fs info) =? 0); [cbn; split; [reflexivity|discriminate]|].
  apply readdir_blocks_answers; lia.
Qed.

(** C9.  [ext4_readdir] never writes past the end of the dirent's name
    array, whatever the directory bytes are; when it returns 0, the
    dirent holds the inode number of the entry found, its first
    [name_len <= VFS_NAME_MAX] name bytes, a NUL right after them, and
    its bytes beyond the NUL are the ones it had before.  The entry
    found is the one the claim names: for an [index] in the range of
    [uint32_t] and a block size of at most 2^32 - 65536 bytes, the call
    returns what [spec_readdir] locates - the directory blocks are read
    in order through [ext4_read_file_block], the packed entries of each
    are listed up to a record length of zero, and the valid entry number
    [index] over all blocks decides - with the same code and final
    state; the dirent holds the name bytes, terminator, inode number and
    type of that entry as they stand in the block read, and is untouched
    when no entry is located.  On the example directory, index 2 yields
    inode 13 and the name "foo.txt" followed by NUL. *)
Theorem readdir_name_within_bounds :
  (forall kernel_heap node index dirent s,
     match ext4_readdir kernel_heap node index dirent s with
     | Trap t => t <> BufferOverrun
     | Done (rc, d') _ =>
         rc = 0 -> exists m entry, dirent_holds m entry dirent d'
     end)
  /\ (forall kernel_heap node index dirent s,
        0 <= index < 2 ^ 32 ->
        (forall info, vn_private node = Some info ->
                      block_size (info_fs info) <= 2 ^ 32 - 65536) ->
        readdir_answers dirent (ext4_readdir kernel_heap node index dirent s)
                        (spec_readdir kernel_heap node index s))
  /\ (forall m entry d, exists d', fill_dirent m entry d = Some d')
  /\ match ext4_readdir demo_heap dir_node_demo 2 empty_dirent boot_state with
     | Done (rc, d') _ =>
         rc = 0 /\ d_inode d' = 13 /\ d_type d' = VFS_FILE
         /\ dirent_prefix d' 9 = ascii_bytes "foo.txt" ++ [0; 255]
     | Trap _ => False
     end.
Proof.
  split; [|split; [|split]].
  - intros kernel_heap node index dirent s.
    change (readdir_post dirent (ext4_readdir kernel_heap node index dirent s)).
    unfold ext4_readdir.
    destruct (vn_private node) as [info|]; [|cbn; discriminate].
    destruct (negb (vn_type node =? VFS_DIRECTORY)); [cbn; discriminate|].
    unfold bind, kmalloc_m, kerr_m, lift, ret, raise.
    pose proof (kmalloc_no_overrun kernel_heap (block_size (info_fs info)) s) as Hs.
    destruct (kmalloc kernel_heap (block_size (info_fs info)) s) as [p s1|t].
    2:{ cbn. destruct t; cbn in Hs; try discriminate. contradiction. }
    destruct (p =? 0); [cbn; discriminate|].
    destruct (block_size (info_fs info) =? 0); [cbn; discriminate|].
    apply readdir_blocks_post.
  - intros. now apply readdir_answers_located.
  - intros m entry d. destruct (fill_dirent_spec m entry d) as (d' & E & _).
    now exists d'.
  - vm_compute. repeat split; reflexivity.
Qed.

(** C9 on the example directory: the entry located at index 2 is the
    third entry of the block, 24 bytes into it, and its name has 7
    bytes. *)
Lemma readdir_name_within_bounds_witness :
  readdir_answers empty_dirent
    (ext4_readdir demo_heap dir_node_demo 2 empty_dirent boot_state)
    (spec_readdir demo_heap dir_node_demo 2 boot_state)
  /\ match spec_readdir demo_heap dir_node_demo 2 boot_state with
     | Done (rc, Some (m, entry)) _ =>
         rc = 0 /\ entry = demo_heap + HEADER_SIZE + 24 /\ de_name_len m entry = 7
     | _ => False
     end.
Proof.
  split.
  - destruct readdir_name_within_bounds as (_ & H & _).
    apply H; [lia|].
    intros info E. unfold dir_node_demo in E. cbn [vn_private] in E.
    injection E as <-. vm_compute. discriminate.
  - vm_compute. repeat split; reflexivity.
Defined.

(** ** Tracking the buffers a filesystem call holds *)

Lemma blocks_unique m a e l l' : blocks m a e l -> blocks m a e l' -> l = l'.
Proof.
  intros H. revert l'.
  induction H as [a|a e l Hm Hs He Hb IH]; intros l' H'.
  - inversion H' as [|? ? l2 Hm Hs He Hb]; subst; [reflexivity|].
    unfold HEADER_SIZE in *. lia.
  - inversion H' as [|? ? l2 Hm' Hs' He' Hb']; subst.
    + unfold HEADER_SIZE in *. lia.
    + f_equal. now apply IH.
Qed.

Section Holding.

Variable kernel_heap : Z.
Hypothesis heap_lo : 0 <= kernel_heap.
Hypothesis heap_hi : kernel_heap + KERNEL_HEAP_SIZE < 2 ^ 64.

Lemma allocated_in m l h :
  arena kernel_heap m l ->
  (allocated kernel_heap m h <-> In h l /\ hdr_used m h = true).
Proof.
  intros H. split.
  - intros (l' & H' & Hin & Hu). now rewrite (blocks_unique _ _ _ _ _ H H').
  - intros (Hin & Hu). now exists l.
Qed.

Lemma holding_refl s : heap_wf kernel_heap s -> holding kernel_heap s s [].
Proof.
  intros Hwf. pose proof Hwf as (_ & Hu & _).
  split; [exact Hwf|]. split; [intros h; cbn; tauto|].
  split; [intros h _ x _; reflexivity|]. split; [intros h sz []|].
  split; [constructor|]. cbn. rewrite Z.add_0_r. symmetry. now apply wrap64_small.
Qed.

Lemma wrap64_add_l a b : wrap64 (wrap64 a + b) = wrap64 (a + b).
Proof. unfold wrap64. now rewrite Zplus_mod_idemp_l. Qed.

Lemma wrap64_sub_l a b : wrap64 (wrap64 a - b) = wrap64 (a - b).
Proof. unfold wrap64. now rewrite Zminus_mod_idemp_l. Qed.

Lemma holding_same_heap s0 s s' held :
  holding kernel_heap s0 s held -> same_heap s s' ->
  holding kernel_heap s0 s' held.
Proof.
  intros ((Hi & Hu & Har) & H2 & H3 & H4 & H5 & H6) (Em & Ei & Eu).
  unfold holding, heap_wf. rewrite Em, Ei, Eu. auto 10.
Qed.

Lemma same_heap_kerr fmt args s : same_heap s (kerr fmt args s).
Proof. now repeat split. Qed.
Lemma same_heap_kprintf fmt args s : same_heap s (kprintf fmt args s).
Proof. now repeat split. Qed.
Lemma same_heap_note_read off size s : same_heap s (note_read off size s).
Proof. now repeat split. Qed.

(** Allocation adds one held block, or fails and changes nothing. *)
Lemma holding_kmalloc s0 s held n :
  holding kernel_heap s0 s held -> 0 < n -> n + 31 < 2 ^ 64 ->
  exists p s',
    kmalloc kernel_heap n s = Done p s'
    /\ dev_reads s' = dev_reads s
    /\ ((p = 0 /\ holding kernel_heap s0 s' held)
        \/ (exists sz, 0 < p /\ p + n <= p - HEADER_SIZE + sz
                       /\ p - HEADER_SIZE + sz <= heap_end kernel_heap
                       /\ kernel_heap <= p - HEADER_SIZE
                       /\ holding kernel_heap s0 s' ((p - HEADER_SIZE, sz) :: held))).
Proof.
  intros ((Hi & Hu & l & Har) & H2 & H3 & H4 & H5 & H6) Hn Hn'.
  destruct (kmalloc_frame kernel_heap heap_lo heap_hi s l n Hi Har Hn Hn')
    as (p & s' & E & Hi' & Hd & Hcase).
  exists p, s'. split; [exact E|]. split; [exact Hd|].
  destruct Hcase as [(-> & Em & Eu)|(l' & b & -> & Har' & Hb & Hb' & Hfb & Hub & Hsz
                                      & Ehu & _ & _ & Hold & Hnew)].
  - left. split; [reflexivity|].
    unfold holding, heap_wf. rewrite Em, Eu, Hi'. split; [eauto|]. auto 10.
  - right. exists (hdr_size (memory s') b).
    destruct (arena_block _ _ _ _ Har' Hb') as (Hlob & _ & Hsb & Heb).
    replace (b + HEADER_SIZE - HEADER_SIZE) with b by lia.
    split; [arith|]. split; [arith|]. split; [exact Heb|]. split; [exact Hlob|].
    assert (Hnb : ~ allocated kernel_heap (memory s) b).
    { rewrite (allocated_in _ _ _ Har). intros (_ & Hc). congruence. }
    assert (Hstep : forall h, allocated kernel_heap (memory s') h <->
                              allocated kernel_heap (memory s) h \/ h = b).
    { intros h. rewrite (allocated_in _ _ _ Har'), (allocated_in _ _ _ Har).
      split.
      - intros (Hin & Hus). destruct (Hnew h Hin Hus) as [-> | ?]; auto.
      - intros [(Hin & Hus) | ->]; [|now split].
        destruct (Hold h Hin Hus) as (Hin' & Hsame). split; [exact Hin'|].
        destruct (arena_block _ _ _ _ Har Hin) as (_ & _ & Hsh & _).
        destruct (block_bytes_same_fields _ _ _ Hsh Hsame) as (_ & _ & ->).
        exact Hus. }
    assert (Hkeep : forall h, allocated kernel_heap (memory s) h ->
                              block_bytes_same (memory s) (memory s') h
                              /\ HEADER_SIZE <= hdr_size (memory s) h).
    { intros h Hh. apply (allocated_in _ _ _ Har) in Hh. destruct Hh as (Hin & Hus).
      destruct (Hold h Hin Hus) as (_ & Hsame).
      destruct (arena_block _ _ _ _ Har Hin) as (_ & _ & Hsh & _). now split. }
    split; [|split; [|split; [|split; [|split]]]].
    + split; [exact Hi'|]. split; [rewrite Ehu; apply wrap64_range|]. now exists l'.
    + intros h. rewrite Hstep, H2. cbn [map fst In]. intuition.
    + intros h Hh.
      assert (allocated kernel_heap (memory s) h) as Hhs by (apply H2; now left).
      destruct (Hkeep h Hhs) as (Hsame & Hsz16).
      assert (Hs0 : HEADER_SIZE <= hdr_size (memory s0) h).
      { destruct Hh as (l0 & Hl0 & Hin0 & _).
        now destruct (arena_block _ _ _ _ Hl0 Hin0) as (_ & _ & ? & _). }
      exact (block_bytes_same_trans _ _ _ _ Hs0 (H3 h Hh) Hsame).
    + intros h sz [Heq | Hin].
      * injection Heq as <- <-. split; [reflexivity|].
        intros Hc. apply Hnb. apply H2. now left.
      * destruct (H4 h sz Hin) as (Esz & Hn0). split; [|exact Hn0].
        assert (allocated kernel_heap (memory s) h) as Hhs.
        { apply H2. right. apply in_map_iff. now exists (h, sz). }
        destruct (Hkeep h Hhs) as (Hsame & Hsz16).
        destruct (block_bytes_same_fields _ _ _ Hsz16 Hsame) as (-> & _). exact Esz.
    + cbn [map fst]. constructor; [|exact H5].
      intros Hin. apply Hnb. apply H2. now right.
    + rewrite Ehu, H6. cbn [sum_sizes fold_right snd].
      rewrite wrap64_add_l. f_equal. unfold sum_sizes. lia.
Qed.

Lemma sum_sizes_app l1 x l2 :
  sum_sizes (l1 ++ x :: l2) = snd x + sum_sizes (l1 ++ l2).
Proof.
  induction l1 as [|y l1 IH]; [reflexivity|].
  cbn [app sum_sizes fold_right] in *. unfold sum_sizes in IH. rewrite IH. lia.
Qed.

Lemma holding_held s0 s held h sz :
  holding kernel_heap s0 s held -> In (h, sz) held ->
  exists l, arena kernel_heap (memory s) l /\ In h l
            /\ hdr_used (memory s) h = true /\ hdr_size (memory s) h = sz
            /\ kernel_heap <= h /\ HEADER_SIZE <= sz
            /\ h + sz <= heap_end kernel_heap.
Proof.
  intros ((Hi & Hu & l & Har) & H2 & H3 & H4 & H5 & H6) Hin.
  assert (allocated kernel_heap (memory s) h) as Hh.
  { apply H2. right. apply in_map_iff. now exists (h, sz). }
  apply (allocated_in _ _ _ Har) in Hh. destruct Hh as (Hl & Hus).
  destruct (H4 h sz Hin) as (Esz & _).
  destruct (arena_block _ _ _ _ Har Hl) as (Hlo & _ & Hs & He).
  exists l. rewrite <- Esz. auto 10.
Qed.

(** Freeing a held block drops it from the held list. *)
Lemma holding_kfree s0 s l1 h sz l2 :
  holding kernel_heap s0 s (l1 ++ (h, sz) :: l2) ->
  holding kernel_heap s0 (kfree kernel_heap (h + HEADER_SIZE) s) (l1 ++ l2)
  /\ dev_reads (kfree kernel_heap (h + HEADER_SIZE) s) = dev_reads s
  /\ klog (kfree kernel_heap (h + HEADER_SIZE) s) = klog s.
Proof.
  intros Hold.
  assert (Hin : In (h, sz) (l1 ++ (h, sz) :: l2)) by (apply in_or_app; right; now left).
  destruct (holding_held _ _ _ _ _ Hold Hin) as (l & Har & Hl & Hus & Esz & _).
  destruct Hold as ((Hi & Hu & _) & H2 & H3 & H4 & H5 & H6).
  destruct (kfree_frame kernel_heap heap_lo heap_hi s l h Hi Har Hl Hus)
    as (l' & Har' & Hi' & Hlog & Hdev & Ehu & Hl' & Hfree & Hkeep & Hnew).
  set (s' := kfree kernel_heap (h + HEADER_SIZE) s) in *.
  split; [|now split].
  rewrite map_app in H5. cbn [map fst] in H5.
  pose proof (NoDup_remove_1 _ _ _ H5) as Hnd.
  pose proof (NoDup_remove_2 _ _ _ H5) as Hnotin.
  rewrite <- map_app in Hnd, Hnotin.
  assert (Hstep : forall h', allocated kernel_heap (memory s') h' <->
                             allocated kernel_heap (memory s) h' /\ h' <> h).
  { intros h'. rewrite (allocated_in _ _ _ Har'), (allocated_in _ _ _ Har). split.
    - intros (Hin' & Hus'). destruct (Hnew h' Hin' Hus') as (? & ? & ?). auto.
    - intros ((Hin' & Hus') & Hne). destruct (Hkeep h' Hin' Hus' Hne) as (Hin2 & Hsame).
      split; [exact Hin2|].
      destruct (arena_block _ _ _ _ Har Hin') as (_ & _ & Hsh & _).
      destruct (block_bytes_same_fields _ _ _ Hsh Hsame) as (_ & _ & ->).
      exact Hus'. }
  assert (Hsame : forall h', allocated kernel_heap (memory s) h' -> h' <> h ->
                             block_bytes_same (memory s) (memory s') h'
                             /\ HEADER_SIZE <= hdr_size (memory s) h').
  { intros h' Hh' Hne. apply (allocated_in _ _ _ Har) in Hh'.
    destruct Hh' as (Hin' & Hus').
    destruct (Hkeep h' Hin' Hus' Hne) as (_ & Hs).
    destruct (arena_block _ _ _ _ Har Hin') as (_ & _ & Hsh & _). now split. }
  assert (Hmem : forall x, In x (l1 ++ l2) -> In x (l1 ++ (h, sz) :: l2)).
  { intros x Hx. apply in_app_or in Hx. apply in_or_app.
    destruct Hx; [now left|right; now right]. }
  split; [|split; [|split; [|split; [|split]]]].
  - split; [exact Hi'|]. split; [rewrite Ehu; apply wrap64_range|]. now exists l'.
  - intros h'. rewrite Hstep, H2. rewrite !map_app. cbn [map fst].
    rewrite !in_app_iff. cbn [In]. rewrite map_app, in_app_iff in Hnotin.
    split.
    + intros (Hcases & Hne).
      destruct Hcases as [H0 | [Hx | [Hx | Hx]]]; auto. congruence.
    + intros [H0 | [Hx | Hx]].
      * split; [now left|]. intros ->. now apply (proj2 (H4 h sz Hin)).
      * split; [auto|]. intros ->. apply Hnotin. now left.
      * split; [auto|]. intros ->. apply Hnotin. now right.
  - intros h' Hh'.
    assert (h' <> h) as Hne by (intros ->; now apply (proj2 (H4 h sz Hin))).
    assert (allocated kernel_heap (memory s) h') as Hhs by (apply H2; now left).
    destruct (Hsame h' Hhs Hne) as (Hs & _).
    assert (Hs0 : HEADER_SIZE <= hdr_size (memory s0) h').
    { destruct Hh' as (l0 & Hl0 & Hin0 & _).
      now destruct (arena_block _ _ _ _ Hl0 Hin0) as (_ & _ & ? & _). }
    exact (block_bytes_same_trans _ _ _ _ Hs0 (H3 h' Hh') Hs).
  - intros h' sz' Hin'. destruct (H4 h' sz' (Hmem _ Hin')) as (Esz' & Hn0).
    split; [|exact Hn0].
    assert (h' <> h) as Hne.
    { intros ->. apply Hnotin. apply in_map_iff. now exists (h, sz'). }
    assert (allocated kernel_heap (memory s) h') as Hhs.
    { apply H2. right. apply in_map_iff. exists (h', sz'). split; [reflexivity|].
      now apply Hmem. }
    destruct (Hsame h' Hhs Hne) as (Hs & Hsz16).
    destruct (block_bytes_same_fields _ _ _ Hsz16 Hs) as (-> & _). exact Esz'.
  - exact Hnd.
  - rewrite Ehu, H6, Esz, sum_sizes_app. cbn [snd].
    rewrite wrap64_sub_l. f_equal. lia.
Qed.

(** Writing inside the payload of a held block keeps everything. *)
Lemma holding_write s0 s s' held h sz :
  holding kernel_heap s0 s held -> In (h, sz) held ->
  heap_initialized s' = heap_initialized s -> heap_used s' = heap_used s ->
  (forall x, kernel_heap <= x < heap_end kernel_heap ->
             x < h + HEADER_SIZE \/ h + sz <= x -> memory s' x = memory s x) ->
  holding kernel_heap s0 s' held.
Proof.
  intros Hold Hin Ei Eu Hfr.
  destruct (holding_held _ _ _ _ _ Hold Hin) as (l & Har & Hl & Hus & Esz & _).
  destruct Hold as ((Hi & Hu & _) & H2 & H3 & H4 & H5 & H6).
  rewrite <- Esz in Hfr.
  destruct (payload_write_frame kernel_heap (memory s) (memory s') l h
              Har Hl Hfr) as (Har' & Hag & Hsame).
  assert (Hstep : forall h', allocated kernel_heap (memory s') h' <->
                             allocated kernel_heap (memory s) h').
  { intros h'. rewrite (allocated_in _ _ _ Har'), (allocated_in _ _ _ Har).
    split; intros (Hin' & Hus'); (split; [exact Hin'|]);
      destruct (hdr_agree_fields _ _ _ (Hag h' Hin')) as (_ & _ & Eq); congruence. }
  split; [|split; [|split; [|split; [|split]]]].
  - split; [congruence|]. split; [rewrite Eu; exact Hu|]. now exists l.
  - intros h'. now rewrite Hstep, H2.
  - intros h' Hh'.
    assert (h' <> h) as Hne by (intros ->; now apply (proj2 (H4 h sz Hin))).
    assert (allocated kernel_heap (memory s) h') as Hhs by (apply H2; now left).
    apply (allocated_in _ _ _ Har) in Hhs. destruct Hhs as (Hin' & _).
    assert (Hs0 : HEADER_SIZE <= hdr_size (memory s0) h').
    { destruct Hh' as (l0 & Hl0 & Hin0 & _).
      now destruct (arena_block _ _ _ _ Hl0 Hin0) as (_ & _ & ? & _). }
    exact (block_bytes_same_trans _ _ _ _ Hs0 (H3 h' Hh') (Hsame h' Hin' Hne)).
  - intros h' sz' Hin'. destruct (H4 h' sz' Hin') as (Esz' & Hn0).
    split; [|exact Hn0].
    assert (allocated kernel_heap (memory s) h') as Hhs.
    { apply H2. right. apply in_map_iff. now exists (h', sz'). }
    apply (allocated_in _ _ _ Har) in Hhs. destruct Hhs as (Hin2 & _).
    destruct (hdr_agree_fields _ _ _ (Hag h' Hin2)) as (Eq & _). congruence.
  - exact H5.
  - now rewrite Eu.
Qed.

(** ** Rules for running the filesystem code on a tracked heap *)

Lemma wp_bind {A B} (c : M A) (k : A -> M B) Q s :
  wp c (fun a s' => wp (k a) Q s') s -> wp (bind c k) Q s.
Proof. unfold wp, bind. destruct (c s); auto. Qed.

Lemma wp_ret {A} (a : A) (Q : A -> kstate -> Prop) s : Q a s -> wp (ret a) Q s.
Proof. auto. Qed.

Lemma wp_lift f (Q : unit -> kstate -> Prop) s : Q tt (f s) -> wp (lift f) Q s.
Proof. auto. Qed.

Lemma wp_get {A} (f : kstate -> A) (Q : A -> kstate -> Prop) s :
  Q (f s) s -> wp (get f) Q s.
Proof. auto. Qed.

Lemma wp_raise {A} t (Q : A -> kstate -> Prop) s :
  t <> LoopBound -> wp (raise t) Q s.
Proof. auto. Qed.

Lemma wp_mono {A} (c : M A) (Q Q' : A -> kstate -> Prop) s :
  wp c Q s -> (forall a s', Q a s' -> Q' a s') -> wp c Q' s.
Proof. unfold wp. destruct (c s); auto. Qed.

Lemma wp_kerr fmt args (Q : unit -> kstate -> Prop) s :
  Q tt (kerr fmt args s) -> wp (kerr_m fmt args) Q s.
Proof. auto. Qed.

Lemma wp_kprintf fmt args (Q : unit -> kstate -> Prop) s :
  Q tt (kprintf fmt args s) -> wp (kprintf_m fmt args) Q s.
Proof. auto. Qed.

Lemma wp_kfree p (Q : unit -> kstate -> Prop) s :
  Q tt (kfree kernel_heap p s) -> wp (kfree_m kernel_heap p) Q s.
Proof. auto. Qed.

Lemma holding_kerr s0 s held fmt args :
  holding kernel_heap s0 s held -> holding kernel_heap s0 (kerr fmt args s) held.
Proof. intros H. exact (holding_same_heap _ _ _ _ H (same_heap_kerr fmt args s)). Qed.

Lemma holding_kprintf s0 s held fmt args :
  holding kernel_heap s0 s held -> holding kernel_heap s0 (kprintf fmt args s) held.
Proof. intros H. exact (holding_same_heap _ _ _ _ H (same_heap_kprintf fmt args s)). Qed.

(** Freeing the most recent held block. *)
Lemma holding_kfree_head s0 s p h sz held :
  holding kernel_heap s0 s ((h, sz) :: held) -> p = h + HEADER_SIZE ->
  holding kernel_heap s0 (kfree kernel_heap p s) held.
Proof. intros H ->. exact (proj1 (holding_kfree s0 s [] h sz held H)). Qed.

Lemma holding_kfree_ptr s0 s p sz held :
  holding kernel_heap s0 s ((p - HEADER_SIZE, sz) :: held) ->
  holding kernel_heap s0 (kfree kernel_heap p s) held.
Proof. intros H. apply (holding_kfree_head s0 s p _ sz held H). lia. Qed.

Lemma wp_kmalloc s0 s held n (Q : Z -> kstate -> Prop) :
  holding kernel_heap s0 s held -> 0 <= n -> n + 31 < 2 ^ 64 ->
  (forall s', holding kernel_heap s0 s' held -> Q 0 s') ->
  (forall p sz s',
     0 < p -> p + n <= p - HEADER_SIZE + sz ->
     holding kernel_heap s0 s' ((p - HEADER_SIZE, sz) :: held) -> Q p s') ->
  wp (kmalloc_m kernel_heap n) Q s.
Proof.
  intros Hold Hn Hn' Q0 Q1. unfold wp, kmalloc_m.
  destruct (Z.eq_dec n 0) as [->|Hne].
  - cbn. now apply Q0.
  - destruct (holding_kmalloc s0 s held n Hold ltac:(lia) Hn')
      as (p & s' & -> & _ & [(-> & H')|(sz & Hp & Hsz & _ & _ & H')]).
    + now apply Q0.
    + now apply (Q1 p sz).
Qed.

(** A device read into a held buffer. *)
Lemma holding_device_read s0 s held d off size buf h sz :
  holding kernel_heap s0 s held -> In (h, sz) held ->
  h + HEADER_SIZE <= buf -> buf + size <= h + sz -> 0 <= size ->
  exists s', device_read d off size buf s = Done (reply_status (dev_read d off size)) s'
             /\ holding kernel_heap s0 s' held
             /\ (forall data, reply_data (dev_read d off size) = Some data ->
                              memory s' = mem_write (memory s) buf size data)
             /\ (reply_data (dev_read d off size) = None -> memory s' = memory s).
Proof.
  intros Hold Hin Hlo Hhi Hsz.
  destruct (holding_held _ _ _ _ _ Hold Hin) as (_ & _ & _ & _ & _ & Hh & _ & He).
  unfold device_read. eexists. split; [reflexivity|].
  pose proof (holding_same_heap _ _ _ _ Hold (same_heap_note_read off size s)) as H1.
  destruct (reply_data (dev_read d off size)) as [data|].
  - split; [|split; [intros ? E; now injection E as <-|discriminate]].
    apply (holding_write s0 (note_read off size s) _ held h sz H1 Hin);
      [reflexivity|reflexivity|].
    intros x Hx Hout. cbn. unfold mem_write.
    rewrite in_range_outside; [reflexivity| | | | |]; unfold heap_end in *; arith.
  - split; [exact H1|]. split; [discriminate|reflexivity].
Qed.

Lemma wp_read_block s0 s held fs b buf h sz (Q : Z -> kstate -> Prop) :
  holding kernel_heap s0 s held -> In (h, sz) held ->
  h + HEADER_SIZE <= buf -> buf + block_size fs <= h + sz -> 0 <= block_size fs ->
  (forall rc s', holding kernel_heap s0 s' held -> Q rc s') ->
  wp (ext4_read_block fs b buf) Q s.
Proof.
  intros Hold Hin Hlo Hhi Hbs HQ. unfold ext4_read_block.
  destruct (device fs) as [d|]; [|now apply wp_ret, HQ].
  destruct (buf =? 0); [now apply wp_ret, HQ|].
  destruct (holding_device_read s0 s held d (wrap64 (b * block_size fs))
              (block_size fs) buf h sz Hold Hin Hlo Hhi Hbs) as (s' & E & H' & _).
  unfold wp. rewrite E. now apply HQ.
Qed.

Lemma wp_read_inode s0 s held fs n ino (Q : Z * inode_bytes -> kstate -> Prop) :
  holding kernel_heap s0 s held -> 0 <= block_size fs -> block_size fs + 31 < 2 ^ 64 ->
  (forall r s', holding kernel_heap s0 s' held -> Q r s') ->
  wp (ext4_read_inode kernel_heap fs n ino) Q s.
Proof.
  intros Hold Hbs Hbs' HQ. unfold ext4_read_inode.
  destruct (n <? 1); [now apply wp_ret, HQ|].
  destruct (inodes_per_group fs =? 0); [now apply wp_raise|].
  destruct (groups_count fs <=? _).
  { apply wp_bind, wp_kerr, wp_ret, HQ. now apply holding_kerr. }
  apply wp_bind, wp_get.
  destruct (block_size fs =? 0); [now apply wp_raise|].
  apply wp_bind. apply (wp_kmalloc s0 s held (block_size fs)); auto.
  - intros s1 H1. cbn [Z.eqb].
    apply wp_bind, wp_kerr, wp_ret, HQ. now apply holding_kerr.
  - intros p sz s1 Hp Hcap H1.
    replace (p =? 0) with false by (symmetry; apply Z.eqb_neq; lia).
    apply wp_bind.
    apply (wp_read_block s0 s1 ((p - HEADER_SIZE, sz) :: held) fs _ p
             (p - HEADER_SIZE) sz); [exact H1|now left|lia|lia|exact Hbs|].
    intros rc s2 H2.
    destruct (rc <? 0).
    + apply wp_bind, wp_kerr, wp_bind, wp_kfree, wp_ret, HQ.
      apply (holding_kfree_head s0 _ p (p - HEADER_SIZE) sz); [|lia].
      now apply holding_kerr.
    + destruct (SIZEOF_INODE <? _); [now apply wp_raise|].
      apply wp_bind, wp_get, wp_bind, wp_kfree, wp_ret, HQ.
      apply (holding_kfree_head s0 _ p (p - HEADER_SIZE) sz); [exact H2|lia].
Qed.

Lemma wp_create_vfs_node s0 s held fs n ino
  (Q : Z * option vfs_node -> kstate -> Prop) :
  holding kernel_heap s0 s held -> 0 <= block_size fs -> block_size fs + 31 < 2 ^ 64 ->
  (forall rc s', rc < 0 -> holding kernel_heap s0 s' held -> Q (rc, None) s') ->
  (forall node info sz s',
     holding kernel_heap s0 s' ((info - HEADER_SIZE, sz) :: held) ->
     Q (0, Some node) s') ->
  wp (ext4_create_vfs_node kernel_heap fs n ino) Q s.
Proof.
  intros Hold Hbs Hbs' Qerr Qok. unfold ext4_create_vfs_node.
  apply wp_bind. apply (wp_read_inode s0 s held); auto.
  intros [rc ino'] s1 H1.
  destruct (Z.ltb_spec rc 0) as [Hneg|Hpos]; [now apply wp_ret, Qerr|].
  apply wp_bind. apply (wp_kmalloc s0 s1 held SIZEOF_INODE_INFO);
    [exact H1|unfold SIZEOF_INODE_INFO; lia|unfold SIZEOF_INODE_INFO; lia| |].
  - intros s2 H2. cbn [Z.eqb]. apply wp_ret, Qerr; [lia|exact H2].
  - intros p sz s2 Hp _ H2.
    replace (p =? 0) with false by (symmetry; apply Z.eqb_neq; lia).
    apply wp_ret. now apply (Qok _ p sz).
Qed.

Lemma wp_read_gdesc_blocks s0 held h sz fs start (Q : Z -> kstate -> Prop) :
  In (h, sz) held -> 0 <= block_size fs ->
  h + HEADER_SIZE <= group_desc_table fs ->
  forall n i s,
    holding kernel_heap s0 s held -> 0 <= i ->
    (i + Z.of_nat n) * block_size fs < 2 ^ 32 ->
    group_desc_table fs + (i + Z.of_nat n) * block_size fs <= h + sz ->
    (forall rc s', holding kernel_heap s0 s' held -> Q rc s') ->
    wp (read_gdesc_blocks n fs start i) Q s.
Proof.
  intros Hin Hbs Hlo. induction n as [|n IH]; intros i s Hold Hi Hsmall Hfit HQ.
  - now apply wp_ret, HQ.
  - cbn [read_gdesc_blocks]. apply wp_bind.
    assert (Hw : wrap32 (i * block_size fs) = i * block_size fs).
    { unfold wrap32. apply Z.mod_small. nia. }
    rewrite Hw.
    apply (wp_read_block s0 s held fs _ _ h sz); [exact Hold|exact Hin|nia|nia|exact Hbs|].
    intros rc s1 H1. destruct (rc <? 0).
    + apply wp_bind, wp_kerr, wp_ret, HQ. now apply holding_kerr.
    + apply IH; [exact H1|lia| | |exact HQ];
        replace (i + 1 + Z.of_nat n) with (i + Z.of_nat (S n)) by lia; assumption.
Qed.

Lemma block_size_bounds k :
  k <= 20 -> 0 <= 1024 * 2 ^ k /\ 1024 * 2 ^ k + 31 < 2 ^ 64.
Proof.
  intros Hk. pose proof (Z.pow_nonneg 2 k ltac:(lia)) as H0.
  pose proof (Z.pow_le_mono_r 2 k 20 ltac:(lia) Hk) as H1.
  change (2 ^ 20) with 1048576 in H1. lia.
Qed.

Lemma mount_post_ok s0 s root node : mount_post kernel_heap s0 (0, root, node) s.
Proof. unfold mount_post. cbn. lia. Qed.

Ltac free_all :=
  repeat first
    [ apply wp_bind, wp_kerr
    | apply wp_bind, wp_kfree
    | apply wp_ret ].

(** From the magic check on, a failing mount frees the handle, the group
    descriptor table and the root node. *)
Lemma wp_mount_geometry s0 s fs ino hsz :
  holding kernel_heap s0 s [(fs_addr fs - HEADER_SIZE, hsz)] ->
  wp (ext4_mount_geometry kernel_heap fs ino) (mount_post kernel_heap s0) s.
Proof.
  intros Hold. unfold ext4_mount_geometry.
  destruct (negb (s_magic (sb fs) =? EXT4_SUPER_MAGIC)).
  { free_all. intros _.
    apply (holding_kfree_ptr s0 _ _ hsz []). now apply holding_kerr. }
  destruct (Z.ltb_spec 20 (s_log_block_size (sb fs))) as [|Hlog];
    [now apply wp_raise|].
  destruct (s_blocks_per_group (sb fs) =? 0); [now apply wp_raise|].
  cbv zeta.
  set (bs := 1024 * 2 ^ s_log_block_size (sb fs)).
  destruct (block_size_bounds _ Hlog) as (Hbs0 & Hbs1). fold bs in Hbs0, Hbs1.
  set (bc := lo_hi _ _). set (gc := wrap32 (wrap64 _ / _)).
  set (fsg := with_geometry fs bs bc gc).
  change (block_size fsg) with bs.
  do 5 apply wp_bind, wp_kprintf.
  set (gts := wrap32 (groups_count fsg * _)).
  set (gb := wrap32 (gts + bs - 1) / bs).
  assert (Hgb : 0 <= gb /\ gb * bs < 2 ^ 32).
  { pose proof (Z.mod_pos_bound (gts + bs - 1) (2 ^ 32) ltac:(lia)) as Hw.
    fold (wrap32 (gts + bs - 1)) in Hw. unfold gb.
    destruct (Z.eq_dec bs 0) as [->|Hne].
    - rewrite Z.div_0_r. lia.
    - split; [apply Z.div_pos; lia|].
      pose proof (Z.mul_div_le (wrap32 (gts + bs - 1)) bs ltac:(lia)). lia. }
  assert (Hn : wrap32 (gb * bs) = gb * bs).
  { unfold wrap32. apply Z.mod_small. nia. }
  rewrite Hn.
  assert (Hk : forall s1, holding kernel_heap s0 s1 [(fs_addr fs - HEADER_SIZE, hsz)] ->
                          holding kernel_heap s0 (kfree kernel_heap (fs_addr fsg) s1) []).
  { intros s1 H1. now apply (holding_kfree_ptr s0 _ _ hsz []). }
  apply wp_bind.
  apply (wp_kmalloc s0 _ [(fs_addr fs - HEADER_SIZE, hsz)] (gb * bs));
    [repeat apply holding_kprintf; exact Hold|nia|nia| |].
  { intros s1 H1. cbn [Z.eqb]. free_all. intros _. apply Hk. now apply holding_kerr. }
  intros gdt gsz s1 Hgdt Hcap H1.
  replace (gdt =? 0) with false by (symmetry; apply Z.eqb_neq; lia).
  set (fsd := with_group_desc_table fsg gdt).
  change (group_desc_table fsd) with gdt. change (fs_addr fsd) with (fs_addr fs).
  assert (Hk2 : forall s2,
             holding kernel_heap s0 s2
               [(gdt - HEADER_SIZE, gsz); (fs_addr fs - HEADER_SIZE, hsz)] ->
             holding kernel_heap s0
               (kfree kernel_heap (fs_addr fs) (kfree kernel_heap gdt s2)) []).
  { intros s2 H2. apply Hk. exact (holding_kfree_ptr s0 _ _ gsz _ H2). }
  apply wp_bind.
  set (held2 := [(gdt - HEADER_SIZE, gsz); (fs_addr fs - HEADER_SIZE, hsz)]) in *.
  apply (wp_read_gdesc_blocks s0 held2 (gdt - HEADER_SIZE) gsz fsd);
    [now left|exact Hbs0|change (group_desc_table fsd) with gdt; lia|exact H1|lia
    |change (block_size fsd) with bs; rewrite Z2Nat.id by lia; lia
    |change (block_size fsd) with bs; change (group_desc_table fsd) with gdt;
     rewrite Z2Nat.id by lia; lia|].
  intros rc s2 H2.
  destruct (Z.ltb_spec rc 0) as [Hneg|Hpos].
  { free_all. intros _. now apply Hk2. }
  apply wp_bind.
  apply (wp_kmalloc s0 s2 held2 SIZEOF_VFS_NODE);
    [exact H2|unfold SIZEOF_VFS_NODE; lia|unfold SIZEOF_VFS_NODE; lia| |].
  { intros s3 H3. cbn [Z.eqb]. free_all. intros _. apply Hk2. now apply holding_kerr. }
  intros root rsz s3 Hroot _ H3.
  replace (root =? 0) with false by (symmetry; apply Z.eqb_neq; lia).
  apply wp_bind.
  apply (wp_create_vfs_node s0 s3 ((root - HEADER_SIZE, rsz) :: held2) fsd);
    [exact H3|exact Hbs0|exact Hbs1| |].
  - intros rc' s4 Hneg H4.
    replace (rc' <? 0) with true by (symmetry; apply Z.ltb_lt; exact Hneg).
    free_all. intros _. apply Hk2.
    exact (holding_kfree_ptr s0 _ _ rsz _ (holding_kerr _ _ _ _ _ H4)).
  - intros [ty sz ino' [info|]] ip isz s4 H4; cbn [Z.ltb Z.compare];
      apply wp_bind, wp_kprintf, wp_ret, mount_post_ok.
Qed.

Lemma load_le_shift (n : nat) (m m' : mem) (a b : Z) :
  (forall i, 0 <= i < Z.of_nat n -> m (a + i) = m' (b + i)) ->
  load_le n m a = load_le n m' b.
Proof.
  revert a b. induction n as [|n IH]; intros a b H; [reflexivity|].
  cbn [load_le]. unfold load8.
  pose proof (H 0 ltac:(lia)) as H0. rewrite !Z.add_0_r in H0. rewrite H0.
  rewrite (IH (a + 1) (b + 1)); [reflexivity|].
  intros i Hi. rewrite <- !Z.add_assoc. apply H. lia.
Qed.

(** Bytes just written by the device are read back as sent. *)
Lemma load_mem_write (n : nat) m buf size data off :
  0 <= buf -> buf + size <= 2 ^ 64 -> 0 <= off -> off + Z.of_nat n <= size ->
  load_le n (mem_write m buf size data) (buf + off) = load_le n data off.
Proof.
  intros Hb Hs Ho Hn. apply load_le_shift. intros i Hi. unfold mem_write.
  rewrite in_range_inside by lia. f_equal. rewrite wrap64_small; lia.
Qed.

Lemma holding_memset s0 s held h sz p c n :
  holding kernel_heap s0 s held -> In (h, sz) held ->
  h + HEADER_SIZE <= p -> p + n <= h + sz -> 0 <= n ->
  holding kernel_heap s0 (memset p c n s) held.
Proof.
  intros Hold Hin Hlo Hhi Hn.
  destruct (holding_held _ _ _ _ _ Hold Hin) as (_ & _ & _ & _ & _ & Hh & _ & He).
  unfold memset. destruct (p =? 0); [now apply holding_kerr|].
  destruct (n =? 0); [exact Hold|].
  apply (holding_write s0 s _ held h sz Hold Hin); [reflexivity|reflexivity|].
  intros x Hx Hout. cbn. unfold mem_fill.
  rewrite in_range_outside; [reflexivity| | | | |]; unfold heap_end in *; arith.
Qed.

Lemma mount_geometry_bad_magic fs ino s :
  s_magic (sb fs) <> EXT4_SUPER_MAGIC ->
  ext4_mount_geometry kernel_heap fs ino s
  = Done (-1, None, None)
      (kfree kernel_heap (fs_addr fs)
         (kerr "EXT4: Invalid superblock magic: 0x%x\n" [LInt (s_magic (sb fs))] s)).
Proof.
  intros H. unfold ext4_mount_geometry.
  replace (s_magic (sb fs) =? EXT4_SUPER_MAGIC) with false
    by (symmetry; now apply Z.eqb_neq).
  reflexivity.
Qed.

(** The start of [ext4_mount], up to the magic check: either the call has
    already failed and released what it had allocated, or the handle is
    the only block held and the superblock is the one the device sent. *)
Lemma mount_prefix s d root ino :
  heap_wf kernel_heap s -> root <> 0 ->
  (exists rc s',
      ext4_mount kernel_heap (Some d) root ino s = Done (rc, None, None) s'
      /\ rc < 0 /\ heap_same kernel_heap s s')
  \/ (exists fsp fsz s1 sbk,
        holding kernel_heap s s1 [(fsp - HEADER_SIZE, fsz)]
        /\ ext4_mount kernel_heap (Some d) root ino s
           = ext4_mount_geometry kernel_heap
               (mkFs fsp (Some d) sbk 0 0 0 0 0 0 0) ino s1
        /\ (forall g, device_magic d = Some g -> s_magic sbk = g)
        /\ 0 <= reply_status (dev_read d EXT4_SUPERBLOCK_OFFSET SIZEOF_SUPERBLOCK)).
Proof.
  intros Hwf Hroot. unfold ext4_mount.
  replace (root =? 0) with false by (symmetry; now apply Z.eqb_neq).
  rewrite bind_unfold. cbv beta iota delta [kprintf_m lift].
  pose proof (holding_kprintf s s [] "EXT4: Mounting filesystem on device %s\n"
                [LStr (dev_name d)] (holding_refl s Hwf)) as H0.
  set (sa := kprintf _ _ s) in *.
  rewrite bind_unfold.
  destruct (holding_kmalloc s sa [] SIZEOF_FS H0
              ltac:(unfold SIZEOF_FS; lia) ltac:(unfold SIZEOF_FS; lia))
    as (fsp & s1 & E1 & _ & [(-> & H1)|(fsz & Hfsp & Hcap1 & Hend1 & Hlo1 & H1)]);
    unfold kmalloc_m; rewrite E1.
  { left. exists (-1). eexists. split; [reflexivity|]. split; [lia|].
    now apply holding_kerr. }
  replace (fsp =? 0) with false by (symmetry; apply Z.eqb_neq; lia).
  rewrite bind_unfold. cbv beta iota delta [lift].
  pose proof (holding_memset s s1 _ (fsp - HEADER_SIZE) fsz fsp 0 SIZEOF_FS H1
                ltac:(now left) ltac:(lia) ltac:(lia)
                ltac:(unfold SIZEOF_FS; lia)) as H2.
  set (s2 := memset fsp 0 SIZEOF_FS s1) in *.
  rewrite bind_unfold.
  destruct (holding_kmalloc s s2 _ SIZEOF_SUPERBLOCK H2
              ltac:(unfold SIZEOF_SUPERBLOCK; lia)
              ltac:(unfold SIZEOF_SUPERBLOCK; lia))
    as (sbp & s3 & E3 & _ & [(-> & H3)|(ssz & Hsbp & Hcap3 & Hend3 & Hlo3 & H3)]);
    rewrite E3.
  { left. exists (-1). eexists. split; [reflexivity|]. split; [lia|].
    apply (holding_kfree_ptr s _ _ fsz []). now apply holding_kerr. }
  replace (sbp =? 0) with false by (symmetry; apply Z.eqb_neq; lia).
  rewrite bind_unfold.
  destruct (holding_device_read s s3 _ d EXT4_SUPERBLOCK_OFFSET SIZEOF_SUPERBLOCK sbp
              (sbp - HEADER_SIZE) ssz H3 ltac:(now left) ltac:(lia) ltac:(lia)
              ltac:(unfold SIZEOF_SUPERBLOCK; lia))
    as (s4 & E4 & H4 & Hdata & _).
  rewrite E4.
  destruct (Z.ltb_spec (reply_status
              (dev_read d EXT4_SUPERBLOCK_OFFSET SIZEOF_SUPERBLOCK)) 0) as [Hneg|Hpos].
  { left. eexists. eexists. split; [reflexivity|]. split; [exact Hneg|].
    apply (holding_kfree_ptr s _ _ fsz []).
    apply (holding_kfree_ptr s _ _ ssz _). now apply holding_kerr. }
  right. exists fsp, fsz. eexists. eexists.
  split; [exact (holding_kfree_ptr s _ _ ssz _ H4)|]. split; [reflexivity|].
  split; [|exact Hpos].
  intros g Hg. unfold device_magic in Hg. cbn [s_magic read_superblock sb].
  destruct (reply_data (dev_read d EXT4_SUPERBLOCK_OFFSET SIZEOF_SUPERBLOCK))
    as [data|]; [|discriminate].
  injection Hg as <-. rewrite (Hdata data eq_refl). unfold load16.
  apply load_mem_write; unfold SIZEOF_SUPERBLOCK, heap_end in *; arith.
Qed.

(** ** C5: a failed mount keeps nothing *)

Lemma wp_mount s dev root ino :
  heap_wf kernel_heap s ->
  wp (ext4_mount kernel_heap dev root ino) (mount_post kernel_heap s) s.
Proof.
  intros Hwf.
  destruct dev as [d|]; [|intros _; now apply holding_refl].
  destruct (Z.eq_dec root 0) as [->|Hroot]; [intros _; now apply holding_refl|].
  destruct (mount_prefix s d root ino Hwf Hroot)
    as [(rc & s' & E & _ & Hsame)|(fsp & fsz & s1 & sbk & H1 & E & _ & _)].
  - unfold wp. rewrite E. intros _. exact Hsame.
  - unfold wp. rewrite E.
    exact (wp_mount_geometry s s1 (mkFs fsp (Some d) sbk 0 0 0 0 0 0 0) ino fsz H1).
Qed.

(** C5. On a well-shaped heap, [ext4_mount] either returns or stops on an
    undefined operation of the C code (never on the walk bound), and
    whenever it returns a negative code the heap is as before the call:
    the same blocks are in use with the same bytes and the same byte
    count, so the handle, the superblock buffer, the group descriptor
    table, the root node and the inode buffers allocated on the way have
    all been freed.  A device that answers the superblock read with a
    magic field other than 0xEF53 makes the mount return -1, and a failed
    superblock read makes it return the device's error code, in both
    cases with nothing stored through the result pointer. *)
Theorem mount_failure_releases_everything s dev root ino :
  heap_wf kernel_heap s ->
  match ext4_mount kernel_heap dev root ino s with
  | Done (rc, _, _) s' => rc < 0 -> heap_same kernel_heap s s'
  | Trap t => t <> LoopBound
  end
  /\ (forall d g,
        dev = Some d -> root <> 0 ->
        device_magic d = Some g -> g <> EXT4_SUPER_MAGIC ->
        exists rc s',
          ext4_mount kernel_heap dev root ino s = Done (rc, None, None) s'
          /\ rc < 0 /\ heap_same kernel_heap s s')
  /\ (forall d,
        dev = Some d -> root <> 0 ->
        reply_status (dev_read d EXT4_SUPERBLOCK_OFFSET SIZEOF_SUPERBLOCK) < 0 ->
        exists rc s',
          ext4_mount kernel_heap dev root ino s = Done (rc, None, None) s'
          /\ rc < 0 /\ heap_same kernel_heap s s').
Proof.
  intros Hwf. split; [|split].
  - pose proof (wp_mount s dev root ino Hwf) as H. unfold wp, mount_post in H.
    destruct (ext4_mount kernel_heap dev root ino s) as [[[rc r] n] s'|t];
      [exact H|exact H].
  - intros d g -> Hroot Hg Hbad.
    destruct (mount_prefix s d root ino Hwf Hroot)
      as [(rc & s' & E & Hrc & Hsame)|(fsp & fsz & s1 & sbk & H1 & E & Hmagic & Hst)].
    + now exists rc, s'.
    + rewrite E, mount_geometry_bad_magic
        by (cbn [sb]; rewrite (Hmagic g Hg); exact Hbad).
      exists (-1). eexists. split; [reflexivity|]. split; [lia|].
      apply (holding_kfree_ptr s _ _ fsz []). now apply holding_kerr.
  - intros d -> Hroot Hfail.
    destruct (mount_prefix s d root ino Hwf Hroot)
      as [(rc & s' & E & Hrc & Hsame)|(fsp & fsz & s1 & sbk & H1 & E & Hmagic & Hst)].
    + now exists rc, s'.
    + lia.
Qed.


(** ** EXT4: extent resolution *)

Lemma ascending_tail x l : ascending (x :: l) -> ascending l.
Proof. destruct l as [|y l]; [easy|]. now intros (_ & H). Qed.

Lemma ascending_all_ge x l : ascending (x :: l) -> Forall (fun y => x <= y) l.
Proof.
  revert x. induction l as [|y l IH]; intros x H; [constructor|].
  destruct H as (Hxy & H). constructor; [exact Hxy|].
  specialize (IH y H). eapply Forall_impl; [|exact IH]. cbn. intros; lia.
Qed.

Lemma filter_all_above b l y :
  b < y -> Forall (fun z => y <= z) (map fst l) ->
  filter (fun e : Z * Z => fst e <=? b) l = [].
Proof.
  intros Hy. induction l as [|e l IH]; intros H; [reflexivity|].
  cbn [map] in H. inversion H as [|? ? He Hl]; subst. cbn [filter].
  replace (fst e <=? b) with false by (symmetry; apply Z.leb_gt; lia). now apply IH.
Qed.

Lemma last_cons_default {A} (a : A) l d d' : last (a :: l) d = last (a :: l) d'.
Proof.
  revert a. induction l as [|c l IH]; intros a; [reflexivity|].
  change (last (c :: l) d = last (c :: l) d'). apply IH.
Qed.

Lemma scan_list_last b x rest :
  ascending (map fst (x :: rest)) ->
  scan_list b x rest = last (filter (fun e => fst e <=? b) (x :: rest)) x.
Proof.
  revert x. induction rest as [|y r IH]; intros x Hasc.
  - cbn. now destruct (fst x <=? b).
  - cbn [scan_list]. cbn [map] in Hasc. destruct Hasc as (Hxy & Hasc).
    destruct (Z.leb_spec (fst y) b) as [Hy|Hy].
    + rewrite (IH y Hasc).
      cbn [filter].
      replace (fst x <=? b) with true by (symmetry; apply Z.leb_le; lia).
      replace (fst y <=? b) with true by (symmetry; apply Z.leb_le; lia).
      set (f := filter _ r).
      change (last (y :: f) y = last (y :: f) x). apply last_cons_default.
    + pose proof (ascending_all_ge _ _ Hasc) as Hall.
      assert (Hf : filter (fun e : Z * Z => fst e <=? b) (y :: r) = []).
      { apply (filter_all_above b (y :: r) (fst y) Hy). cbn [map].
        constructor; [lia|exact Hall]. }
      cbn [filter] in *. rewrite Hf. now destruct (fst x <=? b).
Qed.

Lemma entry_indices_S first n :
  entry_indices first (S n) = first :: entry_indices (first + 1) n.
Proof.
  unfold entry_indices. cbn [seq map]. rewrite Z.add_0_r. f_equal.
  rewrite <- seq_shift, map_map. apply map_ext. intros k. lia.
Qed.

Lemma load16_range m a : 0 <= load16 m a < 2 ^ 16.
Proof. exact (load_le_range 2 m a). Qed.

Lemma load32_range m a : 0 <= load32 m a < 2 ^ 32.
Proof. exact (load_le_range 4 m a). Qed.

Lemma lor_bound n a b :
  0 <= n -> 0 <= a < 2 ^ n -> 0 <= b < 2 ^ n -> 0 <= Z.lor a b < 2 ^ n.
Proof.
  intros Hn Ha Hb. split; [apply Z.lor_nonneg; lia|].
  destruct (Z.eq_dec (Z.lor a b) 0) as [->|Hne]; [lia|].
  assert (0 < Z.lor a b) by (pose proof (proj2 (Z.lor_nonneg a b)); lia).
  apply Z.log2_lt_pow2; [assumption|].
  rewrite Z.log2_lor by lia.
  assert (Hlog : forall c, 0 <= c < 2 ^ n -> 0 < n -> Z.log2 c < n).
  { intros c Hc Hn0. destruct (Z.eq_dec c 0) as [->|]; [cbn; lia|].
    apply Z.log2_lt_pow2; lia. }
  assert (0 < n).
  { destruct (Z.eq_dec n 0) as [->|]; [|lia]. cbn in Ha, Hb.
    replace a with 0 in * by lia. replace b with 0 in * by lia. now cbn in Hne. }
  apply Z.max_lub_lt; auto.
Qed.

Lemma extent_start_bound lo hi :
  0 <= lo < 2 ^ 32 -> 0 <= hi < 2 ^ 16 -> 0 <= lo_hi lo hi < 2 ^ 48.
Proof.
  intros Hlo Hhi. unfold lo_hi. rewrite Z.shiftl_mul_pow2 by lia.
  rewrite wrap64_small by lia. apply lor_bound; lia.
Qed.

(** The index scan of the code, read on the list of entries. *)
Lemma index_scan_list nb entries b :
  forall k fuel i,
    0 <= i -> i + 1 + Z.of_nat k = entries -> (k <= fuel)%nat ->
    i <= index_scan fuel nb 0 entries b i < entries
    /\ index_entry_of nb (index_scan fuel nb 0 entries b i)
       = scan_list b (index_entry_of nb i)
           (map (index_entry_of nb) (entry_indices (i + 1) k)).
Proof.
  induction k as [|k IH]; intros fuel i Hi Hk Hfuel.
  - cbn [entry_indices seq map scan_list]. destruct fuel as [|fuel]; cbn [index_scan].
    + split; [lia|reflexivity].
    + replace (i <? entries) with true by (symmetry; apply Z.ltb_lt; lia).
      replace (i <? entries - 1) with false by (symmetry; apply Z.ltb_ge; lia).
      cbn [andb]. split; [lia|reflexivity].
  - destruct fuel as [|fuel]; [lia|]. cbn [index_scan].
    replace (i <? entries) with true by (symmetry; apply Z.ltb_lt; lia).
    replace (i <? entries - 1) with true by (symmetry; apply Z.ltb_lt; lia).
    cbn [andb]. rewrite entry_indices_S. cbn [map scan_list].
    change (fst (index_entry_of nb (i + 1))) with (ei_block nb 0 (i + 1)).
    destruct (ei_block nb 0 (i + 1) <=? b).
    + destruct (IH fuel (i + 1) ltac:(lia) ltac:(lia) ltac:(lia)) as (Hr & E).
      split; [lia|exact E].
    + split; [lia|reflexivity].
Qed.

Lemma index_scan_spec nb b :
  0 < eh_entries nb 0 -> ascending (map fst (node_indexes nb)) ->
  let i := index_scan (Z.to_nat (eh_entries nb 0)) nb 0 (eh_entries nb 0) b 0 in
  0 <= i < eh_entries nb 0
  /\ spec_select_index (node_indexes nb) b = Some (index_entry_of nb i).
Proof.
  intros Hpos Hasc. cbv zeta. set (entries := eh_entries nb 0) in *.
  destruct (index_scan_list nb entries b (Z.to_nat (entries - 1)) (Z.to_nat entries) 0
              ltac:(lia) ltac:(lia) ltac:(lia)) as (Hr & E).
  split; [lia|].
  unfold node_indexes in *. fold entries in Hasc |- *.
  replace (Z.to_nat entries) with (S (Z.to_nat (entries - 1))) in Hasc |- * at 1 by lia.
  rewrite entry_indices_S in Hasc |- *. cbn [map] in Hasc |- *.
  unfold spec_select_index. f_equal. rewrite E.
  change (0 + 1) with 1.
  symmetry. now apply scan_list_last.
Qed.

Lemma index_scan_empty nb b fuel :
  eh_entries nb 0 = 0 ->
  index_scan fuel nb 0 (eh_entries nb 0) b 0 = 0
  /\ spec_select_index (node_indexes nb) b = None.
Proof.
  intros E. unfold node_indexes. rewrite E. split; [|reflexivity].
  destruct fuel; reflexivity.
Qed.

(** The leaf scan of the code finds the covering extent. *)
Lemma leaf_scan_list nb entries b :
  forall k fuel i,
    0 <= i -> i + Z.of_nat k = entries -> (k <= fuel)%nat ->
    Forall (fun x => fst (fst x) + snd (fst x) < 2 ^ 32)
           (map (extent_of nb) (entry_indices i k)) ->
    leaf_scan fuel nb 0 entries b i
    = spec_leaf_lookup (map (extent_of nb) (entry_indices i k)) b.
Proof.
  induction k as [|k IH]; intros fuel i Hi Hk Hfuel Hall.
  - cbn. destruct fuel; cbn [leaf_scan]; [reflexivity|].
    now replace (i <? entries) with false by (symmetry; apply Z.ltb_ge; lia).
  - destruct fuel as [|fuel]; [lia|]. cbn [leaf_scan].
    replace (i <? entries) with true by (symmetry; apply Z.ltb_lt; lia).
    rewrite entry_indices_S in Hall |- *. cbn [map] in Hall |- *.
    inversion Hall as [|? ? Hx Hrest]; subst. cbn [extent_of fst snd] in Hx.
    pose proof (load32_range nb (entry_at 0 i)) as Hb.
    pose proof (load16_range nb (entry_at 0 i + 4)) as Hl.
    fold (ee_block nb 0 i) in Hb. fold (ee_len nb 0 i) in Hl.
    unfold spec_leaf_lookup. cbn [find extent_covers extent_of].
    unfold wrap32 at 1. rewrite (Z.mod_small (ee_block nb 0 i + ee_len nb 0 i)) by lia.
    destruct ((ee_block nb 0 i <=? b) && (b <? ee_block nb 0 i + ee_len nb 0 i)) eqn:Hc.
    + apply andb_true_iff in Hc. destruct Hc as (H1 & H2).
      apply Z.leb_le in H1. apply Z.ltb_lt in H2.
      pose proof (extent_start_bound (ee_start_lo nb 0 i) (ee_start_hi nb 0 i)
                    (load32_range _ _) (load16_range _ _)) as Hs.
      cbv beta iota delta [extent_of]. f_equal.
      rewrite (wrap64_small (b - ee_block nb 0 i)) by lia.
      apply wrap64_small. lia.
    + exact (IH fuel (i + 1) ltac:(lia) ltac:(lia) ltac:(lia) Hrest).
Qed.

Lemma leaf_scan_spec nb b :
  Forall (fun x => fst (fst x) + snd (fst x) < 2 ^ 32) (node_extents nb) ->
  leaf_scan (Z.to_nat (eh_entries nb 0)) nb 0 (eh_entries nb 0) b 0
  = spec_leaf_lookup (node_extents nb) b.
Proof.
  intros Hall. pose proof (load16_range nb (0 + 2)) as Hr.
  fold (eh_entries nb 0) in Hr.
  apply leaf_scan_list; [lia|lia|lia|exact Hall].
Qed.

Lemma returns_bind {A B} (c : M A) (k : A -> M B) Q s :
  returns c (fun a s' => returns (k a) Q s') s -> returns (bind c k) Q s.
Proof. unfold returns, bind. destruct (c s); auto. Qed.

Lemma returns_ret {A} (a : A) (Q : A -> kstate -> Prop) s :
  Q a s -> returns (ret a) Q s.
Proof. auto. Qed.

Lemma returns_lift f (Q : unit -> kstate -> Prop) s :
  Q tt (f s) -> returns (lift f) Q s.
Proof. auto. Qed.

Lemma returns_get {A} (f : kstate -> A) (Q : A -> kstate -> Prop) s :
  Q (f s) s -> returns (get f) Q s.
Proof. auto. Qed.

Lemma returns_kerr fmt args (Q : unit -> kstate -> Prop) s :
  Q tt (kerr fmt args s) -> returns (kerr_m fmt args) Q s.
Proof. auto. Qed.

Lemma returns_kfree p (Q : unit -> kstate -> Prop) s :
  Q tt (kfree kernel_heap p s) -> returns (kfree_m kernel_heap p) Q s.
Proof. auto. Qed.

Lemma node_at_load (n : nat) m buf limit nb a c :
  node_at m buf limit nb -> a = buf + c -> 0 <= c -> c + Z.of_nat n <= limit ->
  load_le n m a = load_le n nb c.
Proof.
  intros H -> Ho Hn. apply load_le_shift. intros i Hi.
  rewrite <- Z.add_assoc. apply H. lia.
Qed.

Ltac node_field H :=
  unfold eh_magic, eh_entries, eh_depth, ei_block, ei_leaf_lo, ei_leaf_hi, ee_block,
    ee_len, ee_start_lo, ee_start_hi, entry_at, load16, load32;
  eapply node_at_load; [exact H | lia | lia | simpl Z.of_nat; lia].

Lemma node_at_header m buf limit nb :
  node_at m buf limit nb -> 12 <= limit ->
  eh_magic m buf = eh_magic nb 0 /\ eh_entries m buf = eh_entries nb 0
  /\ eh_depth m buf = eh_depth nb 0.
Proof. intros H Hl. repeat split; node_field H. Qed.

Lemma node_at_entry m buf limit nb i :
  node_at m buf limit nb -> 0 <= i -> 12 + 12 * (i + 1) <= limit ->
  ei_block m buf i = ei_block nb 0 i
  /\ ei_leaf_lo m buf i = ei_leaf_lo nb 0 i
  /\ ei_leaf_hi m buf i = ei_leaf_hi nb 0 i
  /\ ee_block m buf i = ee_block nb 0 i
  /\ ee_len m buf i = ee_len nb 0 i
  /\ ee_start_lo m buf i = ee_start_lo nb 0 i
  /\ ee_start_hi m buf i = ee_start_hi nb 0 i.
Proof. intros H Hi Hl. repeat split; node_field H. Qed.

Lemma index_scan_ext m buf limit nb entries b :
  node_at m buf limit nb -> 12 + 12 * entries <= limit ->
  forall fuel i, 0 <= i ->
    index_scan fuel m buf entries b i = index_scan fuel nb 0 entries b i.
Proof.
  intros H Hl. induction fuel as [|fuel IH]; intros i Hi; [reflexivity|].
  cbn [index_scan]. destruct (i <? entries); [|reflexivity].
  destruct (Z.ltb_spec i (entries - 1)) as [Hlt|]; [|reflexivity]. cbn [andb].
  destruct (node_at_entry m buf limit nb (i + 1) H ltac:(lia) ltac:(lia)) as (-> & _).
  rewrite IH by lia. reflexivity.
Qed.

Lemma leaf_scan_ext m buf limit nb entries b :
  node_at m buf limit nb -> 12 + 12 * entries <= limit ->
  forall fuel i, 0 <= i ->
    leaf_scan fuel m buf entries b i = leaf_scan fuel nb 0 entries b i.
Proof.
  intros H Hl. induction fuel as [|fuel IH]; intros i Hi; [reflexivity|].
  cbn [leaf_scan]. destruct (Z.ltb_spec i entries) as [Hlt|]; [|reflexivity].
  destruct (node_at_entry m buf limit nb i H Hi ltac:(lia))
    as (_ & _ & _ & -> & -> & -> & ->).
  rewrite IH by lia. reflexivity.
Qed.

(** ** C6: the descent through the extent tree *)

Lemma node_at_written m buf bs data :
  0 <= buf -> buf + bs <= 2 ^ 64 ->
  node_at (mem_write m buf bs data) buf bs data.
Proof.
  intros Hb Hs x Hx. unfold mem_write.
  rewrite in_range_inside by lia. f_equal. rewrite wrap64_small; lia.
Qed.

Lemma node_at_weaken m buf limit limit' nb :
  node_at m buf limit nb -> limit' <= limit -> node_at m buf limit' nb.
Proof. intros H Hl x Hx. apply H. lia. Qed.

Lemma extent_descend_spec s0 fs b buf sz :
  0 < buf -> buf + block_size fs <= buf - HEADER_SIZE + sz -> 12 <= block_size fs ->
  forall depth s nb limit,
    holding kernel_heap s0 s [(buf - HEADER_SIZE, sz)] ->
    limit <= block_size fs -> node_at (memory s) buf limit nb ->
    tree_ok depth fs limit nb b ->
    returns (extent_descend kernel_heap depth fs buf b)
            (fun r s' => r = spec_resolve depth fs nb b
                         /\ holding kernel_heap s0 s' []) s.
Proof.
  intros Hbuf Hcap Hbs. induction depth as [|depth IH];
    intros s nb limit Hold Hlim Hnode Hok.
  - destruct Hok as (Hfit & Hall).
    pose proof (load16_range nb (0 + 2)) as Hent. fold (eh_entries nb 0) in Hent.
    destruct (node_at_header _ _ _ _ Hnode ltac:(lia)) as (_ & Eent & _).
    cbn [extent_descend spec_resolve]. apply returns_bind, returns_get.
    cbv zeta. rewrite Eent.
    rewrite (leaf_scan_ext _ _ _ _ _ b Hnode Hfit) by lia.
    assert (Hall' : Forall (fun x => fst (fst x) + snd (fst x) < 2 ^ 32)
                           (node_extents nb)).
    { apply Forall_forall. intros x Hx.
      apply Z.ltb_lt. exact (proj1 (forallb_forall _ _) Hall x Hx). }
    rewrite (leaf_scan_spec nb b Hall').
    destruct (spec_leaf_lookup (node_extents nb) b) as [phys|].
    + apply returns_bind, returns_kfree, returns_ret. split; [reflexivity|].
      exact (holding_kfree_ptr s0 _ _ sz [] Hold).
    + apply returns_bind, returns_kerr, returns_bind, returns_kfree, returns_ret.
      split; [reflexivity|].
      exact (holding_kfree_ptr s0 _ _ sz [] (holding_kerr _ _ _ _ _ Hold)).
  - destruct Hok as (Hfit & Hasc & Hchild).
    pose proof (load16_range nb (0 + 2)) as Hent. fold (eh_entries nb 0) in Hent.
    destruct (node_at_header _ _ _ _ Hnode ltac:(lia)) as (_ & Eent & _).
    cbn [extent_descend spec_resolve]. apply returns_bind, returns_get.
    cbv zeta. rewrite Eent.
    rewrite (index_scan_ext _ _ _ _ _ b Hnode Hfit) by lia.
    assert (Hfail : forall (rc : Z) s1 fmt args,
               holding kernel_heap s0 s1 [(buf - HEADER_SIZE, sz)] ->
               returns (kerr_m fmt args ;;; kfree_m kernel_heap buf ;;;
                        ret (rc, @None Z))%kmonad
                       (fun r s' => r = (rc, None) /\ holding kernel_heap s0 s' []) s1).
    { intros rc s1 fmt args H1.
      apply returns_bind, returns_kerr, returns_bind, returns_kfree, returns_ret.
      split; [reflexivity|].
      exact (holding_kfree_ptr s0 _ _ sz [] (holding_kerr _ _ _ _ _ H1)). }
    destruct (Z.eq_dec (eh_entries nb 0) 0) as [E0|Hne].
    { destruct (index_scan_empty nb b (Z.to_nat (eh_entries nb 0)) E0) as (-> & ->).
      rewrite E0. cbn [Z.leb Z.compare]. now apply Hfail. }
    destruct (index_scan_spec nb b ltac:(lia) Hasc) as (Hi & Esel).
    set (i := index_scan _ nb 0 _ b 0) in *.
    rewrite Esel in Hchild |- *.
    replace (eh_entries nb 0 <=? i) with false by (symmetry; apply Z.leb_gt; lia).
    destruct (node_at_entry _ _ _ _ i Hnode ltac:(lia) ltac:(nia))
      as (_ & -> & -> & _).
    unfold index_entry_of in Hchild |- *.
    set (child_block := lo_hi (ei_leaf_lo nb 0 i) (ei_leaf_hi nb 0 i)) in *.
    apply returns_bind. unfold ext4_read_block, spec_read_node in *.
    destruct (device fs) as [d|].
    { replace (buf =? 0) with false by (symmetry; apply Z.eqb_neq; lia).
      destruct (holding_device_read s0 s _ d (wrap64 (child_block * block_size fs))
                  (block_size fs) buf (buf - HEADER_SIZE) sz Hold ltac:(now left)
                  ltac:(lia) ltac:(lia) ltac:(lia))
        as (s1 & E1 & H1 & Hdata & Hnone).
      destruct (holding_held _ _ _ _ _ Hold ltac:(now left))
        as (_ & _ & _ & _ & _ & Hlo & _ & Hend).
      unfold returns at 1. rewrite E1.
      set (r := dev_read d (wrap64 (child_block * block_size fs)) (block_size fs)) in *.
      destruct (reply_data r) as [child|].
      - destruct (Z.ltb_spec (reply_status r) 0) as [Hneg|Hpos]; [now apply Hfail|].
        apply returns_bind, returns_get.
        assert (Hnode1 : node_at (memory s1) buf (block_size fs) child).
        { rewrite (Hdata child eq_refl).
          apply node_at_written; unfold heap_end in *; arith. }
        destruct (node_at_header _ _ _ _ Hnode1 Hbs) as (-> & _).
        destruct (Z.eqb_spec (eh_magic child 0) EXT4_EXTENT_HEADER_MAGIC) as [Em|Em].
        + cbn [negb].
          exact (IH s1 child (block_size fs) H1 ltac:(lia) Hnode1 (Hchild Hpos Em)).
        + cbn [negb]. now apply Hfail.
      - replace (reply_status r <? 0) with true by (symmetry; apply Z.ltb_lt; lia).
        now apply Hfail. }
    apply returns_ret. cbn [Z.ltb Z.compare]. now apply Hfail.
Qed.

Lemma read_extent_block_spec fs inode b s :
  heap_wf kernel_heap s -> has_extents fs = true ->
  Z.land (i_flags inode) EXT4_EXTENTS_FL <> 0 ->
  SIZEOF_EXTENT_NODE <= block_size fs -> block_size fs + 31 < 2 ^ 64 ->
  tree_ok (Z.to_nat (eh_depth (root_node_of inode) 0)) fs SIZEOF_EXTENT_NODE
          (root_node_of inode) b ->
  returns (ext4_read_extent_block kernel_heap fs inode b)
          (extent_post kernel_heap fs s (spec_read_extent_block fs inode b)) s.
Proof.
  intros Hwf Hfeat Hflag Hbs Hbs' Hok.
  unfold ext4_read_extent_block, spec_read_extent_block, SIZEOF_EXTENT_NODE in *.
  unfold has_extents in Hfeat. apply negb_true_iff in Hfeat. rewrite Hfeat.
  replace (Z.land (i_flags inode) EXT4_EXTENTS_FL =? 0) with false
    by (symmetry; now apply Z.eqb_neq).
  change (fun i => inode (I_BLOCK_OFFSET + i)) with (root_node_of inode).
  set (root := root_node_of inode) in *. cbv zeta.
  pose proof (holding_refl s Hwf) as H0.
  destruct (eh_magic root 0 =? EXT4_EXTENT_HEADER_MAGIC); cbn [negb].
  2:{ apply returns_bind, returns_kerr, returns_ret.
      split; [now apply holding_kerr|now left]. }
  apply returns_bind.
  destruct (holding_kmalloc s s [] (block_size fs) H0 ltac:(lia) Hbs')
    as (p & s1 & E & _ & [(-> & H1)|(sz & Hp & Hcap & Hend & Hlo & H1)]);
    unfold returns at 1, kmalloc_m; rewrite E.
  { cbn [Z.eqb]. apply returns_bind, returns_kerr, returns_ret.
    split; [now apply holding_kerr|]. right. split; [reflexivity|now exists s1]. }
  replace (p =? 0) with false by (symmetry; apply Z.eqb_neq; lia).
  apply returns_bind, returns_get, returns_bind, returns_lift.
  set (s2 := set_memory s1 (mem_write (memory s1) p 60 root)).
  assert (H2 : holding kernel_heap s s2 [(p - HEADER_SIZE, sz)]).
  { apply (holding_write s s1 s2 _ (p - HEADER_SIZE) sz H1);
      [now left|reflexivity|reflexivity|].
    intros x Hx Hout. cbn. unfold mem_write.
    rewrite in_range_outside; [reflexivity| | | | |]; unfold heap_end in *; arith. }
  assert (Hnode : node_at (memory s2) p 60 root).
  { cbn. apply node_at_written; unfold heap_end in *; arith. }
  apply returns_bind, returns_get. cbv zeta.
  change (memory (set_memory s1 (mem_write (memory s1) p 60 root))) with (memory s2).
  change (set_memory s1 (mem_write (memory s1) p 60 root)) with s2.
  destruct (node_at_header _ _ _ _ Hnode ltac:(lia)) as (_ & _ & ->).
  pose proof (extent_descend_spec s fs b p sz Hp Hcap ltac:(lia)
                (Z.to_nat (eh_depth root 0)) s2 root 60 H2 Hbs Hnode Hok) as Hrun.
  unfold returns in Hrun |- *.
  destruct (extent_descend kernel_heap _ fs p b s2) as [r s'|t]; [|exact Hrun].
  destruct Hrun as (-> & Hsame). split; [exact Hsame|now left].
Qed.

(** C6 (amended). For a filesystem with the extents feature, an inode
    with the extents flag, a block size of at least 60 bytes and a
    well-shaped heap, and for every extent tree whose nodes on the way of
    logical block [b] are well formed ([tree_ok]: entries inside the
    node, index entries in ascending order of starting block, extents of
    the leaf ending inside the 32-bit block space), the call
    [ext4_read_extent_block] returns, leaves the heap as it found it, and
    answers as [spec_read_extent_block]: starting at the root in the
    inode, each internal node selects the last index entry whose starting
    block does not exceed [b] (the first entry when all start after [b]),
    the child is read and its magic checked, and at depth 0 the answer is
    [start + (b - ee_block)] for the extent whose range contains [b];
    the answer is an error when the root or a child has a wrong magic,
    an internal node has no entries, a read fails, or the leaf has no
    extent covering [b].  The only other outcome is -1 when the node
    buffer cannot be allocated.  On the example inode with the single
    extent (0, 10, 500) and size 10 blocks, reading 50 bytes at offset
    9 * 1024 + 100 returns 50, the bytes being those of the device at
    byte 100 of block 509, fetched by one read of that block. *)
Theorem extent_tree_resolution fs inode b s :
  heap_wf kernel_heap s -> has_extents fs = true ->
  Z.land (i_flags inode) EXT4_EXTENTS_FL <> 0 ->
  SIZEOF_EXTENT_NODE <= block_size fs -> block_size fs + 31 < 2 ^ 64 ->
  tree_ok (Z.to_nat (eh_depth (root_node_of inode) 0)) fs SIZEOF_EXTENT_NODE
          (root_node_of inode) b ->
  returns (ext4_read_extent_block kernel_heap fs inode b)
          (extent_post kernel_heap fs s (spec_read_extent_block fs inode b)) s
  /\ match ext4_read_file_data demo_heap extent_fs extent_inode (9 * 1024 + 100) 50
             caller_buffer boot_state with
     | Done n s' =>
         n = 50
         /\ memory_bytes s' caller_buffer 50
            = device_bytes (image_device "ramdisk" []) (509 * 1024 + 100) 50
         /\ dev_reads s' = [(509 * 1024, 1024)]
         /\ heap_used s' = 0
     | Trap _ => False
     end.
Proof.
  intros Hwf Hfeat Hflag Hbs Hbs' Hok. split.
  - now apply read_extent_block_spec.
  - vm_compute. repeat split; reflexivity.
Qed.

(** ** The allocator seen by its callers *)

(** X1. A successful [kmalloc] hands out a payload inside the arena,
    taken from a block that was free, and leaves every allocation that
    was live in place: still in use, with the same header and payload
    bytes, and not overlapping the new payload.  A failing [kmalloc]
    changes neither the memory nor the byte counter. *)
Theorem kmalloc_keeps_live_blocks s n :
  heap_wf kernel_heap s -> 0 < n -> n + 31 < 2 ^ 64 ->
  exists p s',
    kmalloc kernel_heap n s = Done p s'
    /\ ((p = 0 /\ memory s' = memory s /\ heap_used s' = heap_used s)
        \/ (kernel_heap + HEADER_SIZE <= p
            /\ p + n <= heap_end kernel_heap
            /\ ~ allocated kernel_heap (memory s) (p - HEADER_SIZE)
            /\ allocated kernel_heap (memory s') (p - HEADER_SIZE)
            /\ forall h,
                 allocated kernel_heap (memory s) h ->
                 allocated kernel_heap (memory s') h
                 /\ block_bytes_same (memory s) (memory s') h
                 /\ (h + hdr_size (memory s) h <= p - HEADER_SIZE \/ p + n <= h))).
Proof.
  intros (Hi & _ & l & Har) Hn Hn'.
  destruct (kmalloc_frame kernel_heap heap_lo heap_hi s l n Hi Har Hn Hn')
    as (p & s' & E & _ & _ & Hcase).
  exists p, s'. split; [exact E|].
  destruct Hcase as [(-> & Em & Eu)|(l' & b & -> & Har' & Hb & Hb' & Hfb & Hub & Hsz
                                      & _ & _ & _ & Hold & _)].
  { left. auto. }
  right.
  destruct (arena_block _ _ _ _ Har' Hb') as (Hlob & _ & Hsb' & Heb').
  destruct (arena_block _ _ _ _ Har Hb) as (_ & _ & Hsb & Heb).
  replace (b + HEADER_SIZE - HEADER_SIZE) with b by lia.
  split; [lia|]. split; [lia|].
  split; [rewrite (allocated_in _ _ _ Har); intros (_ & Hc); congruence|].
  split; [apply (allocated_in _ _ _ Har'); now split|].
  intros h Hh. apply (allocated_in _ _ _ Har) in Hh. destruct Hh as (Hin & Hus).
  destruct (Hold h Hin Hus) as (Hin' & Hsame).
  destruct (arena_block _ _ _ _ Har Hin) as (_ & _ & Hsh & _).
  destruct (block_bytes_same_fields _ _ _ Hsh Hsame) as (Es & _ & Eu).
  split; [apply (allocated_in _ _ _ Har'); split; [exact Hin'|congruence]|].
  split; [exact Hsame|].
  destruct (blocks_sep _ _ _ _ _ _ Har' Hb' Hin') as [->|[F|F]].
  - congruence.
  - left. rewrite <- Es. exact F.
  - right. lia.
Qed.

(** X2. Freeing a live block marks it free, takes its size off the byte
    counter, keeps the arena well shaped, and leaves every other live
    allocation in use with the same header and payload bytes. *)
Theorem kfree_keeps_other_blocks s a :
  heap_wf kernel_heap s -> allocated kernel_heap (memory s) a ->
  let s' := kfree kernel_heap (a + HEADER_SIZE) s in
  (exists l', arena kernel_heap (memory s') l' /\ In a l')
  /\ hdr_used (memory s') a = false
  /\ heap_used s' = wrap64 (heap_used s - hdr_size (memory s) a)
  /\ forall h,
       allocated kernel_heap (memory s) h -> h <> a ->
       allocated kernel_heap (memory s') h
       /\ block_bytes_same (memory s) (memory s') h.
Proof.
  intros (Hi & _ & l & Har) Ha s'.
  apply (allocated_in _ _ _ Har) in Ha. destruct Ha as (Hl & Hus).
  destruct (kfree_frame kernel_heap heap_lo heap_hi s l a Hi Har Hl Hus)
    as (l' & Har' & _ & _ & _ & Ehu & Hl' & Hfree & Hkeep & _).
  fold s' in Har', Ehu, Hl', Hfree, Hkeep.
  split; [now exists l'|]. split; [exact Hfree|]. split; [exact Ehu|].
  intros h Hh Hne. apply (allocated_in _ _ _ Har) in Hh. destruct Hh as (Hin & Hu).
  destruct (Hkeep h Hin Hu Hne) as (Hin' & Hsame). split; [|exact Hsame].
  destruct (arena_block _ _ _ _ Har Hin) as (_ & _ & Hsh & _).
  destruct (block_bytes_same_fields _ _ _ Hsh Hsame) as (_ & _ & Eu).
  apply (allocated_in _ _ _ Har'). split; [exact Hin'|congruence].
Qed.

(** X3. [kfree] refuses a pointer whose header would lie outside the
    heap array or does not carry the allocation magic: it only logs the
    invalid-free error; memory, the byte counter and the initialised
    flag are untouched. *)
Theorem kfree_rejects_foreign_pointer s p :
  heap_initialized s = true -> HEADER_SIZE <= p < 2 ^ 64 ->
  p - HEADER_SIZE < kernel_heap \/ heap_end kernel_heap <= p - HEADER_SIZE
  \/ hdr_magic (memory s) (p - HEADER_SIZE) <> ALLOC_MAGIC ->
  kfree kernel_heap p s
  = kerr "MM: Attempt to free invalid memory at 0x%p\n" [LInt p] s.
Proof.
  intros Hi Hp Hout.
  replace p with (p - HEADER_SIZE + HEADER_SIZE) at 1 2 by lia.
  apply kfree_invalid; [exact Hi|lia|lia|].
  unfold validate_block.
  destruct Hout as [H|[H|H]].
  - replace (p - HEADER_SIZE <? kernel_heap) with true
      by (symmetry; now apply Z.ltb_lt). reflexivity.
  - replace (heap_end kernel_heap <=? p - HEADER_SIZE) with true
      by (symmetry; now apply Z.leb_le). now rewrite orb_true_r.
  - destruct (_ || _); [reflexivity|].
    replace (hdr_magic (memory s) (p - HEADER_SIZE) =? ALLOC_MAGIC) with false
      by (symmetry; now apply Z.eqb_neq). reflexivity.
Qed.

(** X4. A successful [kzalloc] returns a live allocation whose first
    [n] bytes are zero; allocations that were live keep their bytes. *)
Theorem kzalloc_zeroes s n :
  heap_wf kernel_heap s -> 0 < n -> n + 31 < 2 ^ 64 ->
  exists p s',
    kzalloc kernel_heap n s = Done p s'
    /\ (p = 0
        \/ (allocated kernel_heap (memory s') (p - HEADER_SIZE)
            /\ (forall i, 0 <= i < n -> memory s' (p + i) = 0)
            /\ forall h, allocated kernel_heap (memory s) h ->
                         block_bytes_same (memory s) (memory s') h)).
Proof.
  intros Hwf Hn Hn'.
  destruct (holding_kmalloc s s [] n (holding_refl s Hwf) Hn Hn')
    as (p & s1 & E & _ & [(-> & H1)|(sz & Hp & Hcap & Hend & Hlo & H1)]).
  - exists 0, s1. unfold kzalloc. rewrite bind_unfold, E. cbn. auto.
  - exists p, (memset p 0 n s1). unfold kzalloc. rewrite bind_unfold, E.
    replace (p =? 0) with false by (symmetry; apply Z.eqb_neq; lia).
    split; [reflexivity|]. right.
    pose proof (holding_memset s s1 _ (p - HEADER_SIZE) sz p 0 n H1
                  ltac:(now left) ltac:(lia) ltac:(lia) ltac:(lia)) as H2.
    destruct H2 as (_ & Hall & Hsame & _).
    split; [apply Hall; right; now left|]. split; [|exact Hsame].
    intros i Hi. rewrite memset_fills; [reflexivity|lia| |exact Hi].
    unfold heap_end in *. arith.
Qed.

Lemma used_sum_app m l1 l2 : used_sum m (l1 ++ l2) = used_sum m l1 + used_sum m l2.
Proof.
  induction l1 as [|h l1 IH]; [reflexivity|].
  unfold used_sum in *. cbn [app fold_right]. rewrite IH. lia.
Qed.

Lemma used_sum_fields m m' l :
  (forall h, In h l -> hdr_size m' h = hdr_size m h /\ hdr_used m' h = hdr_used m h) ->
  used_sum m' l = used_sum m l.
Proof.
  induction l as [|h l IH]; intros H; [reflexivity|].
  unfold used_sum in *. cbn [fold_right]. destruct (H h (or_introl eq_refl)) as (-> & ->).
  rewrite IH; [reflexivity|].
  intros k Hk. apply H. now right.
Qed.

Lemma used_free_total m l : used_sum m l + free_sum m l = total_size m l.
Proof.
  induction l as [|h l IH]; [reflexivity|].
  unfold used_sum, free_sum, total_size in *. cbn [fold_right].
  destruct (hdr_used m h); lia.
Qed.

Lemma used_sum_range m a e l : blocks m a e l -> 0 <= used_sum m l <= e - a.
Proof.
  induction 1 as [|a e l Hm Hs He Hb IH]; [cbn; lia|].
  unfold used_sum in *. cbn [fold_right].
  unfold HEADER_SIZE in *. destruct (hdr_used m a); lia.
Qed.

(** Headers away from the block [b] are not touched by a change
    confined to [b]. *)
Lemma fields_outside m m' a e l1 b l2 lo hi :
  blocks m a e (l1 ++ b :: l2) -> lo = b -> hi = b + hdr_size m b ->
  (forall x, x < lo \/ hi <= x -> m' x = m x) ->
  forall h, In h l1 \/ In h l2 ->
            hdr_size m' h = hdr_size m h /\ hdr_used m' h = hdr_used m h.
Proof.
  intros H -> -> Hfr h Hh.
  destruct (blocks_mid _ _ _ _ _ _ H) as (H1 & _ & _ & _ & _ & H2).
  assert (Hag : hdr_agree m m' h).
  { intros x Hx. symmetry. apply Hfr. destruct Hh as [Hh|Hh].
    - destruct (blocks_in _ _ _ _ _ H1 Hh) as (_ & _ & ? & ?). left. lia.
    - destruct (blocks_in _ _ _ _ _ H2 Hh) as (? & _). right. lia. }
  destruct (hdr_agree_fields _ _ _ Hag) as (? & _ & ?). now split.
Qed.

Lemma kmalloc_accounted s n p s' :
  accounted kernel_heap s -> 0 < n -> n + 31 < 2 ^ 64 ->
  kmalloc kernel_heap n s = Done p s' ->
  accounted kernel_heap s'.
Proof.
  intros (Hi & l & Har & Hacc) Hn Hn' E.
  destruct (kmalloc_ok kernel_heap heap_lo heap_hi s l n Hi Har Hn Hn')
    as (p1 & s1 & E1 & Hi' & _ & Hcase).
  rewrite E in E1. injection E1 as <- <-.
  split; [exact Hi'|].
  destruct Hcase as [(_ & Em & Eu & _)|(l1 & b & mid & l2 & _ & -> & Hfb & Har' & Hub
                                       & Hsz & Hout & _ & Hmid & Ehu & _)].
  { exists l. now rewrite Em, Eu. }
  exists (l1 ++ b :: mid ++ l2). split; [exact Har'|].
  pose proof (fields_outside _ _ _ _ _ _ _ b (b + hdr_size (memory s) b)
                Har eq_refl eq_refl Hout) as Hf.
  assert (Hmid0 : used_sum (memory s') mid = 0).
  { clear - Hmid. induction mid as [|h mid IH]; [reflexivity|].
    unfold used_sum in *. cbn [fold_right].
    destruct (Hmid h (or_introl eq_refl)) as (-> & _).
    rewrite IH; [reflexivity|]. intros k Hk. apply Hmid. now right. }
  assert (Hb1 : used_sum (memory s') [b] = hdr_size (memory s') b)
    by (unfold used_sum; cbn [fold_right]; rewrite Hub; lia).
  assert (Hb0 : used_sum (memory s) [b] = 0)
    by (unfold used_sum; cbn [fold_right]; rewrite Hfb; lia).
  assert (E1 : used_sum (memory s') l1 = used_sum (memory s) l1)
    by (apply used_sum_fields; intros h Hh; apply Hf; now left).
  assert (E2 : used_sum (memory s') l2 = used_sum (memory s) l2)
    by (apply used_sum_fields; intros h Hh; apply Hf; now right).
  pose proof (used_sum_range _ _ _ _ Har') as Hr.
  change (b :: mid ++ l2) with ([b] ++ mid ++ l2) in Hr |- *.
  change (b :: l2) with ([b] ++ l2) in Hacc.
  rewrite !used_sum_app, Hmid0, Hb1, E1, E2 in Hr |- *.
  rewrite !used_sum_app, Hb0 in Hacc.
  rewrite Ehu, Hacc. rewrite wrap64_small; [lia|].
  unfold heap_end in *. arith.
Qed.

(** X5. The byte counter stays exact across [kmalloc]: on a heap where
    [heap_used] is the total size of the blocks in use, a request that
    does not wrap returns - with a block or with NULL - and [heap_used]
    is again the total size of the blocks in use. *)
Theorem kmalloc_keeps_accounting s n :
  accounted kernel_heap s -> 0 < n -> n + 31 < 2 ^ 64 ->
  exists p s',
    kmalloc kernel_heap n s = Done p s' /\ accounted kernel_heap s'.
Proof.
  intros Hacc Hn Hn'. pose proof Hacc as (Hi & l & Har & _).
  destruct (kmalloc_ok kernel_heap heap_lo heap_hi s l n Hi Har Hn Hn')
    as (p & s' & E & _).
  exists p, s'. split; [exact E|].
  exact (kmalloc_accounted s n p s' Hacc Hn Hn' E).
Qed.

(** X6. The byte counter stays exact across [kfree] of a live block,
    whether or not the block absorbs its right neighbour. *)
Theorem kfree_keeps_accounting s a :
  accounted kernel_heap s -> allocated kernel_heap (memory s) a ->
  accounted kernel_heap (kfree kernel_heap (a + HEADER_SIZE) s).
Proof.
  intros (Hi & l & Har & Hacc) Ha.
  apply (allocated_in _ _ _ Har) in Ha. destruct Ha as (Hl & Hus).
  destruct (in_split _ _ Hl) as (l1 & l2 & ->).
  destruct (kfree_live kernel_heap heap_lo heap_hi s l1 a l2 Hi Har Hus)
    as (l2' & Har' & Hi' & _ & _ & Ehu & Hfree & Hcase).
  set (s' := kfree kernel_heap (a + HEADER_SIZE) s) in *.
  split; [exact Hi'|]. exists (l1 ++ a :: l2'). split; [exact Har'|].
  destruct (blocks_mid _ _ _ _ _ _ Har) as (B1 & _ & _ & Hsa & _ & B2).
  assert (Ha1 : used_sum (memory s) [a] = hdr_size (memory s) a)
    by (unfold used_sum; cbn [fold_right]; rewrite Hus; lia).
  assert (Ha0 : used_sum (memory s') [a] = 0)
    by (unfold used_sum; cbn [fold_right]; rewrite Hfree; lia).
  pose proof (used_sum_range _ _ _ _ B1) as R1.
  change (a :: l2) with ([a] ++ l2) in Hacc.
  change (a :: l2') with ([a] ++ l2').
  rewrite !used_sum_app, Ha1 in Hacc. rewrite !used_sum_app, Ha0, Ehu, Hacc.
  assert (Hfields : forall (P : Z -> Prop) h,
             (forall x, h <= x < h + HEADER_SIZE -> P x) ->
             (forall x, P x -> memory s' x = memory s x) ->
             hdr_size (memory s') h = hdr_size (memory s) h
             /\ hdr_used (memory s') h = hdr_used (memory s) h).
  { intros P h HP Hfr.
    assert (Hag : hdr_agree (memory s) (memory s') h)
      by (intros x Hx; symmetry; apply Hfr, HP, Hx).
    destruct (hdr_agree_fields _ _ _ Hag) as (? & _ & ?). now split. }
  destruct Hcase as [(-> & _ & Hfr & _)|(nb & -> & En & Hun & _ & _ & Hfr)].
  - rewrite (used_sum_fields (memory s) (memory s') l1).
    2:{ intros h Hh. apply (Hfields (fun x => x < a \/ a + HEADER_SIZE <= x)); [|exact Hfr].
        intros x Hx. destruct (blocks_in _ _ _ _ _ B1 Hh) as (_ & _ & ? & ?). lia. }
    rewrite (used_sum_fields (memory s) (memory s') l2).
    2:{ intros h Hh. apply (Hfields (fun x => x < a \/ a + HEADER_SIZE <= x)); [|exact Hfr].
        intros x Hx. destruct (blocks_in _ _ _ _ _ B2 Hh) as (? & _). lia. }
    pose proof (used_sum_range _ _ _ _ B2) as R2.
    rewrite wrap64_small; [lia|]. unfold heap_end in *. arith.
  - inversion B2 as [|? ? ? Hmn Hsn Hen Bn]; subst.
    assert (Hn0 : used_sum (memory s) [a + hdr_size (memory s) a] = 0)
      by (unfold used_sum; cbn [fold_right]; rewrite Hun; lia).
    change ((a + hdr_size (memory s) a) :: l2')
      with ([a + hdr_size (memory s) a] ++ l2').
    rewrite used_sum_app, Hn0.
    set (nb := a + hdr_size (memory s) a) in *.
    rewrite (used_sum_fields (memory s) (memory s') l1).
    2:{ intros h Hh.
        apply (Hfields (fun x => (x < a \/ a + HEADER_SIZE <= x)
                                 /\ (x < nb \/ nb + HEADER_SIZE <= x)));
          [|intros x (? & ?); now apply Hfr].
        intros x Hx. destruct (blocks_in _ _ _ _ _ B1 Hh) as (_ & _ & ? & ?).
        unfold nb. lia. }
    rewrite (used_sum_fields (memory s) (memory s') l2').
    2:{ intros h Hh.
        apply (Hfields (fun x => (x < a \/ a + HEADER_SIZE <= x)
                                 /\ (x < nb \/ nb + HEADER_SIZE <= x)));
          [|intros x (? & ?); now apply Hfr].
        intros x Hx. destruct (blocks_in _ _ _ _ _ Bn Hh) as (? & _).
        unfold nb in *. lia. }
    pose proof (used_sum_range _ _ _ _ Bn) as R2.
    rewrite wrap64_small; [lia|]. unfold heap_end, nb in *. arith.
Qed.

(** X7. On a heap whose counter is exact, [kmalloc_stats] reports the
    arena size, the total size of the blocks in use and the total size
    of the free blocks; the last two add up to the first. *)
Theorem kmalloc_stats_exact s :
  accounted kernel_heap s ->
  exists l,
    arena kernel_heap (memory s) l
    /\ kmalloc_stats s
       = Some (KERNEL_HEAP_SIZE, used_sum (memory s) l, free_sum (memory s) l)
    /\ used_sum (memory s) l + free_sum (memory s) l = KERNEL_HEAP_SIZE.
Proof.
  intros (Hi & l & Har & Hacc). exists l. split; [exact Har|].
  pose proof (used_free_total (memory s) l) as Ht.
  rewrite (blocks_total _ _ _ _ Har) in Ht.
  pose proof (used_sum_range _ _ _ _ Har) as Hr.
  assert (Hsz : heap_end kernel_heap - kernel_heap = KERNEL_HEAP_SIZE)
    by (unfold heap_end; lia).
  split; [|lia].
  unfold kmalloc_stats. rewrite Hi, Hacc. do 3 f_equal.
  rewrite wrap64_small; [lia|]. unfold KERNEL_HEAP_SIZE in *. lia.
Qed.

Lemma find_from_first m total :
  forall cur e l, blocks m cur e l -> e = heap_end kernel_heap -> 0 <= cur ->
  forall fuel, (length l < fuel)%nat ->
  match find_free_block_from kernel_heap fuel m total cur with
  | Found b => In b l /\ fits m total b = true
               /\ forall h, In h l -> h < b -> fits m total h = false
  | NotFound => forall h, In h l -> fits m total h = false
  | Corrupted _ => False
  | Unbounded => False
  end.
Proof.
  induction 1 as [|a e l Hm Hs He Hb IH]; intros -> Hlo fuel Hf.
  - destruct fuel as [|fuel]; [cbn in Hf; lia|]. cbn [find_free_block_from].
    rewrite Z.ltb_irrefl. intros h [].
  - destruct fuel as [|fuel]; [cbn in Hf; lia|]. cbn [find_free_block_from].
    replace (a <? heap_end kernel_heap) with true by (symmetry; apply Z.ltb_lt; arith).
    rewrite Hm, Z.eqb_refl. cbn [negb]. fold (fits m total a).
    destruct (fits m total a) eqn:E.
    + split; [now left|]. split; [exact E|].
      intros h [<-|Hh] Hlt; [lia|].
      destruct (blocks_in _ _ _ _ _ Hb Hh) as (? & _). unfold HEADER_SIZE in *. lia.
    + rewrite wrap64_small by arith.
      specialize (IH eq_refl ltac:(arith) fuel ltac:(cbn in Hf; lia)).
      destruct (find_free_block_from kernel_heap fuel m total (a + hdr_size m a))
        as [b| | |]; try contradiction.
      * destruct IH as (Hin & Hfit & Hfirst). split; [now right|]. split; [exact Hfit|].
        intros h [<-|Hh] Hlt; [exact E|]. now apply Hfirst.
      * intros h [<-|Hh]; [exact E|]. now apply IH.
Qed.

Lemma kmalloc_finds_first s l n :
  heap_initialized s = true -> arena kernel_heap (memory s) l ->
  0 < n -> n + 31 < 2 ^ 64 ->
  n + HEADER_SIZE <= request_total n <= n + 31
  /\ exists p s',
       kmalloc kernel_heap n s = Done p s'
       /\ ((p = 0 /\ forall h, In h l -> fits (memory s) (request_total n) h = false)
           \/ (In (p - HEADER_SIZE) l
               /\ fits (memory s) (request_total n) (p - HEADER_SIZE) = true
               /\ forall h, In h l -> h < p - HEADER_SIZE ->
                            fits (memory s) (request_total n) h = false)).
Proof.
  intros Hi Har Hn Hn'. split; [exact (proj1 (request_total_exact n Hn Hn'))|].
  unfold kmalloc.
  replace (n =? 0) with false by (symmetry; apply Z.eqb_neq; lia).
  rewrite Hi. fold (request_total n).
  pose proof (find_from_first (memory s) (request_total n) _ _ l Har eq_refl heap_lo
                WALK_BOUND (arena_length kernel_heap (memory s) l Har)) as Hf.
  fold (find_free_block kernel_heap (memory s) (request_total n)) in Hf.
  destruct (find_free_block kernel_heap (memory s) (request_total n))
    as [b| | |]; try contradiction.
  - destruct Hf as (Hb & Hfit & Hfirst).
    destruct (arena_block _ _ _ _ Har Hb) as (Hlo & _ & Hs & He).
    rewrite wrap64_small by arith.
    eexists _, _. split; [reflexivity|]. right.
    replace (b + HEADER_SIZE - HEADER_SIZE) with b by lia. auto.
  - eexists _, _. split; [reflexivity|]. left. auto.
Qed.

(** X8. [kmalloc] is first fit.  For a request of [n] bytes it looks for
    [request_total n] bytes (the request rounded up to a multiple of 16,
    plus the 16-byte header): it fails exactly when no free block is
    that large, and otherwise the block it hands out is the lowest free
    block that is. *)
Theorem kmalloc_first_fit s l n :
  heap_initialized s = true -> arena kernel_heap (memory s) l ->
  0 < n -> n + 31 < 2 ^ 64 ->
  n + HEADER_SIZE <= request_total n <= n + 31
  /\ exists p s',
       kmalloc kernel_heap n s = Done p s'
       /\ ((p = 0 /\ forall h, In h l -> fits (memory s) (request_total n) h = false)
           \/ (In (p - HEADER_SIZE) l
               /\ fits (memory s) (request_total n) (p - HEADER_SIZE) = true
               /\ forall h, In h l -> h < p - HEADER_SIZE ->
                            fits (memory s) (request_total n) h = false)).
Proof. apply kmalloc_finds_first. Qed.

(** X9. Freed memory can be allocated again: after [kfree] of a live
    block, a request whose rounded size fits the freed block succeeds,
    and the block handed out lies at or below the freed one. *)
Theorem kmalloc_after_kfree_succeeds s a n :
  heap_wf kernel_heap s -> allocated kernel_heap (memory s) a ->
  0 < n -> n + 31 < 2 ^ 64 -> request_total n <= hdr_size (memory s) a ->
  exists p s',
    kmalloc kernel_heap n (kfree kernel_heap (a + HEADER_SIZE) s) = Done p s'
    /\ kernel_heap + HEADER_SIZE <= p <= a + HEADER_SIZE.
Proof.
  intros (Hi & _ & l & Har) Ha Hn Hn' Hfit.
  apply (allocated_in _ _ _ Har) in Ha. destruct Ha as (Hl & Hus).
  destruct (in_split _ _ Hl) as (l1 & l2 & ->).
  destruct (kfree_live kernel_heap heap_lo heap_hi s l1 a l2 Hi Har Hus)
    as (l2' & Har' & Hi' & _ & _ & _ & Hfree & Hcase).
  set (s1 := kfree kernel_heap (a + HEADER_SIZE) s) in *.
  assert (Hsz : hdr_size (memory s) a <= hdr_size (memory s1) a).
  { destruct Hcase as [(_ & -> & _)|(nb & _ & _ & _ & -> & _)]; [lia|].
    pose proof (hdr_size_range (memory s) nb). lia. }
  assert (Hfa : fits (memory s1) (request_total n) a = true).
  { unfold fits. rewrite Hfree. cbn [negb andb]. apply Z.leb_le. lia. }
  assert (Hin : In a (l1 ++ a :: l2')) by (apply in_or_app; right; now left).
  destruct (kmalloc_finds_first s1 _ n Hi' Har' Hn Hn')
    as (_ & p & s' & E & [(_ & Hnone)|(Hp & _ & Hfirst)]).
  - rewrite (Hnone a Hin) in Hfa. discriminate.
  - exists p, s'. split; [exact E|].
    destruct (arena_block _ _ _ _ Har' Hp) as (Hlo & _).
    split; [lia|].
    destruct (Z.lt_ge_cases a (p - HEADER_SIZE)) as [Hlt|]; [|lia].
    rewrite (Hfirst a Hin Hlt) in Hfa. discriminate.
Qed.

Lemma accounted_init s :
  heap_initialized s = false -> accounted kernel_heap (kmalloc_init kernel_heap s).
Proof.
  intros Hi.
  destruct (kmalloc_init_spec kernel_heap s Hi) as (Hi' & Hu & Har & Hfree & _).
  split; [exact Hi'|]. exists [kernel_heap]. split; [exact Har|].
  unfold used_sum. cbn [fold_right]. rewrite Hfree, Hu. reflexivity.
Qed.

(** X10. The heap initialises itself on first use.  On a heap that was
    never initialised, [kmalloc] of a request that fits the arena first
    runs [kmalloc_init] and then succeeds with the first payload address
    of the arena; the byte counter is exact afterwards and
    [kmalloc_stats], which reported failure before, reports the arena
    size.  On an initialised heap [kmalloc_init] changes nothing. *)
Theorem kmalloc_initialises_on_first_use s n :
  heap_initialized s = false -> 0 < n -> n + 31 <= KERNEL_HEAP_SIZE ->
  kmalloc_stats s = None
  /\ kmalloc_init kernel_heap (kmalloc_init kernel_heap s) = kmalloc_init kernel_heap s
  /\ exists s',
       kmalloc kernel_heap n s = Done (kernel_heap + HEADER_SIZE) s'
       /\ accounted kernel_heap s'
       /\ exists used free,
            kmalloc_stats s' = Some (KERNEL_HEAP_SIZE, used, free)
            /\ n + HEADER_SIZE <= used <= KERNEL_HEAP_SIZE.
Proof.
  intros Hi Hn Hfit.
  assert (Hn' : n + 31 < 2 ^ 64) by (unfold KERNEL_HEAP_SIZE in Hfit; lia).
  destruct (kmalloc_init_spec kernel_heap s Hi) as (Hi' & Hu & Har & Hfree & Hsz & _).
  split; [unfold kmalloc_stats; now rewrite Hi|].
  split; [unfold kmalloc_init at 1; now rewrite Hi'|].
  set (s0 := kmalloc_init kernel_heap s) in *.
  assert (E0 : kmalloc kernel_heap n s = kmalloc kernel_heap n s0).
  { unfold kmalloc.
    replace (n =? 0) with false by (symmetry; apply Z.eqb_neq; lia).
    rewrite Hi, Hi'. reflexivity. }
  destruct (request_total_exact n Hn Hn') as (Hrt & _).
  destruct (kmalloc_ok kernel_heap heap_lo heap_hi s0 [kernel_heap] n Hi' Har Hn Hn')
    as (p & s' & E & Hi2 & _ & Hcase).
  destruct (kmalloc_finds_first s0 [kernel_heap] n Hi' Har Hn Hn')
    as (_ & p' & s2 & E' & Hfirst).
  rewrite E in E'. injection E' as <- <-.
  assert (Hp : p = kernel_heap + HEADER_SIZE).
  { destruct Hfirst as [(_ & Hnone)|(Hin & _)].
    - specialize (Hnone kernel_heap (or_introl eq_refl)).
      unfold fits in Hnone. rewrite Hfree, Hsz in Hnone. cbn [negb andb] in Hnone.
      apply Z.leb_gt in Hnone. lia.
    - destruct Hin as [Hin|[]]. lia. }
  subst p. exists s'. split; [now rewrite E0|].
  split; [exact (kmalloc_accounted s0 n _ s' (accounted_init s Hi) Hn Hn' E)|].
  destruct Hcase as [(Hz & _)|(l1 & b & mid & l2 & Ep & El & _ & _ & _ & Hsz' & _ & _ & _ & Ehu & _)].
  { unfold HEADER_SIZE in Hz. lia. }
  unfold kmalloc_stats. rewrite Hi2. do 2 eexists. split; [reflexivity|].
  assert (b = kernel_heap) by lia. subst b. rewrite Hsz in Hsz'.
  rewrite Ehu, Hu, Z.add_0_l, wrap64_small; arith.
Qed.

(** ** The EXT4 read path on a tracked heap *)



















(** ** Mounting and unmounting *)

Lemma mounted_fail s0 fsp rc rootp node s' :
  rc < 0 -> holding kernel_heap s0 s' [] ->
  mounted kernel_heap s0 fsp (rc, rootp, node) s'.
Proof. intros Hrc H. split; [now intros _|cbn; lia]. Qed.

Lemma wp_create_vfs_node_shape s0 s held fs n ino
  (Q : Z * option vfs_node -> kstate -> Prop) :
  holding kernel_heap s0 s held -> 0 <= block_size fs -> block_size fs + 31 < 2 ^ 64 ->
  (forall rc s', rc < 0 -> holding kernel_heap s0 s' held -> Q (rc, None) s') ->
  (forall raw info sz s',
     holding kernel_heap s0 s' ((info - HEADER_SIZE, sz) :: held) ->
     Q (0, Some (mkNode (node_type_of_mode (i_mode raw)) (i_size raw) n
                        (Some (mkInfo info raw n fs)))) s') ->
  wp (ext4_create_vfs_node kernel_heap fs n ino) Q s.
Proof.
  intros Hold Hbs Hbs' Qerr Qok. unfold ext4_create_vfs_node.
  apply wp_bind. apply (wp_read_inode s0 s held); auto.
  intros [rc raw] s1 H1.
  destruct (Z.ltb_spec rc 0) as [Hneg|Hpos]; [now apply wp_ret, Qerr|].
  apply wp_bind. apply (wp_kmalloc s0 s1 held SIZEOF_INODE_INFO);
    [exact H1|unfold SIZEOF_INODE_INFO; lia|unfold SIZEOF_INODE_INFO; lia| |].
  - intros s2 H2. cbn [Z.eqb]. apply wp_ret, Qerr; [lia|exact H2].
  - intros p sz s2 Hp _ H2.
    replace (p =? 0) with false by (symmetry; apply Z.eqb_neq; lia).
    apply wp_ret. now apply (Qok raw p sz).
Qed.

Lemma wp_mount_geometry_full s0 s fs ino hsz :
  holding kernel_heap s0 s [(fs_addr fs - HEADER_SIZE, hsz)] ->
  wp (ext4_mount_geometry kernel_heap fs ino)
     (mounted kernel_heap s0 (fs_addr fs)) s.
Proof.
  intros Hold.
  assert (Hfsp : fs_addr fs <> 0).
  { destruct (holding_held _ _ _ _ _ Hold ltac:(now left))
      as (_ & _ & _ & _ & _ & Hlo & _). unfold HEADER_SIZE in Hlo. lia. }
  unfold ext4_mount_geometry.
  destruct (negb (s_magic (sb fs) =? EXT4_SUPER_MAGIC)).
  { free_all. apply mounted_fail; [cbn; lia|].
    apply (holding_kfree_ptr s0 _ _ hsz []). now apply holding_kerr. }
  destruct (Z.ltb_spec 20 (s_log_block_size (sb fs))) as [|Hlog];
    [now apply wp_raise|].
  destruct (s_blocks_per_group (sb fs) =? 0); [now apply wp_raise|].
  cbv zeta.
  set (bs := 1024 * 2 ^ s_log_block_size (sb fs)).
  destruct (block_size_bounds _ Hlog) as (Hbs0 & Hbs1). fold bs in Hbs0, Hbs1.
  set (bc := lo_hi _ _). set (gc := wrap32 (wrap64 _ / _)).
  set (fsg := with_geometry fs bs bc gc).
  change (block_size fsg) with bs.
  do 5 apply wp_bind, wp_kprintf.
  set (gts := wrap32 (groups_count fsg * _)).
  set (gb := wrap32 (gts + bs - 1) / bs).
  assert (Hgb : 0 <= gb /\ gb * bs < 2 ^ 32).
  { pose proof (Z.mod_pos_bound (gts + bs - 1) (2 ^ 32) ltac:(lia)) as Hw.
    fold (wrap32 (gts + bs - 1)) in Hw. unfold gb.
    destruct (Z.eq_dec bs 0) as [->|Hne].
    - rewrite Z.div_0_r. lia.
    - split; [apply Z.div_pos; lia|].
      pose proof (Z.mul_div_le (wrap32 (gts + bs - 1)) bs ltac:(lia)). lia. }
  assert (Hn : wrap32 (gb * bs) = gb * bs).
  { unfold wrap32. apply Z.mod_small. nia. }
  rewrite Hn.
  assert (Hk : forall s1, holding kernel_heap s0 s1 [(fs_addr fs - HEADER_SIZE, hsz)] ->
                          holding kernel_heap s0 (kfree kernel_heap (fs_addr fsg) s1) []).
  { intros s1 H1. now apply (holding_kfree_ptr s0 _ _ hsz []). }
  apply wp_bind.
  apply (wp_kmalloc s0 _ [(fs_addr fs - HEADER_SIZE, hsz)] (gb * bs));
    [repeat apply holding_kprintf; exact Hold|nia|nia| |].
  { intros s1 H1. cbn [Z.eqb]. free_all. apply mounted_fail; [cbn; lia|]. apply Hk. now apply holding_kerr. }
  intros gdt gsz s1 Hgdt Hcap H1.
  replace (gdt =? 0) with false by (symmetry; apply Z.eqb_neq; lia).
  set (fsd := with_group_desc_table fsg gdt).
  change (group_desc_table fsd) with gdt. change (fs_addr fsd) with (fs_addr fs).
  assert (Hk2 : forall s2,
             holding kernel_heap s0 s2
               [(gdt - HEADER_SIZE, gsz); (fs_addr fs - HEADER_SIZE, hsz)] ->
             holding kernel_heap s0
               (kfree kernel_heap (fs_addr fs) (kfree kernel_heap gdt s2)) []).
  { intros s2 H2. apply Hk. exact (holding_kfree_ptr s0 _ _ gsz _ H2). }
  apply wp_bind.
  set (held2 := [(gdt - HEADER_SIZE, gsz); (fs_addr fs - HEADER_SIZE, hsz)]) in *.
  apply (wp_read_gdesc_blocks s0 held2 (gdt - HEADER_SIZE) gsz fsd);
    [now left|exact Hbs0|change (group_desc_table fsd) with gdt; lia|exact H1|lia
    |change (block_size fsd) with bs; rewrite Z2Nat.id by lia; lia
    |change (block_size fsd) with bs; change (group_desc_table fsd) with gdt;
     rewrite Z2Nat.id by lia; lia|].
  intros rc s2 H2.
  destruct (Z.ltb_spec rc 0) as [Hneg|Hpos].
  { free_all. apply mounted_fail; [cbn; lia|]. now apply Hk2. }
  apply wp_bind.
  apply (wp_kmalloc s0 s2 held2 SIZEOF_VFS_NODE);
    [exact H2|unfold SIZEOF_VFS_NODE; lia|unfold SIZEOF_VFS_NODE; lia| |].
  { intros s3 H3. cbn [Z.eqb]. free_all. apply mounted_fail; [cbn; lia|]. apply Hk2. now apply holding_kerr. }
  intros root rsz s3 Hroot _ H3.
  replace (root =? 0) with false by (symmetry; apply Z.eqb_neq; lia).
  apply wp_bind.
  apply (wp_create_vfs_node_shape s0 s3 ((root - HEADER_SIZE, rsz) :: held2) fsd);
    [exact H3|exact Hbs0|exact Hbs1| |].
  - intros rc' s4 Hneg H4.
    replace (rc' <? 0) with true by (symmetry; apply Z.ltb_lt; exact Hneg).
    free_all. apply mounted_fail; [cbn; lia|]. apply Hk2.
    exact (holding_kfree_ptr s0 _ _ rsz _ (holding_kerr _ _ _ _ _ H4)).
  - intros raw ip isz s4 H4. cbn [Z.ltb Z.compare].
    apply wp_bind, wp_kprintf, wp_ret. split; [cbn; lia|]. intros _.
    eexists root, _, _, isz, rsz, gsz, hsz.
    cbn [fst snd vn_private info_fs info_addr fs_addr group_desc_table with_root_node].
    split; [reflexivity|]. split; [reflexivity|]. split; [reflexivity|].
    cbn [fst snd vn_private info_fs info_addr fs_addr group_desc_table with_root_node].
    change (group_desc_table fsd) with gdt. change (fs_addr fsd) with (fs_addr fs).
    split; [reflexivity|]. split; [exact Hfsp|].
    split; [lia|]. now apply holding_kprintf.
Qed.

Lemma holding_kfree_mid s0 s p sz l1 l2 :
  holding kernel_heap s0 s (l1 ++ (p - HEADER_SIZE, sz) :: l2) ->
  holding kernel_heap s0 (kfree kernel_heap p s) (l1 ++ l2).
Proof.
  intros H. pose proof (proj1 (holding_kfree s0 s l1 (p - HEADER_SIZE) sz l2 H)) as H'.
  now replace (p - HEADER_SIZE + HEADER_SIZE) with p in H' by lia.
Qed.

Lemma wp_mount_full s dev root ino :
  heap_wf kernel_heap s ->
  match ext4_mount kernel_heap dev root ino s with
  | Done r s1 => exists fsp, mounted kernel_heap s fsp r s1
  | Trap t => t <> LoopBound
  end.
Proof.
  intros Hwf.
  destruct dev as [d|].
  2:{ unfold ext4_mount, ret. exists 0.
      apply mounted_fail; [lia|now apply holding_refl]. }
  destruct (Z.eq_dec root 0) as [->|Hroot].
  { unfold ext4_mount, ret. cbn [Z.eqb]. exists 0.
    apply mounted_fail; [lia|now apply holding_refl]. }
  destruct (mount_prefix s d root ino Hwf Hroot)
    as [(rc & s' & E & Hrc & Hsame)|(fsp & fsz & s1 & sbk & H1 & E & _ & _)].
  - rewrite E. exists 0. now apply mounted_fail.
  - rewrite E.
    pose proof (wp_mount_geometry_full s s1 (mkFs fsp (Some d) sbk 0 0 0 0 0 0 0) ino
                  fsz H1) as Hg.
    unfold wp in Hg.
    destruct (ext4_mount_geometry kernel_heap _ ino s1) as [r s2|t]; [|exact Hg].
    now exists fsp.
Qed.

(** X18. Unmounting undoes a mount, except for the root node.  When
    [ext4_mount] succeeds on a well-shaped heap, a following
    [ext4_unmount] of the node it returned frees the group descriptor
    table, the filesystem handle and the root's inode info, clears the
    node's private pointer, and leaves the heap as it was before the
    mount plus one block: the root node itself, which stays allocated
    for the caller. *)
Theorem unmount_after_mount s dev root ino :
  heap_wf kernel_heap s ->
  match ext4_mount kernel_heap dev root ino s with
  | Done (rc, rootp, node) s1 =>
      0 <= rc ->
      exists rp nd,
        rootp = Some rp /\ node = Some nd
        /\ returns (ext4_unmount kernel_heap (Some nd))
             (fun nd' s2 =>
                nd' = Some (clear_private nd)
                /\ exists sz, holding kernel_heap s s2 [(rp - HEADER_SIZE, sz)]) s1
  | Trap t => t <> LoopBound
  end.
Proof.
  intros Hwf. pose proof (wp_mount_full s dev root ino Hwf) as Hm.
  destruct (ext4_mount kernel_heap dev root ino s) as [[[rc rootp] node] s1|t];
    [|exact Hm].
  destruct Hm as (fsp & _ & Hok). intros Hrc.
  destruct (Hok Hrc) as (rp & nd & info & szi & szr & szg & szf & Erp & End & Epriv
                         & Efs & Hfsp & Hgdt & Hold).
  cbn [fst snd] in Erp, End. exists rp, nd. split; [exact Erp|]. split; [exact End|].
  unfold ext4_unmount. rewrite Epriv. cbv zeta. rewrite Efs.
  replace (fsp =? 0) with false by (symmetry; now apply Z.eqb_neq).
  replace (group_desc_table (info_fs info) =? 0) with false
    by (symmetry; now apply Z.eqb_neq).
  set (gdt := group_desc_table (info_fs info)) in *.
  apply returns_bind, returns_bind, returns_lift, returns_bind, returns_kfree,
    returns_kfree, returns_bind, returns_kfree, returns_ret.
  split; [reflexivity|]. exists szr.
  apply (holding_kfree_ptr s _ _ szi [(rp - HEADER_SIZE, szr)]).
  apply (holding_kfree_mid s _ fsp szf
           [(info_addr info - HEADER_SIZE, szi); (rp - HEADER_SIZE, szr)] []).
  apply (holding_kfree_mid s _ gdt szg
           [(info_addr info - HEADER_SIZE, szi); (rp - HEADER_SIZE, szr)]
           [(fsp - HEADER_SIZE, szf)]).
  now apply holding_kprintf.
Qed.

(** ** Reading file data *)









(** ** Mounting succeeds on a readable device with a sane superblock *)

Lemma blocks_start m m' a a' e l : blocks m a e l -> blocks m' a' e l -> a = a'.
Proof.
  intros H H'. inversion H; subst; inversion H'; subst; reflexivity.
Qed.

Lemma room_le m r r' : room kernel_heap m r -> r' <= r -> room kernel_heap m r'.
Proof.
  intros (l & b & Har & Hb & Hf & Hs) Hle. exists l, b. repeat split; auto. lia.
Qed.

(** A split leaves exactly the requested size in the block. *)
Lemma split_block_size m l b total :
  arena kernel_heap m l -> In b l ->
  HEADER_SIZE <= total -> total + MIN_ALLOC_SIZE <= hdr_size m b ->
  hdr_size (split_block m b total) b = total.
Proof.
  intros Har Hb Ht Hfit.
  destruct (arena_block _ _ _ _ Har Hb) as (Hlo & _ & Hs & He).
  unfold split_block.
  rewrite (wrap64_small (total + MIN_ALLOC_SIZE)) by arith.
  replace (total + MIN_ALLOC_SIZE <=? hdr_size m b) with true
    by (symmetry; now apply Z.leb_le).
  rewrite (wrap64_small (b + total)) by arith.
  rewrite (wrap64_small (hdr_size m b - total)) by arith.
  assert (far b (b + total)) as F1 by arith.
  assert (far (b + total) b) as F2 by arith.
  hdr_simp. apply wrap64_small; arith.
Qed.

(** With room for the request and a remainder, [kmalloc] succeeds and
    leaves the rest of the room. *)
Lemma room_kmalloc s l n r :
  heap_initialized s = true -> arena kernel_heap (memory s) l ->
  room kernel_heap (memory s) r ->
  0 < n -> n + 31 < 2 ^ 64 -> request_total n + MIN_ALLOC_SIZE <= r ->
  exists p s',
    kmalloc kernel_heap n s = Done p s' /\ p <> 0
    /\ room kernel_heap (memory s') (r - request_total n).
Proof.
  intros Hi Har (l0 & B & Har0 & HB & HBf & HBs) Hn Hn' Hr.
  rewrite <- (blocks_unique _ _ _ _ _ Har Har0) in HB. clear l0 Har0.
  destruct (request_total_exact n Hn Hn') as (Hrt & _).
  destruct (kmalloc_finds_first s l n Hi Har Hn Hn') as (_ & p & s' & E & Hfirst).
  destruct (kmalloc_live kernel_heap heap_lo heap_hi s l n Hi Har ltac:(lia))
    as (p1 & s1 & E1 & _ & _ & Hcase).
  rewrite E in E1. injection E1 as <- <-.
  exists p, s'. split; [exact E|].
  destruct Hfirst as [(-> & Hnone)|(Hin & _)].
  { specialize (Hnone B HB). unfold fits in Hnone. rewrite HBf in Hnone.
    cbn [negb andb] in Hnone. apply Z.leb_gt in Hnone. arith. }
  destruct (arena_block _ _ _ _ Har Hin) as (Hplo & _).
  split; [unfold HEADER_SIZE in *; lia|].
  destruct Hcase as [(Hp0 & _)|(l1 & b & l2 & Ep & El & Hbf & Hbt & Em & _)].
  { subst p. unfold HEADER_SIZE in *. lia. }
  subst l.
  destruct (split_block_spec kernel_heap heap_lo heap_hi (memory s) l1 b l2
              (request_total n) Har ltac:(arith) ltac:(left; arith))
    as (_ & _ & Hfr & _ & mid & Har' & Hmid).
  rewrite <- Em in Hfr, Har', Hmid.
  destruct (Z.eq_dec B b) as [->|Hne].
  - assert (Hsz : hdr_size (memory s') b = request_total n).
    { rewrite Em. apply (split_block_size _ (l1 ++ b :: l2)); auto; arith. }
    destruct Hmid as [(_ & Esame)|(-> & _ & Hnf & _)]; [arith|].
    exists (l1 ++ b :: [b + request_total n] ++ l2), (b + request_total n).
    split; [exact Har'|]. split; [apply in_or_app; right; right; now left|].
    split; [exact Hnf|].
    destruct (blocks_mid _ _ _ _ _ _ Har) as (_ & _ & _ & _ & _ & H2).
    destruct (blocks_mid _ _ _ _ _ _ Har') as (_ & _ & _ & _ & _ & H2').
    rewrite Hsz in H2'. cbn [app] in H2'.
    inversion H2' as [|? ? ? _ _ _ H3]; subst.
    pose proof (blocks_start _ _ _ _ _ _ H2 H3). lia.
  - assert (HB' : In B l1 \/ In B l2).
    { apply in_app_or in HB. destruct HB as [?|[?|?]]; auto. congruence. }
    destruct (fields_outside _ _ _ _ _ _ _ b (b + hdr_size (memory s) b)
                Har eq_refl eq_refl Hfr B HB') as (Es & Eu).
    exists (l1 ++ b :: mid ++ l2), B. split; [exact Har'|].
    split.
    { destruct HB' as [?|?]; apply in_or_app; [now left|right; right].
      apply in_or_app. now right. }
    split; [congruence|]. rewrite Es. arith.
Qed.

(** Freeing a block in use keeps the room. *)
Lemma room_kfree s l1 a l2 r :
  heap_initialized s = true -> arena kernel_heap (memory s) (l1 ++ a :: l2) ->
  hdr_used (memory s) a = true -> room kernel_heap (memory s) r ->
  room kernel_heap (memory (kfree kernel_heap (a + HEADER_SIZE) s)) r.
Proof.
  intros Hi Har Hu (l0 & B & Har0 & HB & HBf & HBs).
  rewrite <- (blocks_unique _ _ _ _ _ Har Har0) in HB. clear l0 Har0.
  destruct (kfree_live kernel_heap heap_lo heap_hi s l1 a l2 Hi Har Hu)
    as (l2' & Har' & _ & _ & _ & _ & Hfree & Hcase).
  set (s' := kfree kernel_heap (a + HEADER_SIZE) s) in *.
  assert (Hne : B <> a) by (intros ->; congruence).
  assert (Ha : In a (l1 ++ a :: l2)) by (apply in_or_app; right; now left).
  destruct Hcase as [(-> & _ & Hout & _)|(nb & -> & Enb & Hnf & Esz & _ & Hout)].
  - exists (l1 ++ a :: l2), B. split; [exact Har'|]. split; [exact HB|].
    assert (Hag : hdr_agree (memory s) (memory s') B).
    { intros x Hx. symmetry. apply Hout.
      pose proof (blocks_far _ _ _ _ _ _ Har Ha HB Hne). arith. }
    destruct (hdr_agree_fields _ _ _ Hag) as (Es & _ & Eu).
    split; [congruence|]. rewrite Es. exact HBs.
  - destruct (Z.eq_dec B nb) as [->|Hnn].
    + exists (l1 ++ a :: l2'), a. split; [exact Har'|].
      split; [apply in_or_app; right; now left|]. split; [exact Hfree|].
      rewrite Esz. destruct (arena_block _ _ _ _ Har Ha) as (_ & _ & ? & _). arith.
    + assert (Hn : In nb (l1 ++ a :: nb :: l2'))
        by (apply in_or_app; right; right; now left).
      assert (Hag : hdr_agree (memory s) (memory s') B).
      { intros x Hx. symmetry.
        pose proof (blocks_far _ _ _ _ _ _ Har Ha HB Hne).
        pose proof (blocks_far _ _ _ _ _ _ Har Hn HB Hnn).
        apply Hout; arith. }
      destruct (hdr_agree_fields _ _ _ Hag) as (Es & _ & Eu).
      exists (l1 ++ a :: l2'), B. split; [exact Har'|].
      split.
      { apply in_app_or in HB. apply in_or_app.
        destruct HB as [?|[?|[?|?]]]; auto; try congruence. right. now right. }
      split; [congruence|]. rewrite Es. exact HBs.
Qed.

Lemma room_write s0 s m' held h sz r :
  holding kernel_heap s0 s held -> In (h, sz) held ->
  (forall x, kernel_heap <= x < heap_end kernel_heap ->
             x < h + HEADER_SIZE \/ h + sz <= x -> m' x = memory s x) ->
  room kernel_heap (memory s) r -> room kernel_heap m' r.
Proof.
  intros Hold Hin Hfr (l0 & B & Har0 & HB & HBf & HBs).
  destruct (holding_held _ _ _ _ _ Hold Hin) as (l & Har & Hl & Hus & Esz & _).
  rewrite <- (blocks_unique _ _ _ _ _ Har Har0) in HB. clear l0 Har0.
  rewrite <- Esz in Hfr.
  destruct (payload_write_frame kernel_heap (memory s) m' l h Har Hl Hfr)
    as (Har' & Hag & _).
  destruct (hdr_agree_fields _ _ _ (Hag B HB)) as (Es & _ & Eu).
  exists l, B. split; [exact Har'|]. split; [exact HB|].
  split; [congruence|]. rewrite Es. exact HBs.
Qed.

Lemma request_total_le n : 0 < n -> n + 31 < 2 ^ 64 -> 0 <= request_total n <= n + 31.
Proof.
  intros Hn Hn'. destruct (request_total_exact n Hn Hn') as (H & _). arith.
Qed.

Lemma returns_kmalloc_room s0 s held r n (Q : Z -> kstate -> Prop) :
  holding kernel_heap s0 s held -> room kernel_heap (memory s) r ->
  0 < n -> n + 31 < 2 ^ 64 -> n + 31 + MIN_ALLOC_SIZE <= r ->
  (forall p sz s',
     0 < p -> p + n <= p - HEADER_SIZE + sz ->
     holding kernel_heap s0 s' ((p - HEADER_SIZE, sz) :: held) ->
     room kernel_heap (memory s') (r - (n + 31)) -> Q p s') ->
  returns (kmalloc_m kernel_heap n) Q s.
Proof.
  intros Hold Hroom Hn Hn' Hr HQ. unfold returns, kmalloc_m.
  pose proof (request_total_le n Hn Hn') as Hrt.
  pose proof Hold as ((Hi & _ & l & Har) & _).
  destruct (room_kmalloc s l n r Hi Har Hroom Hn Hn' ltac:(lia))
    as (p & s' & E & Hp & Hroom').
  destruct (holding_kmalloc s0 s held n Hold Hn Hn')
    as (p1 & s1 & E1 & _ & Hcase).
  rewrite E in E1. injection E1 as <- <-.
  destruct Hcase as [(Hp0 & _)|(sz & Hp1 & Hsz & _ & _ & H')]; [congruence|].
  rewrite E. apply (HQ p sz); auto. apply (room_le _ _ _ Hroom'). lia.
Qed.

Lemma room_kfree_ptr s0 s p sz held r :
  holding kernel_heap s0 s ((p - HEADER_SIZE, sz) :: held) ->
  room kernel_heap (memory s) r ->
  room kernel_heap (memory (kfree kernel_heap p s)) r.
Proof.
  intros Hold Hroom.
  destruct (holding_held _ _ _ _ _ Hold (or_introl eq_refl))
    as (l & Har & Hl & Hus & _).
  destruct (in_split _ _ Hl) as (l1 & l2 & ->).
  pose proof Hold as ((Hi & _) & _).
  replace p with (p - HEADER_SIZE + HEADER_SIZE) at 1 by lia.
  exact (room_kfree s l1 _ l2 r Hi Har Hus Hroom).
Qed.

Lemma returns_read_block_room s0 s held r fs d b buf h sz (Q : Z -> kstate -> Prop) :
  holding kernel_heap s0 s held -> room kernel_heap (memory s) r ->
  In (h, sz) held ->
  h + HEADER_SIZE <= buf -> buf + block_size fs <= h + sz -> 0 <= block_size fs ->
  device fs = Some d -> (forall off size, 0 <= reply_status (dev_read d off size)) ->
  (forall rc s', 0 <= rc -> holding kernel_heap s0 s' held ->
                 room kernel_heap (memory s') r -> Q rc s') ->
  returns (ext4_read_block fs b buf) Q s.
Proof.
  intros Hold Hroom Hin Hlo Hhi Hbs Hdev Hok HQ. unfold ext4_read_block.
  rewrite Hdev.
  destruct (holding_held _ _ _ _ _ Hold Hin) as (_ & _ & _ & _ & _ & Hh & _ & He).
  replace (buf =? 0) with false by (symmetry; apply Z.eqb_neq; arith).
  destruct (holding_device_read s0 s held d (wrap64 (b * block_size fs))
              (block_size fs) buf h sz Hold Hin Hlo Hhi Hbs)
    as (s' & E & H' & Hdata & Hnone).
  unfold returns. rewrite E. apply HQ; [apply Hok|exact H'|].
  destruct (reply_data (dev_read d (wrap64 (b * block_size fs)) (block_size fs)))
    as [data|].
  - rewrite (Hdata data eq_refl).
    apply (room_write s0 s _ held h sz r Hold Hin); [|exact Hroom].
    intros x Hx Hout. unfold mem_write.
    rewrite in_range_outside; [reflexivity| | | | |]; unfold heap_end in *; arith.
  - now rewrite (Hnone eq_refl).
Qed.

Lemma returns_read_gdesc_blocks_room s0 held r h sz fs d start
  (Q : Z -> kstate -> Prop) :
  In (h, sz) held -> 0 <= block_size fs ->
  h + HEADER_SIZE <= group_desc_table fs ->
  device fs = Some d -> (forall off size, 0 <= reply_status (dev_read d off size)) ->
  forall n i s,
    holding kernel_heap s0 s held -> room kernel_heap (memory s) r -> 0 <= i ->
    (i + Z.of_nat n) * block_size fs < 2 ^ 32 ->
    group_desc_table fs + (i + Z.of_nat n) * block_size fs <= h + sz ->
    (forall s', holding kernel_heap s0 s' held ->
                room kernel_heap (memory s') r -> Q 0 s') ->
    returns (read_gdesc_blocks n fs start i) Q s.
Proof.
  intros Hin Hbs Hlo Hdev Hok.
  induction n as [|n IH]; intros i s Hold Hroom Hi Hsmall Hfit HQ.
  - now apply returns_ret, HQ.
  - cbn [read_gdesc_blocks]. apply returns_bind.
    assert (Hw : wrap32 (i * block_size fs) = i * block_size fs).
    { unfold wrap32. apply Z.mod_small. nia. }
    rewrite Hw.
    eapply (returns_read_block_room s0 s held r fs d _ _ h sz);
      [exact Hold|exact Hroom|exact Hin|nia|nia|exact Hbs|exact Hdev|exact Hok|].
    intros rc s1 Hrc H1 Hroom1.
    replace (rc <? 0) with false by (symmetry; apply Z.ltb_ge; lia).
    apply IH; [exact H1|exact Hroom1|lia| | |exact HQ];
      replace (i + 1 + Z.of_nat n) with (i + Z.of_nat (S n)) by lia; assumption.
Qed.

Lemma returns_read_inode_room s0 s held r fs d n ino
  (Q : Z * inode_bytes -> kstate -> Prop) :
  holding kernel_heap s0 s held -> room kernel_heap (memory s) r ->
  device fs = Some d -> (forall off size, 0 <= reply_status (dev_read d off size)) ->
  1 <= n -> inodes_per_group fs <> 0 ->
  (n - 1) / inodes_per_group fs < groups_count fs ->
  0 < block_size fs -> block_size fs + 31 < 2 ^ 64 ->
  s_inode_size (sb fs) <= SIZEOF_INODE ->
  block_size fs + 31 + MIN_ALLOC_SIZE <= r ->
  (forall raw s', holding kernel_heap s0 s' held ->
                  room kernel_heap (memory s') (r - (block_size fs + 31)) ->
                  Q (0, raw) s') ->
  returns (ext4_read_inode kernel_heap fs n ino) Q s.
Proof.
  intros Hold Hroom Hdev Hok Hn Hipg Hgrp Hbs Hbs' Hisz Hr HQ.
  unfold ext4_read_inode.
  replace (n <? 1) with false by (symmetry; apply Z.ltb_ge; lia).
  replace (inodes_per_group fs =? 0) with false by (symmetry; now apply Z.eqb_neq).
  replace (groups_count fs <=? (n - 1) / inodes_per_group fs) with false
    by (symmetry; apply Z.leb_gt; lia).
  apply returns_bind, returns_get. cbv zeta.
  replace (block_size fs =? 0) with false by (symmetry; apply Z.eqb_neq; lia).
  apply returns_bind.
  apply (returns_kmalloc_room s0 s held r (block_size fs)); auto.
  intros p sz s1 Hp Hcap H1 Hroom1.
  replace (p =? 0) with false by (symmetry; apply Z.eqb_neq; lia).
  apply returns_bind.
  apply (returns_read_block_room s0 s1 ((p - HEADER_SIZE, sz) :: held)
           (r - (block_size fs + 31)) fs d _ p (p - HEADER_SIZE) sz);
    [exact H1|exact Hroom1|now left|lia|lia|lia|exact Hdev|exact Hok|].
  intros rc s2 Hrc H2 Hroom2.
  replace (rc <? 0) with false by (symmetry; apply Z.ltb_ge; lia).
  replace (SIZEOF_INODE <? s_inode_size (sb fs)) with false
    by (symmetry; apply Z.ltb_ge; lia).
  apply returns_bind, returns_get, returns_bind, returns_kfree, returns_ret.
  apply HQ.
  - exact (holding_kfree_ptr s0 _ _ sz held H2).
  - exact (room_kfree_ptr s0 s2 p sz held _ H2 Hroom2).
Qed.

Lemma returns_create_vfs_node_room s0 s held r fs d n ino
  (Q : Z * option vfs_node -> kstate -> Prop) :
  holding kernel_heap s0 s held -> room kernel_heap (memory s) r ->
  device fs = Some d -> (forall off size, 0 <= reply_status (dev_read d off size)) ->
  1 <= n -> inodes_per_group fs <> 0 ->
  (n - 1) / inodes_per_group fs < groups_count fs ->
  0 < block_size fs -> block_size fs + 31 < 2 ^ 64 ->
  s_inode_size (sb fs) <= SIZEOF_INODE ->
  block_size fs + 31 + (SIZEOF_INODE_INFO + 31) + MIN_ALLOC_SIZE <= r ->
  (forall raw info sz s',
     holding kernel_heap s0 s' ((info - HEADER_SIZE, sz) :: held) ->
     Q (0, Some (mkNode (node_type_of_mode (i_mode raw)) (i_size raw) n
                        (Some (mkInfo info raw n fs)))) s') ->
  returns (ext4_create_vfs_node kernel_heap fs n ino) Q s.
Proof.
  intros Hold Hroom Hdev Hok Hn Hipg Hgrp Hbs Hbs' Hisz Hr HQ.
  unfold ext4_create_vfs_node. apply returns_bind.
  apply (returns_read_inode_room s0 s held r fs d n ino); auto;
    [unfold SIZEOF_INODE_INFO in Hr; lia|].
  intros raw s1 H1 Hroom1. cbn [Z.ltb Z.compare].
  apply returns_bind.
  eapply (returns_kmalloc_room s0 s1 held _ SIZEOF_INODE_INFO);
    [exact H1|exact Hroom1|unfold SIZEOF_INODE_INFO; lia|unfold SIZEOF_INODE_INFO; lia
    |lia|].
  intros p sz s2 Hp _ H2 _.
  replace (p =? 0) with false by (symmetry; apply Z.eqb_neq; lia).
  apply returns_ret. now apply (HQ raw p sz).
Qed.

Lemma returns_kprintf fmt args (Q : unit -> kstate -> Prop) s :
  Q tt (kprintf fmt args s) -> returns (kprintf_m fmt args) Q s.
Proof. auto. Qed.

(** The part of the mount after the copy of the superblock. *)
Lemma mount_geometry_room s0 s fs d ino hsz r :
  holding kernel_heap s0 s [(fs_addr fs - HEADER_SIZE, hsz)] ->
  room kernel_heap (memory s) r ->
  device fs = Some d -> (forall off size, 0 <= reply_status (dev_read d off size)) ->
  mountable (sb fs) ->
  sb_gdesc_blocks (sb fs) * sb_block_size (sb fs) + sb_block_size (sb fs) + 700 <= r ->
  returns (ext4_mount_geometry kernel_heap fs ino)
    (fun res s' =>
       exists rootp node info,
         res = (0, Some rootp, Some node)
         /\ vn_inode node = EXT4_ROOT_INO
         /\ vn_private node = Some info
         /\ sb (info_fs info) = sb fs) s.
Proof.
  intros Hold Hroom Hdev Hok (Hmagic & Hlog & Hbpg & Hipg & Hisz & Hgb0 & Hgrp) Hr.
  unfold ext4_mount_geometry.
  replace (s_magic (sb fs) =? EXT4_SUPER_MAGIC) with true
    by (symmetry; now apply Z.eqb_eq).
  cbn [negb].
  replace (20 <? s_log_block_size (sb fs)) with false
    by (symmetry; apply Z.ltb_ge; lia).
  replace (s_blocks_per_group (sb fs) =? 0) with false
    by (symmetry; now apply Z.eqb_neq).
  cbv zeta. unfold sb_gdesc_blocks, sb_groups, sb_block_size in *. cbv zeta in *.
  set (bs := 1024 * 2 ^ s_log_block_size (sb fs)) in *.
  destruct (block_size_bounds _ Hlog) as (Hbs0 & Hbs1). fold bs in Hbs0, Hbs1.
  set (bc := lo_hi _ _) in *. set (gc := wrap32 (wrap64 _ / _)) in *.
  set (fsg := with_geometry fs bs bc gc).
  change (block_size fsg) with bs. change (groups_count fsg) with gc.
  change (sb fsg) with (sb fs).
  do 5 apply returns_bind, returns_kprintf.
  set (gts := wrap32 (gc * _)) in *.
  set (gb := wrap32 (gts + bs - 1) / bs) in *.
  assert (Hbs2 : 0 < bs).
  { destruct (Z.eq_dec bs 0) as [E|]; [|lia].
    unfold gb in Hgb0. rewrite E, Z.div_0_r in Hgb0. lia. }
  assert (Hgb : 0 <= gb /\ gb * bs < 2 ^ 32).
  { pose proof (Z.mod_pos_bound (gts + bs - 1) (2 ^ 32) ltac:(lia)) as Hw.
    fold (wrap32 (gts + bs - 1)) in Hw. unfold gb.
    split; [apply Z.div_pos; lia|].
    pose proof (Z.mul_div_le (wrap32 (gts + bs - 1)) bs ltac:(lia)). lia. }
  assert (Hn : wrap32 (gb * bs) = gb * bs).
  { unfold wrap32. apply Z.mod_small. nia. }
  rewrite Hn.
  apply returns_bind.
  eapply (returns_kmalloc_room s0 _ [(fs_addr fs - HEADER_SIZE, hsz)] r (gb * bs));
    [repeat apply holding_kprintf; exact Hold|exact Hroom|nia|nia
    |unfold MIN_ALLOC_SIZE, HEADER_SIZE; lia|].
  intros gdt gsz s1 Hgdt Hcap H1 Hroom1.
  replace (gdt =? 0) with false by (symmetry; apply Z.eqb_neq; lia).
  set (fsd := with_group_desc_table fsg gdt).
  change (group_desc_table fsd) with gdt. change (fs_addr fsd) with (fs_addr fs).
  set (held2 := [(gdt - HEADER_SIZE, gsz); (fs_addr fs - HEADER_SIZE, hsz)]) in *.
  apply returns_bind.
  apply (returns_read_gdesc_blocks_room s0 held2 (r - (gb * bs + 31))
           (gdt - HEADER_SIZE) gsz fsd d);
    [now left|exact Hbs0|change (group_desc_table fsd) with gdt; lia|exact Hdev
    |exact Hok|exact H1|exact Hroom1|lia
    |change (block_size fsd) with bs; rewrite Z2Nat.id by lia; lia
    |change (block_size fsd) with bs; change (group_desc_table fsd) with gdt;
     rewrite Z2Nat.id by lia; lia|].
  intros s2 H2 Hroom2. cbn [Z.ltb Z.compare].
  apply returns_bind.
  eapply (returns_kmalloc_room s0 s2 held2 _ SIZEOF_VFS_NODE);
    [exact H2|exact Hroom2|unfold SIZEOF_VFS_NODE; lia|unfold SIZEOF_VFS_NODE; lia
    |unfold SIZEOF_VFS_NODE, MIN_ALLOC_SIZE, HEADER_SIZE; lia|].
  intros root rsz s3 Hroot _ H3 Hroom3.
  replace (root =? 0) with false by (symmetry; apply Z.eqb_neq; lia).
  apply returns_bind.
  eapply (returns_create_vfs_node_room s0 s3 ((root - HEADER_SIZE, rsz) :: held2) _
           fsd d EXT4_ROOT_INO ino);
    [exact H3|exact Hroom3|exact Hdev|exact Hok|unfold EXT4_ROOT_INO; lia
    |exact Hipg|exact Hgrp|exact Hbs2|exact Hbs1|exact Hisz
    |change (block_size fsd) with bs;
     unfold SIZEOF_VFS_NODE, SIZEOF_INODE_INFO, MIN_ALLOC_SIZE, HEADER_SIZE; lia|].
  intros raw ip isz s4 H4. cbn [Z.ltb Z.compare].
  apply returns_bind, returns_kprintf, returns_ret.
  eexists root, _, _. split; [reflexivity|].
  cbn [vn_inode vn_private info_fs]. repeat split.
Qed.

Lemma read_superblock_written m buf data :
  0 <= buf -> buf + SIZEOF_SUPERBLOCK <= 2 ^ 64 ->
  read_superblock (mem_write m buf SIZEOF_SUPERBLOCK data) buf
  = read_superblock data 0.
Proof.
  intros Hb Hs. unfold read_superblock, load32, load16, SIZEOF_SUPERBLOCK in *.
  rewrite !load_mem_write by (cbn; lia). reflexivity.
Qed.

(** The whole mount. *)
Lemma mount_room s d root ino data r :
  heap_wf kernel_heap s -> room kernel_heap (memory s) r -> root <> 0 ->
  (forall off size, 0 <= reply_status (dev_read d off size)) ->
  reply_data (dev_read d EXT4_SUPERBLOCK_OFFSET SIZEOF_SUPERBLOCK) = Some data ->
  mountable (read_superblock data 0) ->
  sb_gdesc_blocks (read_superblock data 0) * sb_block_size (read_superblock data 0)
  + sb_block_size (read_superblock data 0) + 3000 <= r ->
  returns (ext4_mount kernel_heap (Some d) root ino)
    (fun res s' =>
       exists rootp node info,
         res = (0, Some rootp, Some node)
         /\ vn_inode node = EXT4_ROOT_INO
         /\ vn_private node = Some info
         /\ sb (info_fs info) = read_superblock data 0) s.
Proof.
  intros Hwf Hroom Hroot Hok Hdata Hsb Hr. unfold ext4_mount.
  replace (root =? 0) with false by (symmetry; now apply Z.eqb_neq).
  assert (Hnn : 0 <= sb_gdesc_blocks (read_superblock data 0)
                     * sb_block_size (read_superblock data 0)
                     + sb_block_size (read_superblock data 0)).
  { destruct Hsb as (_ & Hlog & _ & _ & _ & Hgb & _).
    destruct (block_size_bounds _ Hlog) as (Hb & _).
    unfold sb_block_size in *. nia. }
  apply returns_bind, returns_kprintf, returns_bind.
  eapply (returns_kmalloc_room s _ [] r SIZEOF_FS);
    [apply holding_kprintf; now apply holding_refl|exact Hroom
    |unfold SIZEOF_FS; lia|unfold SIZEOF_FS; lia
    |unfold SIZEOF_FS, MIN_ALLOC_SIZE, HEADER_SIZE; lia|].
  intros fsp fsz s1 Hfsp Hcap1 H1 Hroom1.
  replace (fsp =? 0) with false by (symmetry; apply Z.eqb_neq; lia).
  apply returns_bind, returns_lift.
  pose proof (holding_memset s s1 _ (fsp - HEADER_SIZE) fsz fsp 0 SIZEOF_FS H1
                ltac:(now left) ltac:(lia) ltac:(lia)
                ltac:(unfold SIZEOF_FS; lia)) as H2.
  assert (Hroom2 : room kernel_heap (memory (memset fsp 0 SIZEOF_FS s1))
                        (r - (SIZEOF_FS + 31))).
  { destruct (holding_held _ _ _ _ _ H1 (or_introl eq_refl))
      as (_ & _ & _ & _ & _ & Hh & _ & He).
    unfold memset.
    replace (fsp =? 0) with false by (symmetry; apply Z.eqb_neq; lia).
    cbn [Z.eqb SIZEOF_FS].
    eapply (room_write s s1 _ _ (fsp - HEADER_SIZE) fsz _ H1 (or_introl eq_refl));
      [|exact Hroom1].
    intros x Hx Hout. cbn. unfold mem_fill.
    rewrite in_range_outside; [reflexivity| | | | |];
      unfold heap_end, SIZEOF_FS in *; arith. }
  set (s2 := memset fsp 0 SIZEOF_FS s1) in *.
  apply returns_bind.
  eapply (returns_kmalloc_room s s2 _ _ SIZEOF_SUPERBLOCK);
    [exact H2|exact Hroom2|unfold SIZEOF_SUPERBLOCK; lia|unfold SIZEOF_SUPERBLOCK; lia
    |unfold SIZEOF_FS, SIZEOF_SUPERBLOCK, MIN_ALLOC_SIZE, HEADER_SIZE; lia|].
  intros sbp ssz s3 Hsbp Hcap3 H3 Hroom3.
  replace (sbp =? 0) with false by (symmetry; apply Z.eqb_neq; lia).
  apply returns_bind.
  destruct (holding_held _ _ _ _ _ H3 (or_introl eq_refl))
    as (_ & _ & _ & _ & _ & Hh3 & _ & He3).
  destruct (holding_device_read s s3 _ d EXT4_SUPERBLOCK_OFFSET SIZEOF_SUPERBLOCK sbp
              (sbp - HEADER_SIZE) ssz H3 ltac:(now left) ltac:(lia) ltac:(lia)
              ltac:(unfold SIZEOF_SUPERBLOCK; lia))
    as (s4 & E4 & H4 & Hmem & _).
  specialize (Hmem data Hdata).
  unfold returns at 1. rewrite E4.
  replace (reply_status (dev_read d EXT4_SUPERBLOCK_OFFSET SIZEOF_SUPERBLOCK) <? 0)
    with false by (symmetry; apply Z.ltb_ge; apply Hok).
  assert (Hroom4 : room kernel_heap (memory s4)
                        (r - (SIZEOF_FS + 31) - (SIZEOF_SUPERBLOCK + 31))).
  { rewrite Hmem.
    eapply (room_write s s3 _ _ (sbp - HEADER_SIZE) ssz _ H3 (or_introl eq_refl));
      [|exact Hroom3].
    intros x Hx Hout. unfold mem_write.
    rewrite in_range_outside; [reflexivity| | | | |];
      unfold heap_end, SIZEOF_SUPERBLOCK in *; arith. }
  apply returns_bind, returns_get. cbv zeta.
  apply returns_bind, returns_kfree.
  rewrite Hmem, read_superblock_written
    by (unfold heap_end, SIZEOF_SUPERBLOCK in *; arith).
  apply (mount_geometry_room s _ (mkFs fsp (Some d) (read_superblock data 0)
                                        0 0 0 0 0 0 0) d ino fsz
           (r - (SIZEOF_FS + 31) - (SIZEOF_SUPERBLOCK + 31)));
    [exact (holding_kfree_ptr s _ _ ssz _ H4)
    |exact (room_kfree_ptr s s4 sbp ssz _ _ H4 Hroom4)
    |reflexivity|exact Hok|exact Hsb
    |cbn [sb]; unfold SIZEOF_FS, SIZEOF_SUPERBLOCK; lia].
Qed.

End Holding.

Lemma mount_failure_releases_everything_witness :
  heap_wf demo_heap fresh_heap
  /\ exists rc s',
       ext4_mount demo_heap (Some blank_device) caller_buffer stale_inode fresh_heap
       = Done (rc, None, None) s'
       /\ rc < 0 /\ heap_same demo_heap fresh_heap s'.
Proof.
  assert (Hlo : 0 <= demo_heap) by (vm_compute; discriminate).
  assert (Hhi : demo_heap + KERNEL_HEAP_SIZE < 2 ^ 64) by (vm_compute; reflexivity).
  assert (Hwf : heap_wf demo_heap fresh_heap)
    by (apply heap_wf_init; first [reflexivity | exact Hlo | exact Hhi]).
  split; [exact Hwf|].
  destruct (mount_failure_releases_everything demo_heap Hlo Hhi fresh_heap
              (Some blank_device) caller_buffer stale_inode Hwf) as (_ & H & _).
  apply (H blank_device 37772).
  - reflexivity.
  - vm_compute. discriminate.
  - vm_compute. reflexivity.
  - vm_compute. discriminate.
Defined.

(** The claim of C6 as worded, on index entries that are not in
    ascending order: every node has the extent magic, logical block 60
    lies in the extent (50, 20, 900) of the leaf referenced by the last
    index entry whose starting block does not exceed 60, so the worded
    resolution answers 910; the code stops at the first entry, whose
    leaf does not cover block 60, and returns -1. *)
Lemma extent_unsorted_index_stops_early :
  has_extents tree_fs = true
  /\ Z.land (i_flags unsorted_inode) EXT4_EXTENTS_FL <> 0
  /\ node_indexes (root_node_of unsorted_inode) = [(0, 700); (100, 701); (50, 702)]
  /\ spec_select_index (node_indexes (root_node_of unsorted_inode)) 60 = Some (50, 702)
  /\ spec_read_extent_block tree_fs unsorted_inode 60 = (0, Some 910)
  /\ match ext4_read_extent_block demo_heap tree_fs unsorted_inode 60 fresh_heap with
     | Done (rc, r) _ => rc = -1 /\ r = None
     | Trap _ => False
     end.
Proof. vm_compute. repeat split; try reflexivity; discriminate. Qed.

Lemma extent_tree_resolution_witness :
  returns (ext4_read_extent_block demo_heap tree_fs sorted_inode 60)
          (extent_post demo_heap tree_fs fresh_heap (0, Some 910)) fresh_heap.
Proof.
  assert (Hlo : 0 <= demo_heap) by (vm_compute; discriminate).
  assert (Hhi : demo_heap + KERNEL_HEAP_SIZE < 2 ^ 64) by (vm_compute; reflexivity).
  assert (Hwf : heap_wf demo_heap fresh_heap)
    by (apply heap_wf_init; first [reflexivity | exact Hlo | exact Hhi]).
  assert (E : spec_read_extent_block tree_fs sorted_inode 60 = (0, Some 910))
    by (vm_compute; reflexivity).
  rewrite <- E.
  assert (Hfeat : has_extents tree_fs = true) by (vm_compute; reflexivity).
  assert (Hflag : Z.land (i_flags sorted_inode) EXT4_EXTENTS_FL <> 0)
    by (vm_compute; discriminate).
  assert (Hbs : SIZEOF_EXTENT_NODE <= block_size tree_fs) by (vm_compute; discriminate).
  assert (Hbs' : block_size tree_fs + 31 < 2 ^ 64) by (vm_compute; reflexivity).
  assert (Hok : tree_ok (Z.to_nat (eh_depth (root_node_of sorted_inode) 0)) tree_fs
                        SIZEOF_EXTENT_NODE (root_node_of sorted_inode) 60).
  { vm_compute. repeat split; try discriminate. }
  pose proof (extent_tree_resolution demo_heap Hlo Hhi tree_fs sorted_inode 60
                fresh_heap Hwf Hfeat Hflag Hbs Hbs' Hok) as H.
  destruct H as [H _].
  exact H.
Defined.

(** C10.  [ext4_mount] does not look at the incompatible-feature mask.
    For every device, result pointer and state, the mount gives the same
    return code, root pointer, node and final state as the mount that
    has the mask of its superblock copy replaced by any value [v] - the
    extents flag set, cleared, or anything else - the mounted handle
    differing in that mask only; so a device without the flag mounts
    exactly when, and exactly as, the same device with the flag does.
    The same holds of the part of the mount that follows the copy of
    the superblock.  And such a device does mount: whatever its mask,
    when the device answers every read without error, its superblock has
    a valid magic and a geometry the mount can work with ([mountable]),
    and the heap is well shaped with a free block large enough for the
    handle, the superblock buffer, the group descriptor table, the root
    node, one block buffer and the inode info, [ext4_mount] returns 0
    with a root node for inode 2 whose handle carries the superblock of
    the device, mask included.  On a filesystem whose mask lacks the
    extents flag, the failure comes from [ext4_read_extent_block], and
    from [ext4_read_file_block] for any block inside the file, and
    neither reads the device.  The synthetic image without the flag mounts with
    return code 0, and reading block 0 of its root directory then fails
    with -1. *)
Theorem mount_ignores_extents_feature :
  (forall kernel_heap v dev root_node inode0 s,
     ext4_mount_with_mask kernel_heap v dev root_node inode0 s
     = exec_map (retag_mount v) (ext4_mount kernel_heap dev root_node inode0 s))
  /\ (forall kernel_heap v fs inode0 s,
     ext4_mount_geometry kernel_heap (retag_fs v fs) inode0 s
     = exec_map (retag_mount v) (ext4_mount_geometry kernel_heap fs inode0 s))
  /\ (forall kernel_heap d root_node inode0 s data r,
        0 <= kernel_heap -> kernel_heap + KERNEL_HEAP_SIZE < 2 ^ 64 ->
        heap_wf kernel_heap s -> room kernel_heap (memory s) r ->
        root_node <> 0 ->
        (forall off size, 0 <= reply_status (dev_read d off size)) ->
        reply_data (dev_read d EXT4_SUPERBLOCK_OFFSET SIZEOF_SUPERBLOCK)
        = Some data ->
        let sbk := read_superblock data 0 in
        mountable sbk ->
        sb_gdesc_blocks sbk * sb_block_size sbk + sb_block_size sbk + 3000 <= r ->
        exists rootp node info s',
          ext4_mount kernel_heap (Some d) root_node inode0 s
          = Done (0, Some rootp, Some node) s'
          /\ vn_inode node = EXT4_ROOT_INO
          /\ vn_private node = Some info
          /\ sb (info_fs info) = sbk
          /\ has_extents (info_fs info)
             = negb (Z.land (s_feature_incompat sbk) EXT4_FEATURE_INCOMPAT_EXTENTS
                     =? 0))
  /\ (forall kernel_heap fs inode block_num s,
        has_extents fs = false ->
        ext4_read_extent_block kernel_heap fs inode block_num s
        = Done (-1, None)
            (kerr "EXT4: This filesystem doesn't use extents\n" [] s))
  /\ (forall kernel_heap fs inode block_num buffer s,
        has_extents fs = false -> 0 < block_size fs ->
        block_num < wrap64 (i_size inode + block_size fs - 1) / block_size fs ->
        ext4_read_file_block kernel_heap fs inode block_num buffer s
        = Done (-1)
            (kerr "EXT4: Traditional indirect block addressing not implemented\n"
                  [] s))
  /\ match ext4_mount demo_heap (Some (disk_image 0x0002)) 8 (fun _ => 0)
                      boot_state with
     | Done (rc, Some root, Some (mkNode ty _ ino (Some info))) s =>
         rc = 0 /\ root <> 0 /\ ty = VFS_DIRECTORY /\ ino = EXT4_ROOT_INO
         /\ has_extents (info_fs info) = false
         /\ match ext4_read_file_block demo_heap (info_fs info) (raw_inode info)
                                       0 caller_buffer s with
            | Done r s' => r = -1 /\ dev_reads s' = dev_reads s
            | Trap _ => False
            end
     | _ => False
     end.
Proof.
  split; [intros; apply mount_with_mask_same|].
  split; [intros; apply mount_geometry_retag|].
  split.
  { intros kernel_heap d root_node inode0 s data r Hlo Hhi Hwf Hroom Hroot Hok
           Hdata sbk Hsb Hr.
    pose proof (mount_room kernel_heap Hlo Hhi s d root_node inode0 data r
                  Hwf Hroom Hroot Hok Hdata Hsb Hr) as H.
    unfold returns in H.
    destruct (ext4_mount kernel_heap (Some d) root_node inode0 s) as [res s'|t];
      [|contradiction].
    destruct H as (rootp & node & info & -> & Hino & Hpriv & Esb).
    exists rootp, node, info, s'. repeat split; auto.
    unfold has_extents. now rewrite Esb. }
  split; [intros; now apply read_extent_block_without_feature|].
  split; [intros; now apply read_file_block_without_feature|].
  vm_compute. repeat split; try reflexivity. discriminate.
Qed.

Lemma mount_ignores_extents_feature_witness :
  (exists rootp node info s',
      ext4_mount demo_heap (Some (disk_image 2)) caller_buffer stale_inode
                 fresh_heap
      = Done (0, Some rootp, Some node) s'
      /\ vn_private node = Some info
      /\ has_extents (info_fs info) = false)
  /\ ext4_read_file_block demo_heap (demo_fs (disk_image 2) 2) dir_inode_demo 0
                          caller_buffer boot_state
     = Done (-1)
         (kerr "EXT4: Traditional indirect block addressing not implemented\n" []
               boot_state).
Proof.
  assert (Hlo : 0 <= demo_heap) by (vm_compute; discriminate).
  assert (Hhi : demo_heap + KERNEL_HEAP_SIZE < 2 ^ 64) by (vm_compute; reflexivity).
  assert (Hwf : heap_wf demo_heap fresh_heap)
    by (apply heap_wf_init; first [reflexivity | exact Hlo | exact Hhi]).
  assert (Hroom : room demo_heap (memory fresh_heap) KERNEL_HEAP_SIZE).
  { destruct (kmalloc_init_spec demo_heap boot_state eq_refl)
      as (_ & _ & Har & Hfree & Hsz & _).
    exists [demo_heap], demo_heap. repeat split; auto; [now left|].
    fold fresh_heap in Hsz. rewrite Hsz. lia. }
  destruct mount_ignores_extents_feature as (_ & _ & Hmount & _ & Hread & _).
  split.
  - destruct (Hmount demo_heap (disk_image 2) caller_buffer stale_inode fresh_heap
                (fun i => image_byte
                            [(1024, superblock_image 2); (2048, group_desc_image);
                             (5120, inode_table_image); (600 * 1024, dir_block)]
                            (EXT4_SUPERBLOCK_OFFSET + i))
                KERNEL_HEAP_SIZE Hlo Hhi Hwf Hroom)
      as (rootp & node & info & s' & E & _ & Hpriv & _ & Hext).
    + vm_compute. discriminate.
    + intros off size. cbn. lia.
    + reflexivity.
    + vm_compute. repeat split; try reflexivity; discriminate.
    + vm_compute. discriminate.
    + exists rootp, node, info, s'. split; [exact E|]. split; [exact Hpriv|].
      rewrite Hext. vm_compute. reflexivity.
  - apply Hread.
    + vm_compute. reflexivity.
    + vm_compute. reflexivity.
    + vm_compute. reflexivity.
Defined.

(** ** The byte loops of lib/minstd.c *)

Lemma load8_store8 m a v x :
  load8 (store8 m a v) x = if x =? a then v mod 256 else load8 m x.
Proof.
  unfold load8, store8, store_le.
  destruct (Z.eqb_spec x a) as [->|Hne].
  - replace ((a <=? a) && (a <? a + 1)) with true
      by (symmetry; apply andb_true_iff; split; [apply Z.leb_le|apply Z.ltb_lt]; lia).
    rewrite Z.sub_diag. change (256 ^ 0) with 1. rewrite Z.div_1_r.
    apply Z.mod_mod. lia.
  - replace ((a <=? x) && (x <? a + 1)) with false; [reflexivity|].
    symmetry. apply andb_false_iff.
    destruct (Z.lt_ge_cases x a); [left; apply Z.leb_gt|right; apply Z.ltb_ge]; lia.
Qed.

Lemma load8_mod m a : load8 m a mod 256 = load8 m a.
Proof. unfold load8. apply Z.mod_mod. lia. Qed.

Lemma copy_forward_spec dest src n :
  dest < src \/ src + n <= dest ->
  forall k m i, 0 <= i -> i + Z.of_nat k <= n ->
  forall x,
    load8 (copy_forward k m dest src i) x
    = if (dest + i <=? x) && (x <? dest + i + Z.of_nat k)
      then load8 m (src + (x - dest)) else load8 m x.
Proof.
  intros Hway. induction k as [|k IH]; intros m i Hi Hk x.
  - cbn [copy_forward]. replace (_ && _) with false; [reflexivity|].
    symmetry. apply andb_false_iff.
    destruct (Z.lt_ge_cases x (dest + i)); [left; apply Z.leb_gt|right; apply Z.ltb_ge]; lia.
  - cbn [copy_forward]. rewrite IH by lia.
    destruct (Z.leb_spec (dest + (i + 1)) x) as [H1|H1];
      destruct (Z.ltb_spec x (dest + (i + 1) + Z.of_nat k)) as [H2|H2]; cbn [andb].
    + rewrite load8_store8.
      replace (src + (x - dest) =? dest + i) with false by (symmetry; apply Z.eqb_neq; lia).
      replace ((dest + i <=? x) && (x <? dest + i + Z.of_nat (S k))) with true;
        [reflexivity|].
      symmetry. apply andb_true_iff. split; [apply Z.leb_le|apply Z.ltb_lt]; lia.
    + rewrite load8_store8.
      replace (x =? dest + i) with false by (symmetry; apply Z.eqb_neq; lia).
      replace ((dest + i <=? x) && (x <? dest + i + Z.of_nat (S k))) with false;
        [reflexivity|].
      symmetry. apply andb_false_iff. right. apply Z.ltb_ge. lia.
    + rewrite load8_store8.
      destruct (Z.eqb_spec x (dest + i)) as [->|Hne].
      * replace ((dest + i <=? dest + i) && (dest + i <? dest + i + Z.of_nat (S k)))
          with true
          by (symmetry; apply andb_true_iff; split; [apply Z.leb_le|apply Z.ltb_lt]; lia).
        rewrite load8_mod. f_equal. lia.
      * replace ((dest + i <=? x) && (x <? dest + i + Z.of_nat (S k))) with false;
          [reflexivity|].
        symmetry. apply andb_false_iff. left. apply Z.leb_gt. lia.
    + lia.
Qed.

Lemma copy_backward_spec dest src n :
  src < dest \/ dest + n <= src ->
  forall k m, Z.of_nat k <= n ->
  forall x,
    load8 (copy_backward k m dest src) x
    = if (dest <=? x) && (x <? dest + Z.of_nat k)
      then load8 m (src + (x - dest)) else load8 m x.
Proof.
  intros Hway. induction k as [|k IH]; intros m Hk x.
  - cbn [copy_backward]. replace (_ && _) with false; [reflexivity|].
    symmetry. apply andb_false_iff.
    destruct (Z.lt_ge_cases x dest); [left; apply Z.leb_gt|right; apply Z.ltb_ge]; lia.
  - cbn [copy_backward]. rewrite IH by lia.
    destruct (Z.leb_spec dest x) as [H1|H1];
      destruct (Z.ltb_spec x (dest + Z.of_nat k)) as [H2|H2]; cbn [andb].
    + rewrite load8_store8.
      replace (src + (x - dest) =? dest + Z.of_nat k) with false
        by (symmetry; apply Z.eqb_neq; lia).
      replace (x <? dest + Z.of_nat (S k)) with true by (symmetry; apply Z.ltb_lt; lia).
      reflexivity.
    + rewrite load8_store8.
      destruct (Z.eqb_spec x (dest + Z.of_nat k)) as [->|Hne].
      * replace (dest + Z.of_nat k <? dest + Z.of_nat (S k)) with true
          by (symmetry; apply Z.ltb_lt; lia).
        rewrite load8_mod. f_equal. lia.
      * replace (x <? dest + Z.of_nat (S k)) with false
          by (symmetry; apply Z.ltb_ge; lia).
        reflexivity.
    + rewrite load8_store8.
      replace (x =? dest + Z.of_nat k) with false by (symmetry; apply Z.eqb_neq; lia).
      reflexivity.
    + rewrite load8_store8.
      replace (x =? dest + Z.of_nat k) with false by (symmetry; apply Z.eqb_neq; lia).
      reflexivity.
Qed.

Lemma copied_same m p n x : copied m p p n x = load8 m x.
Proof.
  unfold copied. destruct (_ && _); [|reflexivity]. f_equal. lia.
Qed.

Lemma copied_none m dest src x : copied m dest src 0 x = load8 m x.
Proof.
  unfold copied. replace (_ && _) with false; [reflexivity|].
  symmetry. apply andb_false_iff.
  destruct (Z.lt_ge_cases x dest); [left; apply Z.leb_gt|right; apply Z.ltb_ge]; lia.
Qed.

Lemma memmove_bytes dest src n s :
  dest <> 0 -> src <> 0 -> 0 <= n ->
  let s' := memmove dest src n s in
  (forall x, load8 (memory s') x = copied (memory s) dest src n x)
  /\ heap_initialized s' = heap_initialized s /\ heap_used s' = heap_used s
  /\ klog s' = klog s /\ dev_reads s' = dev_reads s.
Proof.
  intros Hd Hs Hn. unfold memmove.
  replace ((dest =? 0) || (src =? 0)) with false
    by (symmetry; apply orb_false_iff; split; now apply Z.eqb_neq).
  destruct (Z.eqb_spec n 0) as [->|Hn0].
  { cbv zeta. split; [intros x; now rewrite copied_none|auto]. }
  destruct (Z.eqb_spec dest src) as [->|Hne].
  { cbv zeta. split; [intros x; now rewrite copied_same|auto]. }
  destruct (Z.ltb_spec dest src) as [Hlt|Hge]; cbv zeta;
    cbn [set_memory memory heap_initialized heap_used klog dev_reads];
    (split; [|auto]); intros x; unfold copied.
  - rewrite (copy_forward_spec dest src n (or_introl Hlt)) by lia.
    rewrite Z.add_0_r, Z2Nat.id by lia. reflexivity.
  - assert (Hway : src < dest \/ dest + n <= src) by lia.
    rewrite (copy_backward_spec dest src n Hway) by lia.
    rewrite Z2Nat.id by lia. reflexivity.
Qed.

(** X11. [memmove] copies correctly whatever the overlap: after the
    call each of the [n] destination bytes holds the byte the source had
    before the call and every other byte is unchanged; the forward loop
    is used when the source lies above the destination and the backward
    loop otherwise. *)
Theorem memmove_copies_despite_overlap dest src n s :
  dest <> 0 -> src <> 0 -> 0 <= n ->
  let s' := memmove dest src n s in
  (forall i, 0 <= i < n -> load8 (memory s') (dest + i) = load8 (memory s) (src + i))
  /\ (forall x, x < dest \/ dest + n <= x -> load8 (memory s') x = load8 (memory s) x)
  /\ heap_used s' = heap_used s /\ klog s' = klog s.
Proof.
  intros Hd Hs Hn s'.
  destruct (memmove_bytes dest src n s Hd Hs Hn) as (Hb & _ & Hu & Hl & _).
  fold s' in Hb, Hu, Hl. split; [|split; [|auto]].
  - intros i Hi. rewrite Hb. unfold copied.
    replace ((dest <=? dest + i) && (dest + i <? dest + n)) with true
      by (symmetry; apply andb_true_iff; split; [apply Z.leb_le|apply Z.ltb_lt]; lia).
    f_equal. lia.
  - intros x Hx. rewrite Hb. unfold copied.
    replace ((dest <=? x) && (x <? dest + n)) with false; [reflexivity|].
    symmetry. apply andb_false_iff.
    destruct Hx; [left; apply Z.leb_gt|right; apply Z.ltb_ge]; lia.
Qed.

(** X12. [memcpy] is safe on overlapping regions too: with its loop on
    disjoint regions and its fallback to [memmove] on overlapping ones,
    the destination ends up with the source bytes as they were before
    the call, every other byte is unchanged, and the overlap is
    reported in the log.  The one-step model [memcpy] used for the
    callers leaves the same bytes and the same log. *)
Theorem memcpy_bytewise_copies dest src n s :
  0 < dest -> 0 < src -> 0 <= n -> dest + n < 2 ^ 64 -> src + n < 2 ^ 64 ->
  let s' := memcpy_bytewise dest src n s in
  (forall x, load8 (memory s') x = copied (memory s) dest src n x)
  /\ (forall x, 0 <= x < 2 ^ 64 ->
                load8 (memory (memcpy dest src n s)) x = load8 (memory s') x)
  /\ klog s' = klog (memcpy dest src n s)
  /\ heap_used s' = heap_used s.
Proof.
  intros Hd Hs Hn Hdn Hsn. unfold memcpy_bytewise, memcpy.
  replace ((dest =? 0) || (src =? 0)) with false
    by (symmetry; apply orb_false_iff; split; apply Z.eqb_neq; lia).
  destruct (Z.eqb_spec n 0) as [->|Hn0].
  { cbv zeta. split; [intros x; now rewrite copied_none|auto]. }
  rewrite !wrap64_small by lia.
  assert (Hmodel : forall (t : kstate) x, 0 <= x < 2 ^ 64 ->
             load8 (mem_copy (memory t) dest src n) x = copied (memory t) dest src n x).
  { intros t x Hx. unfold mem_copy, copied, load8.
    destruct (Z.leb_spec dest x) as [H1|H1];
      destruct (Z.ltb_spec x (dest + n)) as [H2|H2]; cbn [andb].
    - rewrite in_range_inside by lia.
      rewrite (wrap64_small (x - dest)) by lia. now rewrite wrap64_small by lia.
    - now rewrite in_range_outside by lia.
    - now rewrite in_range_outside by lia.
    - now rewrite in_range_outside by lia. }
  set (s1 := kerr "memcpy: memory regions overlap, use memmove instead\n" [] s).
  assert (Hmove : let s' := memmove dest src n s1 in
            (forall x, load8 (memory s') x = copied (memory s) dest src n x)
            /\ klog s' = klog s1 /\ heap_used s' = heap_used s).
  { destruct (memmove_bytes dest src n s1 ltac:(lia) ltac:(lia) Hn)
      as (Hb & _ & Hu & Hl & _). cbv zeta. auto. }
  assert (Hover : forall (c : bool), c = true ->
            let s' := memmove dest src n s1 in
            let t := if dest =? src then s1
                     else set_memory s1 (mem_copy (memory s1) dest src n) in
            (forall x, load8 (memory s') x = copied (memory s) dest src n x)
            /\ (forall x, 0 <= x < 2 ^ 64 -> load8 (memory t) x = load8 (memory s') x)
            /\ klog s' = klog t /\ heap_used s' = heap_used s).
  { intros c _. cbv zeta. destruct Hmove as (Hb & Hl & Hu).
    split; [exact Hb|]. split; [|split; [|exact Hu]].
    - intros x Hx. rewrite Hb. destruct (Z.eqb_spec dest src) as [->|Hne].
      + now rewrite copied_same.
      + cbn [set_memory memory]. exact (Hmodel s1 x Hx).
    - rewrite Hl. now destruct (dest =? src). }
  destruct ((dest <=? src) && (src <? dest + n)) eqn:E1; cbn [orb].
  { exact (Hover true eq_refl). }
  destruct ((src <=? dest) && (dest <? src + n)) eqn:E2.
  { exact (Hover true eq_refl). }
  cbv zeta. cbn [set_memory memory heap_initialized heap_used klog dev_reads].
  assert (Hdis : dest < src \/ src + n <= dest).
  { apply andb_false_iff in E1, E2.
    destruct E1 as [E1|E1], E2 as [E2|E2];
      try apply Z.leb_gt in E1; try apply Z.ltb_ge in E1;
      try apply Z.leb_gt in E2; try apply Z.ltb_ge in E2; lia. }
  assert (Hb : forall x, load8 (copy_forward (Z.to_nat n) (memory s) dest src 0) x
                         = copied (memory s) dest src n x).
  { intros x. rewrite (copy_forward_spec dest src n Hdis) by lia.
    unfold copied. rewrite Z.add_0_r, Z2Nat.id by lia. reflexivity. }
  split; [exact Hb|]. split; [|auto].
  intros x Hx. rewrite Hb. exact (Hmodel s x Hx).
Qed.

(** ** Worked examples for the further properties *)

Lemma demo_heap_lo : 0 <= demo_heap.
Proof. vm_compute; discriminate. Qed.

Lemma demo_heap_hi : demo_heap + KERNEL_HEAP_SIZE < 2 ^ 64.
Proof. vm_compute; reflexivity. Qed.

Lemma fresh_heap_wf : heap_wf demo_heap fresh_heap.
Proof. apply heap_wf_init; first [reflexivity | exact demo_heap_lo | exact demo_heap_hi]. Qed.

Lemma one_block_arena :
  arena demo_heap (memory one_block) [demo_heap; demo_heap + 32].
Proof. apply blocksb_sound; vm_compute; reflexivity. Qed.

Lemma one_block_wf : heap_wf demo_heap one_block.
Proof.
  split; [vm_compute; reflexivity|].
  split; [vm_compute; split; [discriminate|reflexivity]|].
  exists [demo_heap; demo_heap + 32]. exact one_block_arena.
Qed.

Lemma one_block_allocated : allocated demo_heap (memory one_block) demo_heap.
Proof.
  exists [demo_heap; demo_heap + 32]. split; [exact one_block_arena|].
  split; [now left | vm_compute; reflexivity].
Qed.

Lemma one_block_accounted : accounted demo_heap one_block.
Proof.
  split; [vm_compute; reflexivity|].
  exists [demo_heap; demo_heap + 32]. split; [exact one_block_arena|].
  vm_compute; reflexivity.
Qed.

Lemma two_blocks_arena :
  arena demo_heap (memory two_blocks) [demo_heap; demo_heap + 32; demo_heap + 64].
Proof. apply blocksb_sound; vm_compute; reflexivity. Qed.

Lemma two_blocks_wf : heap_wf demo_heap two_blocks.
Proof.
  split; [vm_compute; reflexivity|].
  split; [vm_compute; split; [discriminate|reflexivity]|].
  eexists. exact two_blocks_arena.
Qed.

Lemma two_blocks_allocated h :
  h = demo_heap \/ h = demo_heap + 32 -> allocated demo_heap (memory two_blocks) h.
Proof.
  intros Hh. eexists. split; [exact two_blocks_arena|].
  destruct Hh as [-> | ->]; (split; [cbn; auto | vm_compute; reflexivity]).
Qed.

(** X1 on a heap with one live block: a further allocation of 100 bytes
    leaves that block allocated. *)
Lemma kmalloc_keeps_live_blocks_witness :
  exists p s',
    kmalloc demo_heap 100 one_block = Done p s'
    /\ (p = 0 \/ (allocated demo_heap (memory s') demo_heap
                  /\ block_bytes_same (memory one_block) (memory s') demo_heap)).
Proof.
  destruct (kmalloc_keeps_live_blocks demo_heap demo_heap_lo demo_heap_hi one_block 100
              one_block_wf ltac:(lia) ltac:(vm_compute; reflexivity))
    as (p & s' & E & [(Hp & _)|(_ & _ & _ & _ & Hkeep)]).
  - exists p, s'. split; [exact E|now left].
  - exists p, s'. split; [exact E|]. right.
    destruct (Hkeep demo_heap one_block_allocated) as (H1 & H2 & _). now split.
Defined.

(** X2 on a heap with two live blocks: freeing the first keeps the
    second. *)
Lemma kfree_keeps_other_blocks_witness :
  let s' := kfree demo_heap (demo_heap + HEADER_SIZE) two_blocks in
  hdr_used (memory s') demo_heap = false
  /\ allocated demo_heap (memory s') (demo_heap + 32).
Proof.
  cbv zeta.
  destruct (kfree_keeps_other_blocks demo_heap demo_heap_lo demo_heap_hi two_blocks
              demo_heap two_blocks_wf (two_blocks_allocated _ (or_introl eq_refl)))
    as (_ & Hfree & _ & Hkeep).
  split; [exact Hfree|].
  destruct (Hkeep (demo_heap + 32) (two_blocks_allocated _ (or_intror eq_refl))
              ltac:(lia)) as (H & _).
  exact H.
Defined.

(** X3: a pointer below the heap array. *)
Lemma kfree_rejects_foreign_pointer_witness :
  kfree demo_heap caller_buffer fresh_heap
  = kerr "MM: Attempt to free invalid memory at 0x%p\n" [LInt caller_buffer]
         fresh_heap.
Proof.
  apply (kfree_rejects_foreign_pointer demo_heap fresh_heap caller_buffer).
  - vm_compute; reflexivity.
  - vm_compute; split; [discriminate|reflexivity].
  - left. vm_compute; reflexivity.
Defined.

(** X4 on a heap with one live block. *)
Lemma kzalloc_zeroes_witness :
  exists p s',
    kzalloc demo_heap 100 one_block = Done p s'
    /\ (p = 0 \/ ((forall i, 0 <= i < 100 -> memory s' (p + i) = 0)
                  /\ block_bytes_same (memory one_block) (memory s') demo_heap)).
Proof.
  destruct (kzalloc_zeroes demo_heap demo_heap_lo demo_heap_hi one_block 100
              one_block_wf ltac:(lia) ltac:(vm_compute; reflexivity))
    as (p & s' & E & [Hp|(_ & Hz & Hkeep)]).
  - exists p, s'. split; [exact E|now left].
  - exists p, s'. split; [exact E|]. right.
    split; [exact Hz|exact (Hkeep demo_heap one_block_allocated)].
Defined.

(** X5 on a heap with one live block. *)
Lemma kmalloc_keeps_accounting_witness :
  exists p s', kmalloc demo_heap 100 one_block = Done p s' /\ accounted demo_heap s'.
Proof.
  exact (kmalloc_keeps_accounting demo_heap demo_heap_lo demo_heap_hi one_block 100
           one_block_accounted ltac:(lia) ltac:(vm_compute; reflexivity)).
Defined.

(** X6 on a heap with one live block. *)
Lemma kfree_keeps_accounting_witness :
  accounted demo_heap (kfree demo_heap (demo_heap + HEADER_SIZE) one_block).
Proof.
  exact (kfree_keeps_accounting demo_heap demo_heap_lo demo_heap_hi one_block
           demo_heap one_block_accounted one_block_allocated).
Defined.

(** X7 on a heap with one live block of 32 bytes. *)
Lemma kmalloc_stats_exact_witness :
  kmalloc_stats one_block
  = Some (KERNEL_HEAP_SIZE, 32, KERNEL_HEAP_SIZE - 32).
Proof.
  destruct (kmalloc_stats_exact demo_heap one_block one_block_accounted)
    as (l & Har & E & Hsum).
  rewrite E. revert Hsum.
  rewrite (blocks_unique _ _ _ _ _ Har one_block_arena).
  intros Hsum.
  assert (Hu : used_sum (memory one_block) [demo_heap; demo_heap + 32] = 32)
    by (vm_compute; reflexivity).
  rewrite Hu in *.
  replace (free_sum (memory one_block) [demo_heap; demo_heap + 32])
    with (KERNEL_HEAP_SIZE - 32) by lia.
  reflexivity.
Defined.

(** X8 on a heap with one live block: the request skips the used block
    and takes the free block behind it. *)
Lemma kmalloc_first_fit_witness :
  exists s', kmalloc demo_heap 100 one_block = Done (demo_heap + 32 + HEADER_SIZE) s'.
Proof.
  destruct (kmalloc_first_fit demo_heap demo_heap_lo demo_heap_hi one_block
              [demo_heap; demo_heap + 32] 100 ltac:(vm_compute; reflexivity)
              one_block_arena ltac:(lia) ltac:(vm_compute; reflexivity))
    as (_ & p & s' & E & [(_ & Hnone)|(Hin & Hfit & _)]).
  - assert (F : fits (memory one_block) (request_total 100) (demo_heap + 32) = true)
      by (vm_compute; reflexivity).
    rewrite Hnone in F; [discriminate|cbn; auto].
  - exists s'. rewrite E. f_equal.
    destruct Hin as [Hin|[Hin|[]]].
    + rewrite <- Hin in Hfit.
      assert (F : fits (memory one_block) (request_total 100) demo_heap = false)
        by (vm_compute; reflexivity).
      rewrite F in Hfit. discriminate.
    + unfold HEADER_SIZE in *. lia.
Defined.

(** X9 on a heap with one live block. *)
Lemma kmalloc_after_kfree_succeeds_witness :
  exists p s',
    kmalloc demo_heap 16 (kfree demo_heap (demo_heap + HEADER_SIZE) one_block)
    = Done p s'
    /\ demo_heap + HEADER_SIZE <= p <= demo_heap + HEADER_SIZE.
Proof.
  exact (kmalloc_after_kfree_succeeds demo_heap demo_heap_lo demo_heap_hi one_block
           demo_heap 16 one_block_wf one_block_allocated ltac:(lia)
           ltac:(vm_compute; reflexivity) ltac:(vm_compute; discriminate)).
Defined.

(** X10 at boot. *)
Lemma kmalloc_initialises_on_first_use_witness :
  kmalloc_stats boot_state = None
  /\ exists s', kmalloc demo_heap 16 boot_state = Done (demo_heap + HEADER_SIZE) s'
                /\ accounted demo_heap s'.
Proof.
  destruct (kmalloc_initialises_on_first_use demo_heap demo_heap_lo demo_heap_hi
              boot_state 16 eq_refl ltac:(lia) ltac:(vm_compute; discriminate))
    as (H1 & _ & s' & E & Hacc & _).
  split; [exact H1|]. exists s'. now split.
Defined.

(** X11: an overlapping move by one byte to the right; the last byte
    of the destination holds what the last source byte held. *)
Lemma memmove_copies_despite_overlap_witness :
  load8 (memory (memmove 4097 4096 4 patterned_state)) (4097 + 3)
  = load8 (memory patterned_state) (4096 + 3)
  /\ load8 (memory (memmove 4097 4096 4 patterned_state)) 4096
     = load8 (memory patterned_state) 4096.
Proof.
  destruct (memmove_copies_despite_overlap 4097 4096 4 patterned_state
              ltac:(lia) ltac:(lia) ltac:(lia)) as (H & Hout & _).
  split; [apply H; lia | apply Hout; lia].
Defined.

(** X12: an overlapping copy by one byte to the right. *)
Lemma memcpy_bytewise_copies_witness :
  load8 (memory (memcpy_bytewise 4097 4096 4 patterned_state)) 4100
  = copied (memory patterned_state) 4097 4096 4 4100
  /\ copied (memory patterned_state) 4097 4096 4 4100 = pattern 4099.
Proof.
  destruct (memcpy_bytewise_copies 4097 4096 4 patterned_state
              ltac:(lia) ltac:(lia) ltac:(lia) ltac:(lia) ltac:(lia)) as (H & _).
  split; [apply H | vm_compute; reflexivity].
Defined.







(** X18 on the example image: the mount succeeds, and unmounting leaves
    one block more than before the mount. *)
Lemma unmount_after_mount_witness :
  match ext4_mount demo_heap (Some (disk_image 2)) caller_buffer stale_inode
                   fresh_heap with
  | Done (rc, rootp, node) s1 =>
      rc = 0
      /\ exists rp nd,
           rootp = Some rp /\ node = Some nd
           /\ returns (ext4_unmount demo_heap (Some nd))
                (fun nd' s2 =>
                   nd' = Some (clear_private nd)
                   /\ exists sz, holding demo_heap fresh_heap s2
                                   [(rp - HEADER_SIZE, sz)]) s1
  | Trap _ => False
  end.
Proof.
  assert (F : match ext4_mount demo_heap (Some (disk_image 2)) caller_buffer
                      stale_inode fresh_heap with
              | Done (rc, _, _) _ => rc = 0
              | Trap _ => False
              end) by (vm_compute; reflexivity).
  pose proof (unmount_after_mount demo_heap demo_heap_lo demo_heap_hi fresh_heap
                (Some (disk_image 2)) caller_buffer stale_inode fresh_heap_wf) as H.
  destruct (ext4_mount demo_heap (Some (disk_image 2)) caller_buffer stale_inode
              fresh_heap) as [[[rc rootp] node] s1|t]; [|exact F].
  split; [exact F|]. apply H. lia.
Defined.

